(** * offpass: the vault encryption and persistence core

    A shallow embedding of [lib/types.ts], [lib/crypto.ts], [lib/storage.ts],
    [lib/vault.ts] and of the password rotation of [lib/context.tsx].

    - Values of TypeScript interfaces are records; optional members are
      [option]s; [number]s are integers ([Z]): the code only produces
      [Date.now()] stamps and small constants.
    - Strings are byte strings holding UTF-8 text, so [TextEncoder.encode]
      is [list_byte_of_string] and [TextDecoder.decode] its inverse.
    - The IndexedDB object stores are finite maps keyed by the [id] member.
    - [async] functions are computations in a state-and-exception monad over
      a [World]: the two object stores plus the sources the code reads from
      its environment (random bytes, UUIDs, the clock, storage faults).
    - Web Crypto, the base64 codec and [JSON] are the platform: they are
      taken as operations of a [Platform], and [PlatformLaws] states what the
      code relies on in its usual idealised form (decryption inverts
      encryption, the tag rejects every other key, PBKDF2 does not collide,
      base64 and JSON round-trip).
    - Values read back from IndexedDB or out of [JSON.parse] are taken at the
      TypeScript types the code gives them. *)

From Stdlib Require Import Strings.Ascii Strings.Byte.
From stdpp Require Import gmap strings list sorting fin_maps countable pretty.

Local Open Scope Z_scope.
Local Open Scope string_scope.

(** ** lib/types.ts *)

Record Credential := mkCredential {
  cred_id : string;
  cred_title : string;
  cred_username : string;
  cred_password : string;
  cred_url : option string;
  cred_notes : option string;
  cred_category : option string;
  cred_tags : option (list string);
  cred_lastModified : Z;
  cred_createdAt : Z;
}.

Record Vault := mkVault {
  vault_id : string;
  vault_name : string;
  vault_createdAt : Z;
  vault_lastAccessed : Z;
  vault_lastModified : Z;
}.

Record EncryptedVault := mkEncryptedVault {
  ev_id : string;
  ev_name : string;
  ev_encryptedData : string;   (* Base64 encoded encrypted data *)
  ev_iv : string;              (* Base64 encoded initialization vector *)
  ev_salt : string;            (* Base64 encoded salt used for key derivation *)
  ev_createdAt : Z;
  ev_lastAccessed : Z;
  ev_lastModified : Z;
}.

Record VaultSettings := mkVaultSettings {
  autoLockTimeout : option Z;
  categories : option (list string);
  defaultCategory : option string;
}.

Record VaultData := mkVaultData {
  credentials : list Credential;
  settings : option VaultSettings;
}.

Record AppSettings := mkAppSettings {
  darkMode : bool;
  app_autoLockTimeout : Z;
  defaultVaultId : option string;
}.

Record PasswordGenerationOptions := mkOptions {
  uppercase : bool;
  lowercase : bool;
  numbers : bool;
  symbols : bool;
}.

(** [Omit<Credential, "id" | "createdAt" | "lastModified">] *)
Record NewCredential := mkNewCredential {
  new_title : string;
  new_username : string;
  new_password : string;
  new_url : option string;
  new_notes : option string;
  new_category : option string;
  new_tags : option (list string);
}.

(** A member of an object that may leave it out: absent, present with the
    value [undefined], or present with a value. A spread copies the last
    two. *)
Inductive Member (A : Type) :=
| Absent
| Undefined
| Present (a : A).
Arguments Absent {A}.
Arguments Undefined {A}.
Arguments Present {A} a.

(** [Partial<Omit<Credential, "id" | "createdAt">>]. The members that
    [Credential] requires are given a string or left out ([None]): a
    credential without one of them is outside the type. *)
Record CredentialUpdates := mkCredentialUpdates {
  upd_title : option string;
  upd_username : option string;
  upd_password : option string;
  upd_url : Member string;
  upd_notes : Member string;
  upd_category : Member string;
  upd_tags : Member (list string);
  upd_lastModified : option Z;
}.

#[global] Instance byte_eq_dec : EqDecision byte := Byte.byte_eq_dec.
#[global] Instance Credential_eq_dec : EqDecision Credential.
Proof. solve_decision. Defined.
#[global] Instance Vault_eq_dec : EqDecision Vault.
Proof. solve_decision. Defined.
#[global] Instance EncryptedVault_eq_dec : EqDecision EncryptedVault.
Proof. solve_decision. Defined.
#[global] Instance VaultSettings_eq_dec : EqDecision VaultSettings.
Proof. solve_decision. Defined.
#[global] Instance VaultData_eq_dec : EqDecision VaultData.
Proof. solve_decision. Defined.
#[global] Instance AppSettings_eq_dec : EqDecision AppSettings.
Proof. solve_decision. Defined.

(** ** What [JSON.parse] hands to [importData]

    [importData] reads two members off the parsed value, tests the first for
    truthiness and with [Array.isArray], and passes the elements to
    [saveVault] and the second member to [saveSettings]; the elements and the
    settings object are taken at the types those two functions declare. *)

Inductive VaultsMember :=
| VaultsUndefined                       (* no such member *)
| VaultsFalsy                           (* null, false, 0 or the empty string *)
| VaultsNotArray                        (* a truthy value that is not an array *)
| VaultsArray (records : list EncryptedVault).

Inductive ParsedBackup :=
| BackupNull                            (* the JSON text [null] *)
| BackupValue (vaults : VaultsMember) (backup_settings : option AppSettings).

(** ** The platform: Web Crypto, base64, JSON *)

Class Platform := {
  CryptoKey : Type;
  (** [crypto.subtle.deriveKey] with PBKDF2 / SHA-256 to an AES-GCM 256 key,
      from the password bytes, the salt and the iteration count *)
  pbkdf2_deriveKey : list byte → list byte → N → CryptoKey;
  (** [crypto.subtle.encrypt] / [decrypt] with AES-GCM: key, iv, data *)
  aes_gcm_encrypt : CryptoKey → list byte → list byte → list byte;
  aes_gcm_decrypt : CryptoKey → list byte → list byte → option (list byte);
  encodeBase64 : list byte → string;
  decodeBase64 : string → option (list byte);
  (** [JSON.stringify] of a [VaultData] and [JSON.parse] read at that type *)
  JSON_stringify : VaultData → string;
  JSON_parse : string → option VaultData;
  (** [JSON.parse] as [importData] looks at its result *)
  JSON_parse_backup : string → option ParsedBackup;
}.

Class PlatformLaws (P : Platform) : Prop := {
  (** decryption under the encrypting key and iv returns the plaintext *)
  aes_gcm_correct k iv pt :
    aes_gcm_decrypt k iv (aes_gcm_encrypt k iv pt) = Some pt;
  (** the authentication tag rejects every other key *)
  aes_gcm_authentic k k' iv iv' pt :
    k ≠ k' → aes_gcm_decrypt k' iv' (aes_gcm_encrypt k iv pt) = None;
  (** two passwords do not derive the same key from one salt *)
  pbkdf2_collision_free pw pw' salt n :
    pbkdf2_deriveKey pw salt n = pbkdf2_deriveKey pw' salt n → pw = pw';
  base64_round_trip b : decodeBase64 (encodeBase64 b) = Some b;
  JSON_round_trip v : JSON_parse (JSON_stringify v) = Some v;
}.

(** ** The world of an [async] call *)

Inductive IOFault := OpenFails | RequestFails.

Record Oracle := mkOracle {
  random_byte : nat → byte;          (* the bytes crypto.getRandomValues yields *)
  uuid_at : nat → string;            (* the results of crypto.randomUUID() *)
  time_at : nat → Z;                 (* the results of Date.now() *)
  fault_at : nat → option IOFault;   (* the fate of each IndexedDB request *)
}.

Record World := mkWorld {
  db_vaults : gmap string EncryptedVault;   (* object store 'vaults', keyPath 'id' *)
  db_settings : gmap string AppSettings;    (* object store 'settings', keyPath 'id' *)
  oracle : Oracle;
  rng_pos : nat;
  uuid_pos : nat;
  clock_pos : nat;
  io_pos : nat;
}.

Definition with_vaults (f : gmap string EncryptedVault → gmap string EncryptedVault)
    (w : World) : World :=
  mkWorld (f (db_vaults w)) (db_settings w) (oracle w)
          (rng_pos w) (uuid_pos w) (clock_pos w) (io_pos w).

Definition with_settings (f : gmap string AppSettings → gmap string AppSettings)
    (w : World) : World :=
  mkWorld (db_vaults w) (f (db_settings w)) (oracle w)
          (rng_pos w) (uuid_pos w) (clock_pos w) (io_pos w).

Definition advance_rng (n : nat) (w : World) : World :=
  mkWorld (db_vaults w) (db_settings w) (oracle w)
          (rng_pos w + n) (uuid_pos w) (clock_pos w) (io_pos w).

Definition advance_uuid (w : World) : World :=
  mkWorld (db_vaults w) (db_settings w) (oracle w)
          (rng_pos w) (S (uuid_pos w)) (clock_pos w) (io_pos w).

Definition advance_clock (w : World) : World :=
  mkWorld (db_vaults w) (db_settings w) (oracle w)
          (rng_pos w) (uuid_pos w) (S (clock_pos w)) (io_pos w).

Definition advance_io (w : World) : World :=
  mkWorld (db_vaults w) (db_settings w) (oracle w)
          (rng_pos w) (uuid_pos w) (clock_pos w) (S (io_pos w)).

(** ** Errors and the monad *)

Inductive Error :=
| Err (message : string)      (* new Error(message) *)
| TypeError                   (* member access on null *)
| SyntaxError                 (* JSON.parse *)
| OperationError              (* crypto.subtle.decrypt *)
| InvalidCharacterError       (* decodeBase64 *)
| QuotaExceededError.         (* crypto.getRandomValues beyond 65536 bytes *)

#[global] Instance Error_eq_dec : EqDecision Error.
Proof. solve_decision. Defined.

Inductive Outcome (A : Type) :=
| Ok (a : A)
| Throw (e : Error).
Arguments Ok {A} a.
Arguments Throw {A} e.

Definition M (A : Type) : Type := World → Outcome A * World.

Definition ret {A} (a : A) : M A := fun w => (Ok a, w).
Definition throw {A} (e : Error) : M A := fun w => (Throw e, w).
Definition bind {A B} (m : M A) (k : A → M B) : M B :=
  fun w => match m w with
           | (Ok a, w') => k a w'
           | (Throw e, w') => (Throw e, w')
           end.
(** [try { body } catch (error) { handler }] *)
Definition try_catch {A} (body : M A) (handler : Error → M A) : M A :=
  fun w => match body w with
           | (Ok a, w') => (Ok a, w')
           | (Throw e, w') => handler e w'
           end.

Declare Scope vault_scope.
Delimit Scope vault_scope with vault.
Notation "x <- m ;; k" := (bind m (fun x => k))
  (at level 100, m at next level, right associativity) : vault_scope.
Notation "m ;; k" := (bind m (fun _ => k))
  (at level 100, right associativity) : vault_scope.
Local Open Scope vault_scope.

Definition of_option {A} (o : option A) (e : Error) : M A :=
  match o with Some a => ret a | None => throw e end.

(** ** The environment: clock, UUIDs, random bytes *)

Definition Date_now : M Z :=
  fun w => (Ok (time_at (oracle w) (clock_pos w)), advance_clock w).

Definition randomUUID : M string :=
  fun w => (Ok (uuid_at (oracle w) (uuid_pos w)), advance_uuid w).

Definition random_quota : N := 65536.

(** [crypto.getRandomValues(new Uint8Array(n))] *)
Definition getRandomValues (n : nat) : M (list byte) :=
  fun w => if decide (N.of_nat n ≤ random_quota)%N
           then (Ok (random_byte (oracle w) <$> seq (rng_pos w) n), advance_rng n w)
           else (Throw QuotaExceededError, w).

(** ** lib/storage.ts *)

(** One request against the database: [initDatabase] may fail to open it,
    the request itself may fail, otherwise [run] is its effect. *)
Definition idb_request {A} (failure : string) (run : World → A * World) : M A :=
  fun w =>
    match fault_at (oracle w) (io_pos w) with
    | Some OpenFails => (Throw (Err "Failed to open database"), advance_io w)
    | Some RequestFails => (Throw (Err failure), advance_io w)
    | None => let (a, w') := run (advance_io w) in (Ok a, w')
    end.

Definition saveVault (vault : EncryptedVault) : M unit :=
  idb_request "Failed to save vault"
    (fun w => (tt, with_vaults (insert (ev_id vault) vault) w)).

Definition getVault (id : string) : M (option EncryptedVault) :=
  idb_request "Failed to retrieve vault" (fun w => (db_vaults w !! id, w)).

(** [store.getAll()] yields the records in the order of their keys. *)
Definition records_by_key (m : gmap string EncryptedVault) : list EncryptedVault :=
  (merge_sort (fun a b : string * EncryptedVault => Is_true (String.leb a.1 b.1))
     (map_to_list m)).*2.

Definition getAllVaults : M (list EncryptedVault) :=
  idb_request "Failed to retrieve vaults"
    (fun w => (records_by_key (db_vaults w), w)).

Definition deleteVault (id : string) : M unit :=
  idb_request "Failed to delete vault" (fun w => (tt, with_vaults (delete id) w)).

(** [put({ id: 'app-settings', ...settings })], with [settings] at its
    declared type [AppSettings]: it has no [id] member for the spread to
    put in the place of the key. *)
Definition saveSettings (s : AppSettings) : M unit :=
  idb_request "Failed to save settings"
    (fun w => (tt, with_settings (insert "app-settings" s) w)).

Definition getSettings : M (option AppSettings) :=
  idb_request "Failed to retrieve settings"
    (fun w => (db_settings w !! "app-settings", w)).

(** [for (const vault of data.vaults) await saveVault(vault)] *)
Fixpoint saveVaults (records : list EncryptedVault) : M unit :=
  match records with
  | [] => ret tt
  | vault :: rest => saveVault vault ;; saveVaults rest
  end.

Definition falsy (v : VaultsMember) : bool :=
  match v with VaultsUndefined | VaultsFalsy => true | _ => false end.

Definition Array_isArray (v : VaultsMember) : bool :=
  match v with VaultsArray _ => true | _ => false end.

Definition array_items (v : VaultsMember) : list EncryptedVault :=
  match v with VaultsArray l => l | _ => [] end.

Section WithPlatform.
Context `{P : Platform}.

Definition importData (jsonData : string) : M unit :=
  data <- of_option (JSON_parse_backup jsonData) SyntaxError ;;
  match data with
  | BackupNull => throw TypeError                  (* data.vaults on null *)
  | BackupValue vaults settings =>
      if falsy vaults || negb (Array_isArray vaults)
      then throw (Err "Invalid backup format")
      else
        saveVaults (array_items vaults) ;;
        match settings with
        | Some s => saveSettings s
        | None => ret tt
        end
  end.

(** ** lib/crypto.ts *)

Definition TextEncoder_encode (s : string) : list byte := String.list_byte_of_string s.
Definition TextDecoder_decode (b : list byte) : string := String.string_of_list_byte b.

Definition pbkdf2_iterations : N := 100000.

Definition generateKeyFromPassword (password : string) (salt : option (list byte))
    : M (CryptoKey * list byte) :=
  salt <- match salt with
          | Some s => ret s
          | None => getRandomValues 16
          end ;;
  ret (pbkdf2_deriveKey (TextEncoder_encode password) salt pbkdf2_iterations, salt).

Definition encrypt (key : CryptoKey) (data : VaultData) : M (list byte * list byte) :=
  iv <- getRandomValues 12 ;;
  let encodedData := TextEncoder_encode (JSON_stringify data) in
  ret (aes_gcm_encrypt key iv encodedData, iv).

Definition decrypt (key : CryptoKey) (encryptedData iv : list byte) : M VaultData :=
  decryptedBuffer <- of_option (aes_gcm_decrypt key iv encryptedData) OperationError ;;
  let decryptedText := TextDecoder_decode decryptedBuffer in
  of_option (JSON_parse decryptedText) SyntaxError.

Definition uppercaseChars := "ABCDEFGHIJKLMNOPQRSTUVWXYZ".
Definition lowercaseChars := "abcdefghijklmnopqrstuvwxyz".
Definition numberChars := "0123456789".
Definition symbolChars := "!@#$%^&*()_-+=<>?".

Definition charset (options : PasswordGenerationOptions) : string :=
  (if uppercase options then uppercaseChars else "") +:+
  (if lowercase options then lowercaseChars else "") +:+
  (if numbers options then numberChars else "") +:+
  (if symbols options then symbolChars else "").

(** [chars[b % chars.length]], appended to a string *)
Definition pick (chars : string) (b : byte) : string :=
  match String.get (Byte.to_nat b `mod` String.length chars)%nat chars with
  | Some c => String c ""
  | None => "undefined"
  end.

Definition generatePassword (length : nat) (options : PasswordGenerationOptions)
    : M string :=
  let chars := charset options in
  if decide (String.length chars = 0%nat)
  then throw (Err "At least one character type must be selected")
  else
    randomArray <- getRandomValues length ;;
    ret (foldl (fun password b => password +:+ pick chars b) "" randomArray).

Definition arrayBufferToBase64 (buffer : list byte) : string := encodeBase64 buffer.
Definition base64ToArrayBuffer (base64 : string) : M (list byte) :=
  of_option (decodeBase64 base64) InvalidCharacterError.

(** ** lib/vault.ts *)

Definition defaultVaultData : VaultData :=
  {| credentials := [];
     settings := Some {| autoLockTimeout := Some 15;   (* Default: 15 minutes *)
                         categories := Some ["Login"; "Financial"; "Personal"; "Work"];
                         defaultCategory := Some "Login" |} |}.

Definition metadata (ev : EncryptedVault) : Vault :=
  {| vault_id := ev_id ev;
     vault_name := ev_name ev;
     vault_createdAt := ev_createdAt ev;
     vault_lastAccessed := ev_lastAccessed ev;
     vault_lastModified := ev_lastModified ev |}.

(** [{ ...encryptedVault, lastAccessed }] *)
Definition touch (ev : EncryptedVault) (lastAccessed : Z) : EncryptedVault :=
  {| ev_id := ev_id ev;
     ev_name := ev_name ev;
     ev_encryptedData := ev_encryptedData ev;
     ev_iv := ev_iv ev;
     ev_salt := ev_salt ev;
     ev_createdAt := ev_createdAt ev;
     ev_lastAccessed := lastAccessed;
     ev_lastModified := ev_lastModified ev |}.

Definition createVault (name masterPassword : string) : M string :=
  id <- randomUUID ;;
  let vaultData := defaultVaultData in
  ks <- generateKeyFromPassword masterPassword None ;;
  let '(key, salt) := ks in
  ei <- encrypt key vaultData ;;
  let '(encryptedData, iv) := ei in
  now <- Date_now ;;
  let encryptedVault :=
    {| ev_id := id;
       ev_name := name;
       ev_encryptedData := arrayBufferToBase64 encryptedData;
       ev_iv := arrayBufferToBase64 iv;
       ev_salt := arrayBufferToBase64 salt;
       ev_createdAt := now;
       ev_lastAccessed := now;
       ev_lastModified := now |} in
  saveVault encryptedVault ;;
  ret id.

Definition openVault (id masterPassword : string) : M (Vault * VaultData) :=
  encryptedVault <- getVault id ;;
  match encryptedVault with
  | None => throw (Err "Vault not found")
  | Some encryptedVault =>
      try_catch
        (encryptedData <- base64ToArrayBuffer (ev_encryptedData encryptedVault) ;;
         iv <- base64ToArrayBuffer (ev_iv encryptedVault) ;;
         salt <- base64ToArrayBuffer (ev_salt encryptedVault) ;;
         ks <- generateKeyFromPassword masterPassword (Some salt) ;;
         vaultData <- decrypt (fst ks) encryptedData iv ;;
         lastAccessed <- Date_now ;;
         let vault :=
           {| vault_id := ev_id encryptedVault;
              vault_name := ev_name encryptedVault;
              vault_createdAt := ev_createdAt encryptedVault;
              vault_lastAccessed := lastAccessed;
              vault_lastModified := ev_lastModified encryptedVault |} in
         saveVault (touch encryptedVault (vault_lastAccessed vault)) ;;
         ret (vault, vaultData))
        (fun _ => throw (Err "Incorrect master password or corrupted data"))
  end.

(** [newName || encryptedVault.name]: an absent or empty name keeps the old one *)
Definition or_name (newName : option string) (name : string) : string :=
  match newName with
  | Some n => if decide (n = "") then name else n
  | None => name
  end.

Definition updateVault (id masterPassword : string) (data : VaultData)
    (newName : option string) : M Vault :=
  encryptedVault <- getVault id ;;
  match encryptedVault with
  | None => throw (Err "Vault not found")
  | Some encryptedVault =>
      try_catch
        (salt <- base64ToArrayBuffer (ev_salt encryptedVault) ;;
         ks <- generateKeyFromPassword masterPassword (Some salt) ;;
         ei <- encrypt (fst ks) data ;;
         let '(encryptedData, iv) := ei in
         now <- Date_now ;;
         let updatedVault :=
           {| ev_id := ev_id encryptedVault;
              ev_name := or_name newName (ev_name encryptedVault);
              ev_encryptedData := arrayBufferToBase64 encryptedData;
              ev_iv := arrayBufferToBase64 iv;
              ev_salt := ev_salt encryptedVault;
              ev_createdAt := ev_createdAt encryptedVault;
              ev_lastAccessed := now;
              ev_lastModified := now |} in
         saveVault updatedVault ;;
         ret (metadata updatedVault))
        (fun _ => throw (Err "Failed to update vault"))
  end.

Definition getVaults : M (list Vault) :=
  encryptedVaults <- getAllVaults ;;
  ret (metadata <$> encryptedVaults).

Definition removeVault (id : string) : M unit := deleteVault id.

Definition changeMasterPassword (id currentPassword newPassword : string) : M unit :=
  opened <- openVault id currentPassword ;;
  let data := snd opened in
  ks <- generateKeyFromPassword newPassword None ;;
  let '(key, salt) := ks in
  ei <- encrypt key data ;;
  let '(encryptedData, iv) := ei in
  existingVault <- getVault id ;;
  match existingVault with
  | None => throw (Err "Vault not found")
  | Some existingVault =>
      now <- Date_now ;;
      let updatedVault :=
        {| ev_id := ev_id existingVault;
           ev_name := ev_name existingVault;
           ev_encryptedData := arrayBufferToBase64 encryptedData;
           ev_iv := arrayBufferToBase64 iv;
           ev_salt := arrayBufferToBase64 salt;
           ev_createdAt := ev_createdAt existingVault;
           ev_lastAccessed := now;
           ev_lastModified := now |} in
      saveVault updatedVault
  end.

Definition with_credentials (data : VaultData) (cs : list Credential) : VaultData :=
  {| credentials := cs; settings := settings data |}.

Definition addCredential (vaultId masterPassword : string) (credential : NewCredential)
    : M Credential :=
  opened <- openVault vaultId masterPassword ;;
  let data := snd opened in
  now <- Date_now ;;
  id <- randomUUID ;;
  let newCredential :=
    {| cred_id := id;
       cred_title := new_title credential;
       cred_username := new_username credential;
       cred_password := new_password credential;
       cred_url := new_url credential;
       cred_notes := new_notes credential;
       cred_category := new_category credential;
       cred_tags := new_tags credential;
       cred_lastModified := now;
       cred_createdAt := now |} in
  (* data.credentials.push(newCredential) *)
  let data := with_credentials data (credentials data ++ [newCredential]) in
  updateVault vaultId masterPassword data None ;;
  ret newCredential.

(** An optional member of [{ ...old, ...updates }]: a member the update
    holds wins, also when its value is [undefined], which erases the old
    one ([JSON.stringify] leaves out a member whose value is [undefined]). *)
Definition spread {A} (old : option A) (new : Member A) : option A :=
  match new with
  | Absent => old
  | Undefined => None
  | Present x => Some x
  end.

(** [{ ...credential, ...updates, lastModified }] *)
Definition apply_updates (c : Credential) (u : CredentialUpdates) (lastModified : Z)
    : Credential :=
  {| cred_id := cred_id c;
     cred_title := default (cred_title c) (upd_title u);
     cred_username := default (cred_username c) (upd_username u);
     cred_password := default (cred_password c) (upd_password u);
     cred_url := spread (cred_url c) (upd_url u);
     cred_notes := spread (cred_notes c) (upd_notes u);
     cred_category := spread (cred_category c) (upd_category u);
     cred_tags := spread (cred_tags c) (upd_tags u);
     cred_lastModified := lastModified;
     cred_createdAt := cred_createdAt c |}.

Definition updateCredential (vaultId masterPassword credentialId : string)
    (updates : CredentialUpdates) : M Credential :=
  opened <- openVault vaultId masterPassword ;;
  let data := snd opened in
  match list_find (fun c => cred_id c = credentialId) (credentials data) with
  | None => throw (Err "Credential not found")
  | Some (index, found) =>
      lastModified <- Date_now ;;
      let updatedCredential := apply_updates found updates lastModified in
      let data := with_credentials data (<[index := updatedCredential]> (credentials data)) in
      updateVault vaultId masterPassword data None ;;
      ret updatedCredential
  end.

Definition deleteCredential (vaultId masterPassword credentialId : string) : M unit :=
  opened <- openVault vaultId masterPassword ;;
  let data := snd opened in
  let data :=
    with_credentials data (filter (fun c => cred_id c ≠ credentialId) (credentials data)) in
  updateVault vaultId masterPassword data None ;;
  ret tt.

(** [{ ...data.settings, ...settings }] *)
Definition merge_settings (old new : option VaultSettings) : VaultSettings :=
  let member {A} (f : VaultSettings → option A) : option A :=
    match new ≫= f with
    | Some x => Some x
    | None => old ≫= f
    end in
  {| autoLockTimeout := member autoLockTimeout;
     categories := member categories;
     defaultCategory := member defaultCategory |}.

Definition updateVaultSettings (vaultId masterPassword : string)
    (newSettings : option VaultSettings) : M unit :=
  opened <- openVault vaultId masterPassword ;;
  let data := snd opened in
  let data :=
    {| credentials := credentials data;
       settings := Some (merge_settings (settings data) newSettings) |} in
  updateVault vaultId masterPassword data None ;;
  ret tt.

(** ** lib/context.tsx: the provider's password rotation *)

Record AppState := mkAppState {
  currentVault : option Vault;
  vaultData : option VaultData;
  masterPassword : option string;
  isLoading : bool;
  error : option string;
}.

Definition setIsLoading (b : bool) (st : AppState) : AppState :=
  mkAppState (currentVault st) (vaultData st) (masterPassword st) b (error st).
Definition setError (e : option string) (st : AppState) : AppState :=
  mkAppState (currentVault st) (vaultData st) (masterPassword st) (isLoading st) e.
Definition setMasterPassword (p : option string) (st : AppState) : AppState :=
  mkAppState (currentVault st) (vaultData st) p (isLoading st) (error st).

(** [encrypt] and [updateVault] by the text that [JSON.stringify] makes of
    their [data] argument: the same code, for a caller that passes a value
    outside [VaultData]. *)
Definition encrypt_text (key : CryptoKey) (text : string) : M (list byte * list byte) :=
  iv <- getRandomValues 12 ;;
  let encodedData := TextEncoder_encode text in
  ret (aes_gcm_encrypt key iv encodedData, iv).

Definition updateVault_text (id masterPassword : string) (text : string)
    (newName : option string) : M Vault :=
  encryptedVault <- getVault id ;;
  match encryptedVault with
  | None => throw (Err "Vault not found")
  | Some encryptedVault =>
      try_catch
        (salt <- base64ToArrayBuffer (ev_salt encryptedVault) ;;
         ks <- generateKeyFromPassword masterPassword (Some salt) ;;
         ei <- encrypt_text (fst ks) text ;;
         let '(encryptedData, iv) := ei in
         now <- Date_now ;;
         let updatedVault :=
           {| ev_id := ev_id encryptedVault;
              ev_name := or_name newName (ev_name encryptedVault);
              ev_encryptedData := arrayBufferToBase64 encryptedData;
              ev_iv := arrayBufferToBase64 iv;
              ev_salt := ev_salt encryptedVault;
              ev_createdAt := ev_createdAt encryptedVault;
              ev_lastAccessed := now;
              ev_lastModified := now |} in
         saveVault updatedVault ;;
         ret (metadata updatedVault))
        (fun _ => throw (Err "Failed to update vault"))
  end.

(** The provider's [changeMasterPassword(currentPassword, newPassword)]; the
    result carries the component state next to the world. The assertion
    [vaultData!] is erased at run time: with a vault open and no data, as
    after [lockVault], [updateVault] is called with [null], and
    [JSON.stringify(null)] is the text [null]. *)
Definition provider_changeMasterPassword (st : AppState)
    (currentPassword newPassword : string) (w : World)
    : Outcome unit * AppState * World :=
  let st := setError None (setIsLoading true st) in
  let failed (e : Error) (w : World) :=
    (Throw e, setIsLoading false (setError (Some "Failed to change master password") st), w) in
  let updated (run : Outcome Vault * World) :=
    match run with
    | (Ok _, w') =>
        (Ok tt, setIsLoading false (setMasterPassword (Some newPassword) st), w')
    | (Throw e, w') => failed e w'
    end in
  match currentVault st, vaultData st with
  | None, _ => failed (Err "No vault is open") w
  | Some vault, None =>
      updated (updateVault_text (vault_id vault) currentPassword "null" None w)
  | Some vault, Some data =>
      updated (updateVault (vault_id vault) currentPassword data None w)
  end.

End WithPlatform.

(** ** Reading a stored record without running the service

    What [openVault] computes between loading the record and stamping it:
    the three base64 members decoded, the key derived from the stored salt,
    the ciphertext decrypted and parsed. *)

Section Unseal.
Context `{P : Platform}.

Definition key_of (password : string) (salt : list byte) : CryptoKey :=
  pbkdf2_deriveKey (TextEncoder_encode password) salt pbkdf2_iterations.

Definition seal (key : CryptoKey) (iv : list byte) (data : VaultData) : list byte :=
  aes_gcm_encrypt key iv (TextEncoder_encode (JSON_stringify data)).

Definition unseal (ev : EncryptedVault) (password : string) : option VaultData :=
  encryptedData ← decodeBase64 (ev_encryptedData ev);
  iv ← decodeBase64 (ev_iv ev);
  salt ← decodeBase64 (ev_salt ev);
  decryptedBuffer ← aes_gcm_decrypt (key_of password salt) iv encryptedData;
  JSON_parse (TextDecoder_decode decryptedBuffer).

(** The record holds [data] encrypted under [password], with this salt and iv. *)
Definition sealed_with (ev : EncryptedVault) (password : string)
    (salt iv : list byte) (data : VaultData) : Prop :=
  decodeBase64 (ev_salt ev) = Some salt ∧
  ev_iv ev = encodeBase64 iv ∧
  ev_encryptedData ev = encodeBase64 (seal (key_of password salt) iv data).

(** [n] calls of [addCredential] in a row *)
Fixpoint addCredentials (vaultId masterPassword : string) (inputs : list NewCredential)
    : M (list Credential) :=
  match inputs with
  | [] => ret []
  | credential :: rest =>
      added <- addCredential vaultId masterPassword credential ;;
      more <- addCredentials vaultId masterPassword rest ;;
      ret (added :: more)
  end.

End Unseal.

(** ** Properties of a world *)

(** The store keeps every record under its own [id] (the key path). *)
Definition keyed_by_id (w : World) : Prop :=
  ∀ k ev, db_vaults w !! k = Some ev → ev_id ev = k.

(** Every IndexedDB request is served. *)
Definition healthy (w : World) : Prop :=
  ∀ n, fault_at (oracle w) n = None.

(** The stores of [w'] are those of [w], except that the record [id] may carry
    a new [lastAccessed] stamp. *)
Definition same_but_touched (id : string) (w w' : World) : Prop :=
  db_settings w' = db_settings w ∧
  (db_vaults w' = db_vaults w ∨
   ∃ ev t, db_vaults w !! id = Some ev ∧ db_vaults w' = <[id := touch ev t]> (db_vaults w)).

(** ** Vocabulary of the statements *)

Section Vocabulary.
Context `{P : Platform}.

(** The next [n] bytes [crypto.getRandomValues] will yield. *)
Definition fresh_bytes (n : nat) (w : World) : list byte :=
  random_byte (oracle w) <$> seq (rng_pos w) n.

Definition wrong_password_or_corrupt : Error :=
  Err "Incorrect master password or corrupted data".

Definition update_failed : Error := Err "Failed to update vault".

Definition invalid_backup : Error := Err "Invalid backup format".

(** The record [openVault] writes back, and the world it leaves. *)
Definition opened_world (ev : EncryptedVault) (w : World) : World :=
  with_vaults (insert (ev_id ev) (touch ev (time_at (oracle w) (clock_pos w))))
    (advance_io (advance_clock (advance_io w))).

Definition opened_vault (ev : EncryptedVault) (w : World) : Vault :=
  {| vault_id := ev_id ev;
     vault_name := ev_name ev;
     vault_createdAt := ev_createdAt ev;
     vault_lastAccessed := time_at (oracle w) (clock_pos w);
     vault_lastModified := ev_lastModified ev |}.

(** The record [updateVault] writes, from the world it was called in. *)
Definition updated_record (ev : EncryptedVault) (password : string) (data : VaultData)
    (newName : option string) (salt : list byte) (w : World) : EncryptedVault :=
  {| ev_id := ev_id ev;
     ev_name := or_name newName (ev_name ev);
     ev_encryptedData :=
       encodeBase64 (seal (key_of password salt) (fresh_bytes 12 w) data);
     ev_iv := encodeBase64 (fresh_bytes 12 w);
     ev_salt := ev_salt ev;
     ev_createdAt := ev_createdAt ev;
     ev_lastAccessed := time_at (oracle w) (clock_pos w);
     ev_lastModified := time_at (oracle w) (clock_pos w) |}.

(** The record [createVault] writes, from the world it was called in. *)
Definition created_record (name password : string) (w : World) : EncryptedVault :=
  let salt := fresh_bytes 16 w in
  let iv := fresh_bytes 12 (advance_rng 16 w) in
  let now := time_at (oracle w) (clock_pos w) in
  {| ev_id := uuid_at (oracle w) (uuid_pos w);
     ev_name := name;
     ev_encryptedData := encodeBase64 (seal (key_of password salt) iv defaultVaultData);
     ev_iv := encodeBase64 iv;
     ev_salt := encodeBase64 salt;
     ev_createdAt := now;
     ev_lastAccessed := now;
     ev_lastModified := now |}.

Definition created_world (name password : string) (w : World) : World :=
  with_vaults (insert (uuid_at (oracle w) (uuid_pos w)) (created_record name password w))
    (advance_io (advance_clock (advance_rng 12 (advance_rng 16 (advance_uuid w))))).

(** The record the service's [changeMasterPassword] writes. *)
Definition rotated_record (ev : EncryptedVault) (newPassword : string)
    (data : VaultData) (w : World) : EncryptedVault :=
  let salt := fresh_bytes 16 w in
  let iv := fresh_bytes 12 (advance_rng 16 w) in
  {| ev_id := ev_id ev;
     ev_name := ev_name ev;
     ev_encryptedData := encodeBase64 (seal (key_of newPassword salt) iv data);
     ev_iv := encodeBase64 iv;
     ev_salt := encodeBase64 salt;
     ev_createdAt := ev_createdAt ev;
     ev_lastAccessed := time_at (oracle w) (S (clock_pos w));
     ev_lastModified := time_at (oracle w) (S (clock_pos w)) |}.

(** [{ ...credential, id, createdAt: now, lastModified: now }] *)
Definition new_credential (credential : NewCredential) (id : string) (now : Z)
    : Credential :=
  {| cred_id := id;
     cred_title := new_title credential;
     cred_username := new_username credential;
     cred_password := new_password credential;
     cred_url := new_url credential;
     cred_notes := new_notes credential;
     cred_category := new_category credential;
     cred_tags := new_tags credential;
     cred_lastModified := now;
     cred_createdAt := now |}.

(** The credential is the input plus an id and two stamps. *)
Definition built_from (c : Credential) (credential : NewCredential) : Prop :=
  ∃ id now, c = new_credential credential id now.

(** Why a stored record may fail to open. *)
Inductive DecryptionFailure (ev : EncryptedVault) (password : string)
    : Prop :=
| corrupt_ciphertext_text :
    decodeBase64 (ev_encryptedData ev) = None → DecryptionFailure ev password
| corrupt_iv_text :
    decodeBase64 (ev_iv ev) = None → DecryptionFailure ev password
| corrupt_salt_text :
    decodeBase64 (ev_salt ev) = None → DecryptionFailure ev password
| tag_check_failed encryptedData iv salt :
    decodeBase64 (ev_encryptedData ev) = Some encryptedData →
    decodeBase64 (ev_iv ev) = Some iv →
    decodeBase64 (ev_salt ev) = Some salt →
    aes_gcm_decrypt (key_of password salt) iv encryptedData = None →
    DecryptionFailure ev password
| corrupt_plaintext encryptedData iv salt buffer :
    decodeBase64 (ev_encryptedData ev) = Some encryptedData →
    decodeBase64 (ev_iv ev) = Some iv →
    decodeBase64 (ev_salt ev) = Some salt →
    aes_gcm_decrypt (key_of password salt) iv encryptedData = Some buffer →
    JSON_parse (TextDecoder_decode buffer) = None →
    DecryptionFailure ev password.

Definition any_selected (options : PasswordGenerationOptions) : bool :=
  uppercase options || lowercase options || numbers options || symbols options.

Definition stores_eq (w w' : World) : Prop :=
  db_vaults w' = db_vaults w ∧ db_settings w' = db_settings w.

(** [m] never writes to the stores. *)
Definition quiet {A} (m : M A) : Prop :=
  ∀ w o w', m w = (o, w') → stores_eq w w'.

(** [m] leaves the stores alone whenever it fails. *)
Definition clean {A} (m : M A) : Prop :=
  ∀ w e w', m w = (Throw e, w') → stores_eq w w'.

End Vocabulary.

Abbreviation chars_of := String.list_ascii_of_string.

(** ** lib/storage.ts: export *)

(** [JSON.stringify] of the object [exportData] builds, and
    [Date.prototype.toISOString]. *)
Class ExportPlatform := {
  JSON_stringify_backup :
    list EncryptedVault → option AppSettings → string → N → string;
  Date_toISOString : Z → string;
}.

(** What [JSON.parse] makes of an exported text: an object whose [vaults]
    member is the array of records and whose [settings] member is the
    settings object, or null. *)
Class ExportLaws (P : Platform) (E : ExportPlatform) : Prop := {
  backup_round_trip records backup_settings exportDate version :
    JSON_parse_backup (JSON_stringify_backup records backup_settings exportDate version) =
      Some (BackupValue (VaultsArray records) backup_settings);
}.

Definition DB_VERSION : N := 1.

Definition exportData `{E : ExportPlatform} : M string :=
  vaults <- getAllVaults ;;
  settings <- getSettings ;;
  now <- Date_now ;;
  ret (JSON_stringify_backup vaults settings (Date_toISOString now) DB_VERSION).

(** ** lib/crypto.ts: checkPasswordStrength

    The password is given by its UTF-16 code units, which is what [length]
    and the four regular expressions look at. *)

Definition is_upper (c : N) : bool := (65 <=? c)%N && (c <=? 90)%N.     (* [A-Z] *)
Definition is_lower (c : N) : bool := (97 <=? c)%N && (c <=? 122)%N.    (* [a-z] *)
Definition is_digit (c : N) : bool := (48 <=? c)%N && (c <=? 57)%N.     (* [0-9] *)
Definition is_other (c : N) : bool :=                                   (* [^A-Za-z0-9] *)
  negb (is_upper c || is_lower c || is_digit c).

(** [/class/.test(password)] *)
Definition regexp_test (class : N → bool) (password : list N) : bool :=
  existsb class password.

Definition checkPasswordStrength (password : list N) : Z :=
  let score := 0 in
  (* Length check *)
  let score := if decide (8 ≤ length password)%nat then score + 1 else score in
  let score := if decide (12 ≤ length password)%nat then score + 1 else score in
  (* Complexity checks *)
  let score := if regexp_test is_upper password then score + 1 else score in
  let score := if regexp_test is_lower password then score + 1 else score in
  let score := if regexp_test is_digit password then score + 1 else score in
  let score := if regexp_test is_other password then score + 1 else score in
  (* Cap at 4 *)
  Z.min 4 score.

(** The code units of a string of ASCII characters. *)
Definition code_units (s : string) : list N := N_of_ascii <$> chars_of s.

(** The credential form's [handleGeneratePassword]: the password it puts in
    the form and the strength it displays. *)
Definition handleGeneratePassword : M (string * Z) :=
  password <- generatePassword 16 (mkOptions true true true true) ;;
  ret (password, checkPasswordStrength (code_units password)).

(** ** lib/context.tsx: the provider's credential and settings actions *)

Definition setVaultData (d : option VaultData) (st : AppState) : AppState :=
  mkAppState (currentVault st) d (masterPassword st) (isLoading st) (error st).

(** [if (!currentVault || !masterPassword || !vaultData) throw ...]: what the
    actions go on with. A null or empty master password is falsy. *)
Definition open_session (st : AppState) : option (Vault * string * VaultData) :=
  match currentVault st, masterPassword st, vaultData st with
  | Some vault, Some password, Some data =>
      if decide (password = "") then None else Some (vault, password, data)
  | _, _, _ => None
  end.

Definition setCurrentVault (v : option Vault) (st : AppState) : AppState :=
  mkAppState v (vaultData st) (masterPassword st) (isLoading st) (error st).

(** The component state with the lock flag. *)
Record ProviderState := mkProviderState {
  app : AppState;
  isLocked : bool;
}.

(** [lockVault()]: the data and the password are dropped, the vault's
    metadata stays. *)
Definition lockVault (ps : ProviderState) : ProviderState :=
  {| app := setMasterPassword None (setVaultData None (app ps));
     isLocked := true |}.

Section Provider.
Context `{P : Platform}.

(** The frame shared by the provider's actions: loading flag, guard, the
    service call, the local state update on success, the error message and
    the rethrow on failure. *)
Definition provider_action {A} (failure : string)
    (call : Vault → string → VaultData → M A)
    (update : VaultData → A → VaultData)
    (st : AppState) (w : World) : Outcome A * AppState * World :=
  let st := setError None (setIsLoading true st) in
  let failed (e : Error) (w : World) :=
    (Throw e, setIsLoading false (setError (Some failure) st), w) in
  match open_session st with
  | None => failed (Err "No vault is open") w
  | Some (vault, password, data) =>
      match call vault password data w with
      | (Ok a, w') => (Ok a, setIsLoading false (setVaultData (Some (update data a)) st), w')
      | (Throw e, w') => failed e w'
      end
  end.

Definition provider_addCredential (credential : NewCredential)
    : AppState → World → Outcome Credential * AppState * World :=
  provider_action "Failed to add credential"
    (λ vault password _, addCredential (vault_id vault) password credential)
    (λ data newCredential,
       with_credentials data (credentials data ++ [newCredential])).

Definition provider_updateCredential (id : string) (updates : CredentialUpdates)
    : AppState → World → Outcome Credential * AppState * World :=
  provider_action "Failed to update credential"
    (λ vault password _, updateCredential (vault_id vault) password id updates)
    (λ data updatedCredential,
       with_credentials data
         ((λ c, if decide (cred_id c = id) then updatedCredential else c)
            <$> credentials data)).

Definition provider_deleteCredential (id : string)
    : AppState → World → Outcome unit * AppState * World :=
  provider_action "Failed to delete credential"
    (λ vault password _, deleteCredential (vault_id vault) password id)
    (λ data _,
       with_credentials data (filter (λ c, cred_id c ≠ id) (credentials data))).

Definition provider_updateVaultSettings (newSettings : option VaultSettings)
    : AppState → World → Outcome unit * AppState * World :=
  provider_action "Failed to update vault settings"
    (λ vault password data,
       updateVaultSettings (vault_id vault) password
         (Some (merge_settings (settings data) newSettings)))
    (λ data _,
       {| credentials := credentials data;
          settings := Some (merge_settings (settings data) newSettings) |}).

(** [openExistingVault(id, password)]; the auto-lock timer is not part of
    the state modelled here. *)
Definition provider_openExistingVault (id password : string)
    (ps : ProviderState) (w : World) : Outcome unit * ProviderState * World :=
  let st := setError None (setIsLoading true (app ps)) in
  match openVault id password w with
  | (Ok (vault, data), w') =>
      (Ok tt,
       {| app := setIsLoading false
                   (setMasterPassword (Some password)
                      (setVaultData (Some data) (setCurrentVault (Some vault) st)));
          isLocked := false |},
       w')
  | (Throw e, w') =>
      (Throw e,
       {| app := setIsLoading false
                   (setError (Some "Failed to open vault. Incorrect password?") st);
          isLocked := isLocked ps |},
       w')
  end.

(** The provider's copy of the vault is what the stored record holds. *)
Definition in_sync (st : AppState) (w : World) (data : VaultData) : Prop :=
  ∃ vault password ev,
    currentVault st = Some vault ∧
    masterPassword st = Some password ∧ password ≠ "" ∧
    vaultData st = Some data ∧
    db_vaults w !! vault_id vault = Some ev ∧
    unseal ev password = Some data.

End Provider.

(** ** More vocabulary *)

(** [put] of each record in turn, as [importData] does. *)
Definition upsert_all (m : gmap string EncryptedVault) (records : list EncryptedVault)
    : gmap string EncryptedVault :=
  foldl (λ m vault, <[ev_id vault := vault]> m) m records.

(** [m] relates the world it starts in to the world it leaves by [R],
    whatever its outcome. *)
Definition respects {A} (R : World → World → Prop) (m : M A) : Prop :=
  ∀ w o w', m w = (o, w') → R w w'.

(** From [w] to [w'] the settings store is unchanged and, the vault store
    being keyed by id, it stays so and no record other than [id] changes. *)
Definition touches_only (id : string) (w w' : World) : Prop :=
  db_settings w' = db_settings w ∧
  (keyed_by_id w →
   keyed_by_id w' ∧ ∀ k, k ≠ id → db_vaults w' !! k = db_vaults w !! k).

(** ** A symbolic platform

    Keys are (password, salt) pairs, a ciphertext carries its
    key in front of the plaintext, base64 text is tagged, and JSON text is the
    bit string of a value's code. It satisfies [PlatformLaws] and computes. *)

Module Symbolic.

Fixpoint string_of_bits (p : positive) : string :=
  match p with
  | xH => ""
  | xO q => String "0"%char (string_of_bits q)
  | xI q => String "1"%char (string_of_bits q)
  end.

Fixpoint bits_of_string (s : string) : positive :=
  match s with
  | EmptyString => xH
  | String c rest =>
      if decide (c = "1"%char) then xI (bits_of_string rest) else xO (bits_of_string rest)
  end.

(** A length-prefixed block: as many [x01] as the block is long, then [x00]. *)
Definition frame (block : list byte) : list byte :=
  replicate (length block) x01 ++ x00 :: block.

Fixpoint unframe_from (n : nat) (l : list byte) : option (list byte * list byte) :=
  match l with
  | x01 :: rest => unframe_from (S n) rest
  | x00 :: rest =>
      if decide (n ≤ length rest)%nat then Some (take n rest, drop n rest) else None
  | _ => None
  end.

Definition unframe : list byte → option (list byte * list byte) := unframe_from 0.

Definition Key : Type := list byte * list byte.

Definition derive (password salt : list byte) (iterations : N) : Key := (password, salt).

Definition encrypt_with (k : Key) (iv pt : list byte) : list byte :=
  frame k.1 ++ frame k.2 ++ pt.

Definition decrypt_with (k : Key) (iv ct : list byte) : option (list byte) :=
  '(password, rest) ← unframe ct;
  '(salt, pt) ← unframe rest;
  if decide ((password, salt) = k) then Some pt else None.

Definition base64_tag : string := "b64:".

Definition encode64 (b : list byte) : string :=
  base64_tag +:+ String.string_of_list_byte b.

Definition decode64 (s : string) : option (list byte) :=
  match s with
  | String "b" (String "6" (String "4" (String ":" rest))) =>
      Some (String.list_byte_of_string rest)
  | _ => None
  end.

#[global] Instance byte_countable : Countable byte :=
  inj_countable Byte.to_N Byte.of_N Byte.of_to_N.

#[global] Instance Credential_countable : Countable Credential.
Proof.
  refine (inj_countable'
    (fun c => (cred_id c, cred_title c, cred_username c, cred_password c, cred_url c,
               cred_notes c, cred_category c, cred_tags c, cred_lastModified c,
               cred_createdAt c))
    (fun t => let '(a, b, c, d, e, f, g, h, i, j) := t in
              mkCredential a b c d e f g h i j) _).
  by intros [].
Defined.

#[global] Instance VaultSettings_countable : Countable VaultSettings.
Proof.
  refine (inj_countable'
    (fun s => (autoLockTimeout s, categories s, defaultCategory s))
    (fun t => let '(a, b, c) := t in mkVaultSettings a b c) _).
  by intros [].
Defined.

#[global] Instance VaultData_countable : Countable VaultData.
Proof.
  refine (inj_countable'
    (fun d => (credentials d, settings d))
    (fun t => let '(a, b) := t in mkVaultData a b) _).
  by intros [].
Defined.

#[global] Instance EncryptedVault_countable : Countable EncryptedVault.
Proof.
  refine (inj_countable'
    (fun v => (ev_id v, ev_name v, ev_encryptedData v, ev_iv v, ev_salt v,
               ev_createdAt v, ev_lastAccessed v, ev_lastModified v))
    (fun t => let '(a, b, c, d, e, f, g, h) := t in
              mkEncryptedVault a b c d e f g h) _).
  by intros [].
Defined.

#[global] Instance AppSettings_countable : Countable AppSettings.
Proof.
  refine (inj_countable'
    (fun s => (darkMode s, app_autoLockTimeout s, defaultVaultId s))
    (fun t => let '(a, b, c) := t in mkAppSettings a b c) _).
  by intros [].
Defined.

#[global] Instance VaultsMember_eq_dec : EqDecision VaultsMember.
Proof. solve_decision. Defined.
#[global] Instance ParsedBackup_eq_dec : EqDecision ParsedBackup.
Proof. solve_decision. Defined.

#[global] Instance VaultsMember_countable : Countable VaultsMember.
Proof.
  refine (inj_countable'
    (fun v => match v with
              | VaultsUndefined => inl 0%nat
              | VaultsFalsy => inl 1%nat
              | VaultsNotArray => inl 2%nat
              | VaultsArray l => inr l
              end)
    (fun t => match t with
              | inl 0%nat => VaultsUndefined
              | inl 1%nat => VaultsFalsy
              | inl _ => VaultsNotArray
              | inr l => VaultsArray l
              end) _).
  by intros [].
Defined.

#[global] Instance ParsedBackup_countable : Countable ParsedBackup.
Proof.
  refine (inj_countable'
    (fun b => match b with
              | BackupNull => None
              | BackupValue v s => Some (v, s)
              end)
    (fun t => match t with
              | None => BackupNull
              | Some (v, s) => BackupValue v s
              end) _).
  by intros [].
Defined.

Definition stringify (data : VaultData) : string := string_of_bits (encode data).
Definition parse (text : string) : option VaultData := decode (bits_of_string text).

Definition stringify_backup (b : ParsedBackup) : string := string_of_bits (encode b).
Definition parse_backup (text : string) : option ParsedBackup :=
  if decide (text = "null") then Some BackupNull
  else decode (bits_of_string text).

Definition platform : Platform :=
  {| CryptoKey := Key;
     pbkdf2_deriveKey := derive;
     aes_gcm_encrypt := encrypt_with;
     aes_gcm_decrypt := decrypt_with;
     encodeBase64 := encode64;
     decodeBase64 := decode64;
     JSON_stringify := stringify;
     JSON_parse := parse;
     JSON_parse_backup := parse_backup |}.

(** A world to run examples in: an empty database that serves every request,
    a clock that ticks, and sources of bytes and UUIDs that do not repeat
    early. *)
Definition oracle0 : Oracle :=
  {| random_byte := fun n => default x00 (Byte.of_nat (n `mod` 256));
     uuid_at := fun n => "uuid-" +:+ pretty n;
     time_at := fun n => 1700000000000 + Z.of_nat n;
     fault_at := fun _ => None |}.

Definition world0 : World := mkWorld ∅ ∅ oracle0 0 0 0 0.

(** [createVault("Personal", "hunter2")] has run: the vault is "uuid-0". *)
Definition world1 : World :=
  (createVault (P := platform) "Personal" "hunter2" world0).2.

(** Data with one credential, to write into that vault. *)
Definition one_credential : VaultData :=
  {| credentials :=
       [ {| cred_id := "c-1"; cred_title := "Email"; cred_username := "a@b.com";
            cred_password := "x"; cred_url := None; cred_notes := None;
            cred_category := None; cred_tags := None;
            cred_lastModified := 5; cred_createdAt := 5 |} ];
     settings := None |}.

(** [updateVault] called on the vault of [world1] with another password. *)
Definition world1_overwritten : World :=
  (updateVault (P := platform) "uuid-0" "hunter3" one_credential None world1).2.

(** The provider's state with that vault open. *)
Definition vault1 : Vault :=
  {| vault_id := "uuid-0"; vault_name := "Personal";
     vault_createdAt := 1700000000000;
     vault_lastAccessed := 1700000000001;
     vault_lastModified := 1700000000000 |}.

Definition session1 : AppState :=
  {| currentVault := Some vault1;
     vaultData := Some defaultVaultData;
     masterPassword := Some "hunter2";
     isLoading := false;
     error := None |}.

Definition only_uppercase : PasswordGenerationOptions := mkOptions true false false false.

Definition two_inputs : list NewCredential :=
  [ mkNewCredential "Email" "a@b.com" "x" None None None None;
    mkNewCredential "Bank" "a" "y" (Some "https://bank.example") None
      (Some "Financial") (Some ["money"]) ].

Definition no_updates : CredentialUpdates :=
  mkCredentialUpdates None None None Absent Absent Absent Absent None.

(** [updateCredential] called on it for a credential it does not hold. *)
Definition world1_after_failed_update : Outcome Credential * World :=
  updateCredential (P := platform) "uuid-0" "hunter2" "absent" no_updates world1.

(** [updateVault] called on it with its password and a new name. *)
Definition world1_renamed : World :=
  (updateVault (P := platform) "uuid-0" "hunter2" one_credential (Some "Renamed") world1).2.

(** The export side: the text of a backup is the bit string of the code of
    the value it parses to. *)
Definition export_platform : ExportPlatform :=
  {| JSON_stringify_backup := λ records backup_settings exportDate version,
       stringify_backup (BackupValue (VaultsArray records) backup_settings);
     Date_toISOString := pretty |}.

(** The record of the vault of [world1], and the record a second
    [createVault] would write. *)
Definition record1 : EncryptedVault :=
  created_record (P := platform) "Personal" "hunter2" world0.
Definition record2 : EncryptedVault :=
  created_record (P := platform) "Work" "hunter4" world1.

(** A backup holding both, and one holding the first. *)
Definition backup2 : string := stringify_backup (BackupValue (VaultsArray [record1; record2]) None).
Definition backup1 : string := stringify_backup (BackupValue (VaultsArray [record1]) None).

(** An empty database whose second request fails. *)
Definition oracle_second_fails : Oracle :=
  {| random_byte := random_byte oracle0;
     uuid_at := uuid_at oracle0;
     time_at := time_at oracle0;
     fault_at := fun n => if decide (n = 1%nat) then Some RequestFails else None |}.

Definition world_second_fails : World := mkWorld ∅ ∅ oracle_second_fails 0 0 0 0.

Definition dark : AppSettings := mkAppSettings true 15 None.
Definition light : AppSettings := mkAppSettings false 5 (Some "uuid-0").

(** The record [world1_overwritten] holds, and the provider's state with
    that vault open under the password it is now sealed with. *)
Definition record1_overwritten : EncryptedVault :=
  updated_record (P := platform) record1 "hunter3" one_credential None
    (fresh_bytes 16 world0) world1.

Definition session_overwritten : AppState :=
  {| currentVault := Some vault1;
     vaultData := Some one_credential;
     masterPassword := Some "hunter3";
     isLoading := false;
     error := None |}.

Definition email : Credential :=
  {| cred_id := "c-1"; cred_title := "Email"; cred_username := "a@b.com";
     cred_password := "x"; cred_url := None; cred_notes := None;
     cred_category := None; cred_tags := None;
     cred_lastModified := 5; cred_createdAt := 5 |}.

(** An update as the credential form sends it: every member but
    [lastModified] is present, and the tags are [undefined] when the field
    is left empty. *)
Definition form_update : CredentialUpdates :=
  mkCredentialUpdates (Some "Mail") (Some "a@b.com") (Some "y")
    (Present "https://mail.example") (Present "") (Present "Login") Undefined None.

Definition opened_session : ProviderState :=
  {| app := session1; isLocked := false |}.

Definition closed : ProviderState :=
  {| app := mkAppState None None None false None; isLocked := true |}.

Definition timeout_only : VaultSettings :=
  {| autoLockTimeout := Some 5; categories := None; defaultCategory := None |}.

End Symbolic.

(** * Verification *)

(** ** Running the primitives *)

Lemma bind_ok {A B} (m : M A) (k : A → M B) w a w' :
  m w = (Ok a, w') → bind m k w = k a w'.
Proof. unfold bind. by intros ->. Qed.

Lemma bind_throw {A B} (m : M A) (k : A → M B) w e w' :
  m w = (Throw e, w') → bind m k w = (Throw e, w').
Proof. unfold bind. by intros ->. Qed.

Lemma bind_inv_throw {A B} (m : M A) (k : A → M B) w e w' :
  bind m k w = (Throw e, w') →
  m w = (Throw e, w') ∨ ∃ a w1, m w = (Ok a, w1) ∧ k a w1 = (Throw e, w').
Proof.
  unfold bind. destruct (m w) as [[a|e1] w1] eqn:E; intros H.
  - right. eauto.
  - left. by simplify_eq.
Qed.

Lemma bind_inv_ok {A B} (m : M A) (k : A → M B) w b w' :
  bind m k w = (Ok b, w') → ∃ a w1, m w = (Ok a, w1) ∧ k a w1 = (Ok b, w').
Proof.
  unfold bind. destruct (m w) as [[a|e1] w1] eqn:E; intros H; [eauto | done].
Qed.

Lemma getRandomValues_ok n w :
  (N.of_nat n ≤ random_quota)%N →
  getRandomValues n w =
    (Ok (random_byte (oracle w) <$> seq (rng_pos w) n), advance_rng n w).
Proof. intros H. unfold getRandomValues. by rewrite decide_True. Qed.

Lemma getRandomValues_quota n w :
  (random_quota < N.of_nat n)%N →
  getRandomValues n w = (Throw QuotaExceededError, w).
Proof. intros H. unfold getRandomValues. rewrite decide_False; [done | lia]. Qed.

Lemma idb_request_served {A} failure (run : World → A * World) w :
  fault_at (oracle w) (io_pos w) = None →
  idb_request failure run w = (Ok (run (advance_io w)).1, (run (advance_io w)).2).
Proof. intros H. unfold idb_request. rewrite H. by destruct (run _). Qed.

Lemma idb_request_fault {A} failure (run : World → A * World) w f :
  fault_at (oracle w) (io_pos w) = Some f →
  ∃ e, idb_request failure run w = (Throw e, advance_io w) ∧
       (e = Err "Failed to open database" ∨ e = Err failure).
Proof.
  intros H. unfold idb_request. rewrite H. destruct f; eauto.
Qed.

Lemma saveVault_served vault w :
  fault_at (oracle w) (io_pos w) = None →
  saveVault vault w = (Ok tt, with_vaults (insert (ev_id vault) vault) (advance_io w)).
Proof. intros H. unfold saveVault. rewrite idb_request_served; [reflexivity | exact H]. Qed.

Lemma getVault_served id w :
  fault_at (oracle w) (io_pos w) = None →
  getVault id w = (Ok (db_vaults w !! id), advance_io w).
Proof. intros H. unfold getVault. rewrite idb_request_served; [reflexivity | exact H]. Qed.

Lemma saveSettings_served s w :
  fault_at (oracle w) (io_pos w) = None →
  saveSettings s w = (Ok tt, with_settings (insert "app-settings" s) (advance_io w)).
Proof. intros H. unfold saveSettings. rewrite idb_request_served; [reflexivity | exact H]. Qed.

(** A request, served or not, leaves what it does not write. *)
Lemma saveVault_throw vault w e w' :
  saveVault vault w = (Throw e, w') → w' = advance_io w.
Proof.
  unfold saveVault, idb_request.
  destruct (fault_at _ _) as [[]|]; intros H; by simplify_eq.
Qed.

Lemma getVault_throw id w e w' :
  getVault id w = (Throw e, w') →
  w' = advance_io w ∧ (e = Err "Failed to open database" ∨ e = Err "Failed to retrieve vault").
Proof.
  unfold getVault, idb_request.
  destruct (fault_at _ _) as [[]|]; intros H; simplify_eq; auto.
Qed.

Section Service.
Context `{P : Platform}.

Lemma openVault_served id password w :
  fault_at (oracle w) (io_pos w) = None →
  openVault id password w =
    match db_vaults w !! id with
    | None => (Throw (Err "Vault not found"), advance_io w)
    | Some ev =>
        match unseal ev password with
        | None => (Throw wrong_password_or_corrupt, advance_io w)
        | Some data =>
            match fault_at (oracle w) (S (io_pos w)) with
            | None => (Ok (opened_vault ev w, data), opened_world ev w)
            | Some _ =>
                (Throw wrong_password_or_corrupt, advance_io (advance_clock (advance_io w)))
            end
        end
    end.
Proof.
  intros Hio. unfold openVault.
  rewrite (bind_ok _ _ _ _ _ (getVault_served id w Hio)).
  destruct (db_vaults w !! id) as [ev|]; [|done].
  unfold wrong_password_or_corrupt, opened_vault, opened_world.
  unfold unseal, key_of, decrypt, generateKeyFromPassword, base64ToArrayBuffer,
    saveVault, idb_request, of_option, Date_now.
  unfold try_catch, bind, ret, throw.
  simpl.
  destruct (decodeBase64 (ev_encryptedData ev)) as [ct|]; simpl; [|done].
  destruct (decodeBase64 (ev_iv ev)) as [iv|]; simpl; [|done].
  destruct (decodeBase64 (ev_salt ev)) as [salt|]; simpl; [|done].
  destruct (aes_gcm_decrypt _ iv ct) as [pt|]; simpl; [|done].
  destruct (JSON_parse _) as [data|]; simpl; [|done].
  destruct (fault_at (oracle w) (S (io_pos w))) as [[]|]; done.
Qed.

Lemma generateKeyFromPassword_given password salt w :
  generateKeyFromPassword password (Some salt) w = (Ok (key_of password salt, salt), w).
Proof. reflexivity. Qed.

Lemma generateKeyFromPassword_fresh password w :
  generateKeyFromPassword password None w =
    (Ok (key_of password (fresh_bytes 16 w), fresh_bytes 16 w), advance_rng 16 w).
Proof.
  unfold generateKeyFromPassword.
  rewrite (bind_ok _ _ _ _ _ (getRandomValues_ok 16 w ltac:(by vm_compute))).
  reflexivity.
Qed.

Lemma encrypt_run key data w :
  encrypt key data w =
    (Ok (seal key (fresh_bytes 12 w) data, fresh_bytes 12 w), advance_rng 12 w).
Proof.
  unfold encrypt.
  rewrite (bind_ok _ _ _ _ _ (getRandomValues_ok 12 w ltac:(by vm_compute))).
  reflexivity.
Qed.

Lemma decrypt_run key encryptedData iv w :
  decrypt key encryptedData iv w =
    match aes_gcm_decrypt key iv encryptedData with
    | None => (Throw OperationError, w)
    | Some buffer =>
        match JSON_parse (TextDecoder_decode buffer) with
        | None => (Throw SyntaxError, w)
        | Some data => (Ok data, w)
        end
    end.
Proof.
  unfold decrypt, bind, of_option, ret, throw.
  destruct (aes_gcm_decrypt key iv encryptedData); [|done].
  by destruct (JSON_parse _).
Qed.

Lemma updateVault_served id password data newName w :
  fault_at (oracle w) (io_pos w) = None →
  updateVault id password data newName w =
    match db_vaults w !! id with
    | None => (Throw (Err "Vault not found"), advance_io w)
    | Some ev =>
        match decodeBase64 (ev_salt ev) with
        | None => (Throw update_failed, advance_io w)
        | Some salt =>
            let written := updated_record ev password data newName salt w in
            let w1 := advance_io (advance_clock (advance_rng 12 (advance_io w))) in
            match fault_at (oracle w) (S (io_pos w)) with
            | None => (Ok (metadata written), with_vaults (insert (ev_id ev) written) w1)
            | Some _ => (Throw update_failed, w1)
            end
        end
    end.
Proof.
  intros Hio. unfold updateVault, update_failed.
  rewrite (bind_ok _ _ _ _ _ (getVault_served id w Hio)).
  destruct (db_vaults w !! id) as [ev|]; [|done].
  unfold try_catch, base64ToArrayBuffer.
  destruct (decodeBase64 (ev_salt ev)) as [salt|]; [|done].
  rewrite (bind_ok _ _ _ _ _ (eq_refl : of_option (Some salt) _ _ = (Ok salt, _))).
  rewrite (bind_ok _ _ _ _ _ (generateKeyFromPassword_given _ _ _)).
  rewrite (bind_ok _ _ _ _ _ (encrypt_run _ _ _)).
  cbn [fst snd].
  rewrite (bind_ok _ _ _ _ _ (eq_refl : Date_now _ = (Ok _, _))).
  unfold saveVault, idb_request, bind, ret. simpl.
  destruct (fault_at (oracle w) (S (io_pos w))) as [[]|]; done.
Qed.

End Service.

(** ** What the laws give *)

Section Laws.
Context `{P : Platform} {L : PlatformLaws P}.

Lemma TextEncoder_encode_inj s s' :
  TextEncoder_encode s = TextEncoder_encode s' → s = s'.
Proof.
  unfold TextEncoder_encode. intros H.
  rewrite <- (String.string_of_list_byte_of_string s),
          <- (String.string_of_list_byte_of_string s').
  by rewrite H.
Qed.

Lemma TextDecoder_decode_encode s : TextDecoder_decode (TextEncoder_encode s) = s.
Proof. apply String.string_of_list_byte_of_string. Qed.

Lemma key_of_inj password password' salt :
  key_of password salt = key_of password' salt → password = password'.
Proof.
  unfold key_of. intros H.
  by apply TextEncoder_encode_inj, (pbkdf2_collision_free _ _ salt pbkdf2_iterations).
Qed.

Lemma unseal_sealed ev password salt iv data :
  sealed_with ev password salt iv data → unseal ev password = Some data.
Proof.
  intros (Hsalt & Hiv & Hdata). unfold unseal, seal in *.
  rewrite Hdata, Hiv, Hsalt, !base64_round_trip. simpl.
  rewrite aes_gcm_correct. simpl.
  by rewrite TextDecoder_decode_encode, JSON_round_trip.
Qed.

Lemma unseal_other_password ev password salt iv data password' :
  sealed_with ev password salt iv data → password' ≠ password →
  unseal ev password' = None.
Proof.
  intros (Hsalt & Hiv & Hdata) Hne. unfold unseal, seal in *.
  rewrite Hdata, Hiv, Hsalt, !base64_round_trip. simpl.
  rewrite aes_gcm_authentic; [done|].
  intros Hk. by apply key_of_inj in Hk.
Qed.

End Laws.

Lemma DecryptionFailure_unseal `{P : Platform} ev password :
  DecryptionFailure ev password ↔ unseal ev password = None.
Proof.
  unfold unseal. split.
  - intros [H|H|H|ct iv salt H1 H2 H3 H|ct iv salt buffer H1 H2 H3 H4 H].
    + by rewrite H.
    + rewrite H. by destruct (decodeBase64 (ev_encryptedData ev)).
    + rewrite H. destruct (decodeBase64 (ev_encryptedData ev)); [|done].
      by destruct (decodeBase64 (ev_iv ev)).
    + rewrite H1, H2, H3. simpl. by rewrite H.
    + rewrite H1, H2, H3. simpl. rewrite H4. simpl. by rewrite H.
  - destruct (decodeBase64 (ev_encryptedData ev)) as [ct|] eqn:H1;
      [|intros _; by apply corrupt_ciphertext_text].
    destruct (decodeBase64 (ev_iv ev)) as [iv|] eqn:H2;
      [|intros _; by apply corrupt_iv_text].
    destruct (decodeBase64 (ev_salt ev)) as [salt|] eqn:H3;
      [|intros _; by apply corrupt_salt_text].
    simpl.
    destruct (aes_gcm_decrypt (key_of password salt) iv ct) as [buffer|] eqn:H4;
      [|intros _; by eapply tag_check_failed].
    simpl. intros H. by eapply corrupt_plaintext.
Qed.

(** ** The symbolic platform satisfies the laws *)

Module SymbolicFacts.
Import Symbolic.

Lemma bits_of_string_of_bits p : bits_of_string (string_of_bits p) = p.
Proof. induction p as [q IH|q IH|]; simpl; by rewrite ?IH. Qed.

Lemma unframe_from_header m : ∀ n block rest,
  length block = (n + m)%nat →
  unframe_from n (replicate m x01 ++ x00 :: block ++ rest) = Some (block, rest).
Proof.
  induction m as [|m IH]; intros n block rest Hlen; simpl.
  - rewrite decide_True by (rewrite length_app; lia).
    rewrite Nat.add_0_r in Hlen. subst n.
    by rewrite take_app_length, drop_app_length.
  - apply IH. lia.
Qed.

Lemma unframe_frame block rest : unframe (frame block ++ rest) = Some (block, rest).
Proof.
  unfold unframe, frame. rewrite <- app_assoc. simpl.
  by apply unframe_from_header.
Qed.

Lemma decrypt_encrypt_with k iv pt : decrypt_with k iv (encrypt_with k iv pt) = Some pt.
Proof.
  unfold decrypt_with, encrypt_with. rewrite unframe_frame. simpl.
  rewrite unframe_frame. simpl. destruct k. by rewrite decide_True.
Qed.

Lemma decrypt_with_other_key k k' iv iv' pt :
  k ≠ k' → decrypt_with k' iv' (encrypt_with k iv pt) = None.
Proof.
  intros Hne. unfold decrypt_with, encrypt_with. rewrite unframe_frame. simpl.
  rewrite unframe_frame. simpl. destruct k. by rewrite decide_False.
Qed.

Lemma decode64_encode64 b : decode64 (encode64 b) = Some b.
Proof.
  change (decode64 (encode64 b))
    with (Some (String.list_byte_of_string (String.string_of_list_byte b))).
  by rewrite String.list_byte_of_string_of_list_byte.
Qed.

Lemma parse_stringify data : parse (stringify data) = Some data.
Proof.
  unfold parse, stringify. rewrite bits_of_string_of_bits. apply decode_encode.
Qed.

Lemma laws : PlatformLaws platform.
Proof.
  split; simpl.
  - apply decrypt_encrypt_with.
  - apply decrypt_with_other_key.
  - intros pw pw' salt n. unfold derive. congruence.
  - apply decode64_encode64.
  - apply parse_stringify.
Qed.

Lemma healthy_world0 : healthy world0.
Proof. intros n. reflexivity. Qed.

End SymbolicFacts.

(** ** openVault: failures *)

Section OpenVault.
Context `{P : Platform}.

Lemma openVault_throw_keeps_stores id password w e w' :
  openVault id password w = (Throw e, w') →
  db_vaults w' = db_vaults w ∧ db_settings w' = db_settings w.
Proof.
  destruct (fault_at (oracle w) (io_pos w)) as [f|] eqn:Hio.
  - unfold openVault. intros H.
    destruct (idb_request_fault "Failed to retrieve vault"
                (λ w, (db_vaults w !! id, w)) w f Hio) as (e1 & Hget & _).
    unfold getVault in H. rewrite (bind_throw _ _ _ _ _ Hget) in H.
    by simplify_eq.
  - rewrite openVault_served by done.
    destruct (db_vaults w !! id) as [ev|]; [|intros; by simplify_eq].
    destruct (unseal ev password); [|intros; by simplify_eq].
    destruct (fault_at (oracle w) (S (io_pos w))); intros; by simplify_eq.
Qed.

End OpenVault.

(** C1. When the store answers the read, [openVault] fails with "Vault not
    found" if no record has the id. If a record has it, every cause of a
    decryption failure (undecodable base64 text, a failed tag check, text
    that does not parse) and in particular every password other than the
    one the record was sealed with ends in the one error "Incorrect master
    password or corrupted data"; whenever [openVault] fails, that is the
    error, and both object stores are as they were. *)
Theorem openVault_fails_closed `{P : Platform} {L : PlatformLaws P}
    (id password : string) (w : World) :
  fault_at (oracle w) (io_pos w) = None →
  (db_vaults w !! id = None →
     ∃ w', openVault id password w = (Throw (Err "Vault not found"), w') ∧
           db_vaults w' = db_vaults w) ∧
  (∀ ev, db_vaults w !! id = Some ev →
     (DecryptionFailure ev password →
        ∃ w', openVault id password w = (Throw wrong_password_or_corrupt, w')) ∧
     (∀ owner salt iv data,
        sealed_with ev owner salt iv data → password ≠ owner →
        ∃ w', openVault id password w = (Throw wrong_password_or_corrupt, w')) ∧
     (∀ e w', openVault id password w = (Throw e, w') →
        e = wrong_password_or_corrupt ∧
        db_vaults w' = db_vaults w ∧ db_settings w' = db_settings w)).
Proof.
  intros Hio. split.
  - intros Hnone. rewrite openVault_served, Hnone by done. eauto.
  - intros ev Hev.
    assert (Hfail : unseal ev password = None →
      ∃ w', openVault id password w = (Throw wrong_password_or_corrupt, w')).
    { intros Hu. rewrite openVault_served, Hev, Hu by done. eauto. }
    split; [|split].
    + intros Hcause. by apply Hfail, DecryptionFailure_unseal.
    + intros owner salt iv data Hsealed Hne.
      eapply Hfail, unseal_other_password; eauto.
    + intros e w' Hrun. split; [|by eapply openVault_throw_keeps_stores].
      rewrite openVault_served, Hev in Hrun by done.
      destruct (unseal ev password); [|by simplify_eq].
      destruct (fault_at (oracle w) (S (io_pos w))); by simplify_eq.
Qed.

Section OpenVaultWitness.
Import Symbolic SymbolicFacts.
#[local] Existing Instance platform.
#[local] Existing Instance laws.

Lemma openVault_fails_closed_witness :
  fault_at (oracle world1) (io_pos world1) = None ∧
  (db_vaults world1 !! "uuid-0" = None →
     ∃ w', openVault "uuid-0" "hunter3" world1 = (Throw (Err "Vault not found"), w') ∧
           db_vaults w' = db_vaults world1) ∧
  (∀ ev, db_vaults world1 !! "uuid-0" = Some ev →
     (DecryptionFailure ev "hunter3" →
        ∃ w', openVault "uuid-0" "hunter3" world1 = (Throw wrong_password_or_corrupt, w')) ∧
     (∀ owner salt iv data,
        sealed_with ev owner salt iv data → "hunter3" ≠ owner →
        ∃ w', openVault "uuid-0" "hunter3" world1 = (Throw wrong_password_or_corrupt, w')) ∧
     (∀ e w', openVault "uuid-0" "hunter3" world1 = (Throw e, w') →
        e = wrong_password_or_corrupt ∧
        db_vaults w' = db_vaults world1 ∧ db_settings w' = db_settings world1)).
Proof.
  split; [by vm_compute|].
  apply (openVault_fails_closed "uuid-0" "hunter3" world1). by vm_compute.
Defined.

(** The vault of [world1] opens with its password and with no other. *)
Example world1_opens :
  (openVault "uuid-0" "hunter2" world1).1 =
    Ok ({| vault_id := "uuid-0"; vault_name := "Personal";
           vault_createdAt := 1700000000000;
           vault_lastAccessed := 1700000000001;
           vault_lastModified := 1700000000000 |}, defaultVaultData).
Proof. by vm_compute. Qed.

Example world1_rejects :
  (openVault "uuid-0" "hunter3" world1).1 = Throw wrong_password_or_corrupt ∧
  db_vaults (openVault "uuid-0" "hunter3" world1).2 = db_vaults world1.
Proof. by vm_compute. Qed.

End OpenVaultWitness.

(** ** updateVault *)

Section UpdateVault.
Context `{P : Platform}.

Lemma updateVault_throw id password data newName w e w' :
  updateVault id password data newName w = (Throw e, w') →
  (e = Err "Failed to open database" ∨ e = Err "Failed to retrieve vault" ∨
   e = Err "Vault not found" ∨ e = update_failed) ∧
  db_vaults w' = db_vaults w ∧ db_settings w' = db_settings w.
Proof.
  destruct (fault_at (oracle w) (io_pos w)) as [f|] eqn:Hio.
  - unfold updateVault. intros H.
    destruct (idb_request_fault "Failed to retrieve vault"
                (λ w, (db_vaults w !! id, w)) w f Hio) as (e1 & Hget & He1).
    unfold getVault in H. rewrite (bind_throw _ _ _ _ _ Hget) in H.
    injection H as <- <-. destruct He1 as [->| ->]; auto.
  - rewrite updateVault_served by done.
    destruct (db_vaults w !! id) as [ev|]; [|intros; simplify_eq; naive_solver].
    destruct (decodeBase64 (ev_salt ev)); [|intros; simplify_eq; naive_solver].
    simpl. destruct (fault_at (oracle w) (S (io_pos w)));
      intros; simplify_eq; naive_solver.
Qed.

Lemma updateVault_ok id password data newName w v w' :
  updateVault id password data newName w = (Ok v, w') →
  ∃ ev salt,
    db_vaults w !! id = Some ev ∧ decodeBase64 (ev_salt ev) = Some salt ∧
    v = metadata (updated_record ev password data newName salt w) ∧
    w' = with_vaults
           (insert (ev_id ev) (updated_record ev password data newName salt w))
           (advance_io (advance_clock (advance_rng 12 (advance_io w)))).
Proof.
  destruct (fault_at (oracle w) (io_pos w)) as [f|] eqn:Hio.
  - unfold updateVault. intros H.
    destruct (idb_request_fault "Failed to retrieve vault"
                (λ w, (db_vaults w !! id, w)) w f Hio) as (e1 & Hget & _).
    unfold getVault in H. by rewrite (bind_throw _ _ _ _ _ Hget) in H.
  - rewrite updateVault_served by done.
    destruct (db_vaults w !! id) as [ev|]; [|done].
    destruct (decodeBase64 (ev_salt ev)) as [salt|] eqn:Hsalt; [|done].
    simpl. destruct (fault_at (oracle w) (S (io_pos w))); [done|].
    intros; simplify_eq. by exists ev, salt.
Qed.

End UpdateVault.

(** C10. A successful [updateVault] on a store keyed by id leaves the
    record's [id], [createdAt] and [salt] as they were; every other record
    and the settings store are untouched. *)
Theorem updateVault_keeps_identity `{P : Platform}
    (id password : string) (data : VaultData) (newName : option string)
    (w w' : World) (ev : EncryptedVault) (v : Vault) :
  keyed_by_id w →
  db_vaults w !! id = Some ev →
  updateVault id password data newName w = (Ok v, w') →
  (∃ ev', db_vaults w' !! id = Some ev' ∧
          ev_id ev' = ev_id ev ∧
          ev_createdAt ev' = ev_createdAt ev ∧
          ev_salt ev' = ev_salt ev) ∧
  (∀ k, k ≠ id → db_vaults w' !! k = db_vaults w !! k) ∧
  db_settings w' = db_settings w.
Proof.
  intros Hkeys Hev Hrun.
  destruct (updateVault_ok _ _ _ _ _ _ _ Hrun) as (ev0 & salt & Hev0 & _ & _ & ->).
  assert (ev0 = ev) as -> by congruence.
  pose proof (Hkeys _ _ Hev) as Hid. simpl. split; [|split; [|done]].
  - exists (updated_record ev password data newName salt w).
    by rewrite Hid, lookup_insert_eq.
  - intros k Hk. rewrite Hid. by rewrite lookup_insert_ne.
Qed.

(** C2, amended. [updateVault] does not compare the password with the one
    the vault is sealed under: for every record whose salt decodes and every
    password, when the store serves the two requests it succeeds and writes
    the new data sealed under the key derived from that password and the
    stored salt. When it fails the error is one of the two storage read
    errors, "Vault not found" or "Failed to update vault", never the error
    of [openVault], and nothing is written; and each of these arises: "Vault
    not found" when the read is served and finds no record, "Failed to
    update vault" when the salt does not decode or the write is not served,
    a storage read error when the read is not served. *)
Theorem updateVault_trusts_password `{P : Platform}
    (id password : string) (data : VaultData) (newName : option string)
    (w : World) :
  (∀ ev salt,
     fault_at (oracle w) (io_pos w) = None →
     fault_at (oracle w) (S (io_pos w)) = None →
     db_vaults w !! id = Some ev →
     decodeBase64 (ev_salt ev) = Some salt →
     ∃ written w',
       updateVault id password data newName w = (Ok (metadata written), w') ∧
       db_vaults w' = <[ev_id ev := written]> (db_vaults w) ∧
       sealed_with written password salt (fresh_bytes 12 w) data) ∧
  (∀ e w', updateVault id password data newName w = (Throw e, w') →
     (e = Err "Failed to open database" ∨ e = Err "Failed to retrieve vault" ∨
      e = Err "Vault not found" ∨ e = Err "Failed to update vault") ∧
     e ≠ wrong_password_or_corrupt ∧
     db_vaults w' = db_vaults w ∧ db_settings w' = db_settings w) ∧
  (fault_at (oracle w) (io_pos w) = None → db_vaults w !! id = None →
     ∃ w', updateVault id password data newName w = (Throw (Err "Vault not found"), w')) ∧
  (∀ ev, fault_at (oracle w) (io_pos w) = None → db_vaults w !! id = Some ev →
     decodeBase64 (ev_salt ev) = None ∨ fault_at (oracle w) (S (io_pos w)) ≠ None →
     ∃ w', updateVault id password data newName w =
             (Throw (Err "Failed to update vault"), w')) ∧
  (∀ f, fault_at (oracle w) (io_pos w) = Some f →
     ∃ w', updateVault id password data newName w =
             (Throw (match f with
                     | OpenFails => Err "Failed to open database"
                     | RequestFails => Err "Failed to retrieve vault"
                     end), w')).
Proof.
  split_and!.
  - intros ev salt Hio Hio' Hev Hsalt.
    rewrite updateVault_served, Hev, Hsalt by done. simpl. rewrite Hio'.
    eexists _, _. split; [reflexivity|]. split; [reflexivity|].
    unfold sealed_with. simpl. by split_and!.
  - intros e w' Hrun.
    destruct (updateVault_throw _ _ _ _ _ _ _ Hrun) as (He & Hv & Hs).
    unfold wrong_password_or_corrupt, update_failed in *.
    split; [exact He|]. split; [|done].
    destruct He as [->|[->|[->| ->]]]; done.
  - intros Hio Hev. rewrite updateVault_served, Hev by done. eauto.
  - intros ev Hio Hev Hwhy. rewrite updateVault_served, Hev by done.
    unfold update_failed.
    destruct (decodeBase64 (ev_salt ev)) as [salt|]; [|eauto].
    simpl. destruct (fault_at (oracle w) (S (io_pos w))); [eauto|].
    by destruct Hwhy.
  - intros f Hio. exists (advance_io w).
    unfold updateVault, getVault.
    erewrite bind_throw; [reflexivity|].
    unfold idb_request. rewrite Hio. by destruct f.
Qed.

(** ** createVault *)

Section CreateVault.
Context `{P : Platform}.

Lemma createVault_served name password w :
  fault_at (oracle w) (io_pos w) = None →
  createVault name password w =
    (Ok (uuid_at (oracle w) (uuid_pos w)), created_world name password w).
Proof.
  intros Hio. unfold createVault.
  rewrite (bind_ok _ _ _ _ _ (eq_refl : randomUUID w = (Ok _, _))).
  rewrite (bind_ok _ _ _ _ _ (generateKeyFromPassword_fresh _ _)).
  rewrite (bind_ok _ _ _ _ _ (encrypt_run _ _ _)).
  rewrite (bind_ok _ _ _ _ _ (eq_refl : Date_now _ = (Ok _, _))).
  erewrite bind_ok; [|by apply saveVault_served].
  reflexivity.
Qed.

Lemma created_record_sealed `{!PlatformLaws P} name password w :
  sealed_with (created_record name password w) password
    (fresh_bytes 16 w) (fresh_bytes 12 (advance_rng 16 w)) defaultVaultData.
Proof. unfold sealed_with. simpl. by rewrite base64_round_trip. Qed.

End CreateVault.

(** ** The store stays keyed by id *)

Lemma keyed_by_id_insert w ev :
  keyed_by_id w → keyed_by_id (with_vaults (insert (ev_id ev) ev) w).
Proof.
  intros Hk k ev'. simpl. rewrite lookup_insert.
  case_decide; [naive_solver | apply Hk].
Qed.

Lemma keyed_by_id_same w w' :
  db_vaults w' = db_vaults w → keyed_by_id w → keyed_by_id w'.
Proof. unfold keyed_by_id. by intros ->. Qed.

Lemma keyed_by_id_created `{P : Platform} name password w :
  keyed_by_id w → keyed_by_id (created_world name password w).
Proof.
  intros Hk.
  apply (keyed_by_id_insert
           (advance_io (advance_clock (advance_rng 12 (advance_rng 16 (advance_uuid w)))))
           (created_record name password w)).
  by apply (keyed_by_id_same w).
Qed.

(** C7. In a world whose store serves every request, [createVault] returns
    the id drawn from [crypto.randomUUID] and leaves under it a record with
    the given name and the freshly drawn salt, which decrypts under the
    password to the default data: no credentials, categories Login,
    Financial, Personal, Work. [openVault] with the same password then
    returns exactly that data. *)
Theorem createVault_then_openVault `{P : Platform} {L : PlatformLaws P}
    (name password : string) (w : World) :
  healthy w →
  let id := uuid_at (oracle w) (uuid_pos w) in
  ∃ w1 ev,
    createVault name password w = (Ok id, w1) ∧
    db_vaults w1 !! id = Some ev ∧
    ev_id ev = id ∧ ev_name ev = name ∧
    ev_salt ev = encodeBase64 (fresh_bytes 16 w) ∧
    unseal ev password = Some defaultVaultData ∧
    credentials defaultVaultData = [] ∧
    settings defaultVaultData ≫= categories =
      Some ["Login"; "Financial"; "Personal"; "Work"] ∧
    ∃ vault w2, openVault id password w1 = (Ok (vault, defaultVaultData), w2).
Proof.
  intros Hw id.
  exists (created_world name password w), (created_record name password w).
  assert (Hu : unseal (created_record name password w) password = Some defaultVaultData)
    by (eapply unseal_sealed, created_record_sealed).
  assert (Hl : db_vaults (created_world name password w) !! id =
               Some (created_record name password w))
    by (simpl; apply lookup_insert_eq).
  split_and!; try done.
  - by apply createVault_served.
  - rewrite openVault_served by apply Hw.
    rewrite Hl, Hu. simpl. rewrite (Hw _). eauto.
Qed.

Section UpdateVaultExamples.
Import Symbolic SymbolicFacts.
#[local] Existing Instance platform.
#[local] Existing Instance laws.

Lemma keyed_by_id_world0 : keyed_by_id world0.
Proof. intros k ev H. simpl in H. by rewrite lookup_empty in H. Qed.

Lemma world1_created : world1 = created_world "Personal" "hunter2" world0.
Proof. unfold world1. by rewrite createVault_served. Qed.

Lemma keyed_by_id_world1 : keyed_by_id world1.
Proof. rewrite world1_created. apply keyed_by_id_created, keyed_by_id_world0. Qed.

Lemma healthy_world1 : healthy world1.
Proof. intros n. reflexivity. Qed.

Lemma createVault_then_openVault_witness :
  healthy world0 ∧
  let id := uuid_at (oracle world0) (uuid_pos world0) in
  ∃ w1 ev,
    createVault "Personal" "hunter2" world0 = (Ok id, w1) ∧
    db_vaults w1 !! id = Some ev ∧
    ev_id ev = id ∧ ev_name ev = "Personal" ∧
    ev_salt ev = encodeBase64 (fresh_bytes 16 world0) ∧
    unseal ev "hunter2" = Some defaultVaultData ∧
    credentials defaultVaultData = [] ∧
    settings defaultVaultData ≫= categories =
      Some ["Login"; "Financial"; "Personal"; "Work"] ∧
    ∃ vault w2, openVault id "hunter2" w1 = (Ok (vault, defaultVaultData), w2).
Proof.
  split; [exact healthy_world0|].
  exact (createVault_then_openVault "Personal" "hunter2" world0 healthy_world0).
Defined.

Lemma updateVault_keeps_identity_witness :
  keyed_by_id world1 ∧
  db_vaults world1 !! "uuid-0" = Some (created_record "Personal" "hunter2" world0) ∧
  updateVault "uuid-0" "hunter2" one_credential (Some "Renamed") world1 =
    (Ok {| vault_id := "uuid-0"; vault_name := "Renamed";
           vault_createdAt := 1700000000000;
           vault_lastAccessed := 1700000000001;
           vault_lastModified := 1700000000001 |}, world1_renamed) ∧
  (∃ ev', db_vaults world1_renamed !! "uuid-0" = Some ev' ∧
          ev_id ev' = ev_id (created_record "Personal" "hunter2" world0) ∧
          ev_createdAt ev' = ev_createdAt (created_record "Personal" "hunter2" world0) ∧
          ev_salt ev' = ev_salt (created_record "Personal" "hunter2" world0)) ∧
  (∀ k, k ≠ "uuid-0" → db_vaults world1_renamed !! k = db_vaults world1 !! k) ∧
  db_settings world1_renamed = db_settings world1.
Proof.
  assert (H1 : db_vaults world1 !! "uuid-0" =
               Some (created_record "Personal" "hunter2" world0))
    by (vm_compute; reflexivity).
  assert (H2 : updateVault "uuid-0" "hunter2" one_credential (Some "Renamed") world1 =
    (Ok {| vault_id := "uuid-0"; vault_name := "Renamed";
           vault_createdAt := 1700000000000;
           vault_lastAccessed := 1700000000001;
           vault_lastModified := 1700000000001 |}, world1_renamed)).
  { rewrite (surjective_pairing (updateVault _ _ _ _ _)).
    apply (f_equal2 pair); [vm_compute; reflexivity | reflexivity]. }
  split; [exact keyed_by_id_world1|]. split; [exact H1|]. split; [exact H2|].
  exact (updateVault_keeps_identity _ _ _ _ _ _ _ _ keyed_by_id_world1 H1 H2).
Defined.

Lemma updateVault_trusts_password_witness :
  (∀ ev salt,
     fault_at (oracle world1) (io_pos world1) = None →
     fault_at (oracle world1) (S (io_pos world1)) = None →
     db_vaults world1 !! "uuid-0" = Some ev →
     decodeBase64 (ev_salt ev) = Some salt →
     ∃ written w',
       updateVault "uuid-0" "hunter3" one_credential None world1 =
         (Ok (metadata written), w') ∧
       db_vaults w' = <[ev_id ev := written]> (db_vaults world1) ∧
       sealed_with written "hunter3" salt (fresh_bytes 12 world1) one_credential) ∧
  (∀ e w', updateVault "uuid-0" "hunter3" one_credential None world1 = (Throw e, w') →
     (e = Err "Failed to open database" ∨ e = Err "Failed to retrieve vault" ∨
      e = Err "Vault not found" ∨ e = Err "Failed to update vault") ∧
     e ≠ wrong_password_or_corrupt ∧
     db_vaults w' = db_vaults world1 ∧ db_settings w' = db_settings world1) ∧
  (fault_at (oracle world1) (io_pos world1) = None →
   db_vaults world1 !! "uuid-0" = None →
     ∃ w', updateVault "uuid-0" "hunter3" one_credential None world1 =
             (Throw (Err "Vault not found"), w')) ∧
  (∀ ev, fault_at (oracle world1) (io_pos world1) = None →
     db_vaults world1 !! "uuid-0" = Some ev →
     decodeBase64 (ev_salt ev) = None ∨
       fault_at (oracle world1) (S (io_pos world1)) ≠ None →
     ∃ w', updateVault "uuid-0" "hunter3" one_credential None world1 =
             (Throw (Err "Failed to update vault"), w')) ∧
  (∀ f, fault_at (oracle world1) (io_pos world1) = Some f →
     ∃ w', updateVault "uuid-0" "hunter3" one_credential None world1 =
             (Throw (match f with
                     | OpenFails => Err "Failed to open database"
                     | RequestFails => Err "Failed to retrieve vault"
                     end), w')).
Proof.
  exact (updateVault_trusts_password "uuid-0" "hunter3" one_credential None world1).
Defined.

(** C2 as stated fails: the vault of [world1] is sealed under "hunter2", yet
    [updateVault] with "hunter3" does not fail. It succeeds, and the record
    it leaves opens with "hunter3" and no longer with "hunter2". *)
Lemma updateVault_wrong_password_succeeds :
  (db_vaults world1 !! "uuid-0" ≫= λ ev, unseal ev "hunter2") = Some defaultVaultData ∧
  (db_vaults world1 !! "uuid-0" ≫= λ ev, unseal ev "hunter3") = None ∧
  ¬ (∃ w', updateVault "uuid-0" "hunter3" one_credential None world1 =
             (Throw wrong_password_or_corrupt, w') ∧
           db_vaults w' = db_vaults world1) ∧
  (updateVault "uuid-0" "hunter3" one_credential None world1).1 =
    Ok {| vault_id := "uuid-0"; vault_name := "Personal";
          vault_createdAt := 1700000000000;
          vault_lastAccessed := 1700000000001;
          vault_lastModified := 1700000000001 |} ∧
  (db_vaults world1_overwritten !! "uuid-0" ≫= λ ev, unseal ev "hunter3") =
    Some one_credential ∧
  (db_vaults world1_overwritten !! "uuid-0" ≫= λ ev, unseal ev "hunter2") = None.
Proof.
  split_and!.
  - vm_compute. reflexivity.
  - vm_compute. reflexivity.
  - intros (w' & H & _). apply (f_equal fst) in H. vm_compute in H. discriminate.
  - vm_compute. reflexivity.
  - vm_compute. reflexivity.
  - vm_compute. reflexivity.
Qed.

(** The failures of [updateVault], evaluated: no record under the id; and,
    with the vault of [world1] in a store whose second request fails, the
    write that is not served, which leaves the record as it was. *)
Example updateVault_failures_evaluated :
  (updateVault "uuid-0" "hunter3" one_credential None world0).1 =
    Throw (Err "Vault not found") ∧
  let w := mkWorld (db_vaults world1) ∅ oracle_second_fails 0 0 0 0 in
  (updateVault "uuid-0" "hunter3" one_credential None w).1 =
    Throw (Err "Failed to update vault") ∧
  db_vaults (updateVault "uuid-0" "hunter3" one_credential None w).2 = db_vaults w.
Proof. vm_compute. done. Qed.

End UpdateVaultExamples.

(** ** The cipher round trip *)

(** C5. For every value and password: derive a key (drawing a salt),
    encrypt the value under it (drawing an iv), derive the key again from
    the password and the returned salt, and decrypt with it and the
    returned iv. The run succeeds and gives back the value. *)
Theorem encrypt_decrypt_round_trip `{P : Platform} {L : PlatformLaws P}
    (v : VaultData) (p : string) (w : World) :
  ∃ key salt encryptedData iv w',
    (ks <- generateKeyFromPassword p None ;;
     ei <- encrypt ks.1 v ;;
     ret (ks, ei)) w = (Ok ((key, salt), (encryptedData, iv)), w') ∧
    generateKeyFromPassword p (Some salt) w' = (Ok (key, salt), w') ∧
    decrypt key encryptedData iv w' = (Ok v, w').
Proof.
  eexists _, _, _, _, _. split; [|split].
  - rewrite (bind_ok _ _ _ _ _ (generateKeyFromPassword_fresh _ _)).
    rewrite (bind_ok _ _ _ _ _ (encrypt_run _ _ _)).
    reflexivity.
  - reflexivity.
  - rewrite decrypt_run. unfold seal.
    by rewrite aes_gcm_correct, TextDecoder_decode_encode, JSON_round_trip.
Qed.

(** ** generatePassword *)

Lemma chars_of_append s t : chars_of (s +:+ t) = (chars_of s ++ chars_of t)%list.
Proof. induction s as [|c s IH]; simpl; [done | by rewrite IH]. Qed.

Lemma length_chars_of s : length (chars_of s) = String.length s.
Proof. induction s as [|c s IH]; simpl; [done | by rewrite IH]. Qed.

Lemma get_chars_of s : ∀ i, String.get i s = chars_of s !! i.
Proof. induction s as [|c s IH]; intros [|i]; simpl; auto. Qed.

Lemma pick_in_range chars b :
  String.length chars ≠ 0%nat →
  ∃ c, String.get (Byte.to_nat b `mod` String.length chars) chars = Some c ∧
       pick chars b = String c "".
Proof.
  intros Hne. unfold pick.
  destruct (String.get _ chars) as [c|] eqn:Hget; [eauto|].
  rewrite get_chars_of in Hget. apply lookup_ge_None in Hget.
  rewrite length_chars_of in Hget.
  pose proof (Nat.mod_upper_bound (Byte.to_nat b) (String.length chars) Hne). lia.
Qed.

Lemma foldl_pick chars bytes :
  String.length chars ≠ 0%nat →
  ∀ acc,
    ∃ picked,
      chars_of (foldl (λ password b, password +:+ pick chars b) acc bytes) =
        (chars_of acc ++ picked)%list ∧
      Forall2 (λ b c,
        String.get (Byte.to_nat b `mod` String.length chars) chars = Some c)
        bytes picked.
Proof.
  intros Hne. induction bytes as [|b bytes IH]; intros acc; simpl.
  - exists []. by rewrite app_nil_r.
  - destruct (pick_in_range chars b Hne) as (c & Hget & ->).
    destruct (IH (acc +:+ String c "")) as (picked & Heq & Hall).
    exists (c :: picked). split; [|by constructor].
    rewrite Heq, chars_of_append. simpl. by rewrite <- app_assoc.
Qed.

Lemma charset_empty options :
  String.length (charset options) = 0%nat ↔ any_selected options = false.
Proof. destruct options as [[] [] [] []]; by vm_compute. Qed.

(** C8, amended. With at least one class selected and a length within the
    65536-byte quota of [crypto.getRandomValues], [generatePassword] returns
    a string of exactly [length] characters; its i-th character is the
    character of the concatenated selected classes at index (i-th random
    byte) mod (number of characters), so every character belongs to a
    selected class, and with only uppercase selected lies in A-Z. With no
    class selected it fails with "At least one character type must be
    selected", whatever the length. *)
Theorem generatePassword_within_quota
    (length : nat) (options : PasswordGenerationOptions) (w : World) :
  (any_selected options = true → (N.of_nat length ≤ random_quota)%N →
   ∃ password,
     generatePassword length options w = (Ok password, advance_rng length w) ∧
     String.length password = length ∧
     (∀ i, (i < length)%nat →
        String.get i password =
          String.get
            (Byte.to_nat (random_byte (oracle w) (rng_pos w + i))
               `mod` String.length (charset options))
            (charset options) ∧
        is_Some (String.get i password)) ∧
     Forall (λ c, c ∈ chars_of (charset options)) (chars_of password) ∧
     (options = mkOptions true false false false →
      Forall (λ c, 65 ≤ nat_of_ascii c ≤ 90)%nat (chars_of password))) ∧
  (any_selected options = false →
   generatePassword length options w =
     (Throw (Err "At least one character type must be selected"), w)).
Proof.
  split.
  - intros Hsel Hquota.
    assert (Hne : String.length (charset options) ≠ 0%nat).
    { intros H0. apply charset_empty in H0. congruence. }
    unfold generatePassword. rewrite decide_False by done.
    rewrite (bind_ok _ _ _ _ _ (getRandomValues_ok _ _ Hquota)).
    destruct (foldl_pick (charset options)
                (random_byte (oracle w) <$> seq (rng_pos w) length) Hne "")
      as (picked & Heq & Hall).
    simpl in Heq. eexists. split; [reflexivity|].
    pose proof (Forall2_length _ _ _ Hall) as Hlen.
    rewrite length_fmap, length_seq in Hlen.
    assert (Hin : Forall (λ c, c ∈ chars_of (charset options)) picked).
    { apply Forall_forall. intros c Hc.
      apply list_elem_of_lookup in Hc as [i Hi].
      destruct (Forall2_lookup_r _ _ _ _ _ Hall Hi) as (b & _ & Hget).
      rewrite get_chars_of in Hget. by eapply list_elem_of_lookup_2. }
    split_and!.
    + by rewrite <- length_chars_of, Heq.
    + intros i Hi. rewrite (get_chars_of (foldl _ _ _)), Heq.
      destruct (lookup_lt_is_Some_2 picked i ltac:(lia)) as [c Hc].
      destruct (Forall2_lookup_r _ _ _ _ _ Hall Hc) as (b & Hb & Hget).
      rewrite list_lookup_fmap, lookup_seq_lt in Hb by done.
      simpl in Hb. injection Hb as <-. by rewrite Hc, Hget.
    + by rewrite Heq.
    + intros ->. rewrite Heq. eapply Forall_impl; [exact Hin|].
      assert (Hupper : Forall (λ c, 65 ≤ nat_of_ascii c ≤ 90)%nat
                         (chars_of uppercaseChars))
        by (repeat constructor; simpl; lia).
      intros c Hc. by apply (proj1 (Forall_forall _ _) Hupper).
  - intros Hnone. apply charset_empty in Hnone.
    unfold generatePassword. by rewrite decide_True.
Qed.

Section CipherAndGeneratorExamples.
Import Symbolic SymbolicFacts.
#[local] Existing Instance platform.
#[local] Existing Instance laws.

Lemma encrypt_decrypt_round_trip_witness :
  ∃ key salt encryptedData iv w',
    (ks <- generateKeyFromPassword "hunter2" None ;;
     ei <- encrypt ks.1 one_credential ;;
     ret (ks, ei)) world0 = (Ok ((key, salt), (encryptedData, iv)), w') ∧
    generateKeyFromPassword "hunter2" (Some salt) w' = (Ok (key, salt), w') ∧
    decrypt key encryptedData iv w' = (Ok one_credential, w').
Proof. exact (encrypt_decrypt_round_trip one_credential "hunter2" world0). Defined.

Lemma generatePassword_within_quota_witness :
  (any_selected only_uppercase = true → (N.of_nat 16 ≤ random_quota)%N →
   ∃ password,
     generatePassword 16 only_uppercase world0 = (Ok password, advance_rng 16 world0) ∧
     String.length password = 16%nat ∧
     (∀ i, (i < 16)%nat →
        String.get i password =
          String.get
            (Byte.to_nat (random_byte (oracle world0) (rng_pos world0 + i))
               `mod` String.length (charset only_uppercase))
            (charset only_uppercase) ∧
        is_Some (String.get i password)) ∧
     Forall (λ c, c ∈ chars_of (charset only_uppercase)) (chars_of password) ∧
     (only_uppercase = mkOptions true false false false →
      Forall (λ c, 65 ≤ nat_of_ascii c ≤ 90)%nat (chars_of password))) ∧
  (any_selected only_uppercase = false →
   generatePassword 16 only_uppercase world0 =
     (Throw (Err "At least one character type must be selected"), world0)).
Proof. exact (generatePassword_within_quota 16 only_uppercase world0). Defined.

Example generatePassword_sixteen_uppercase :
  (generatePassword 16 only_uppercase world0).1 = Ok "ABCDEFGHIJKLMNOP".
Proof. vm_compute. reflexivity. Qed.

Example generatePassword_no_class :
  (generatePassword 16 (mkOptions false false false false) world0).1 =
    Throw (Err "At least one character type must be selected").
Proof. vm_compute. reflexivity. Qed.

(** C8 as stated fails beyond the quota of [crypto.getRandomValues]: with
    uppercase selected and length 65537 no password is returned. *)
Lemma generatePassword_beyond_quota :
  any_selected only_uppercase = true ∧
  generatePassword (N.to_nat 65537) only_uppercase world0 =
    (Throw QuotaExceededError, world0) ∧
  ¬ (∃ password w',
       generatePassword (N.to_nat 65537) only_uppercase world0 = (Ok password, w') ∧
       String.length password = N.to_nat 65537).
Proof.
  assert (H : generatePassword (N.to_nat 65537) only_uppercase world0 =
              (Throw QuotaExceededError, world0)).
  { unfold generatePassword. rewrite decide_False by (by vm_compute).
    apply bind_throw, getRandomValues_quota.
    rewrite N2Nat.id. by vm_compute. }
  split; [done|]. split; [exact H|].
  intros (password & w' & Hrun & _). rewrite H in Hrun. discriminate.
Qed.

End CipherAndGeneratorExamples.

(** ** importData *)

Lemma saveVaults_served records : ∀ w,
  healthy w →
  ∃ w', saveVaults records w = (Ok tt, w') ∧
        db_vaults w' = foldl (λ m vault, <[ev_id vault := vault]> m) (db_vaults w) records ∧
        db_settings w' = db_settings w ∧
        oracle w' = oracle w.
Proof.
  induction records as [|vault rest IH]; intros w Hw; simpl.
  - by exists w.
  - rewrite (bind_ok _ _ _ _ _ (saveVault_served vault w (Hw _))).
    destruct (IH (with_vaults (insert (ev_id vault) vault) (advance_io w)))
      as (w' & Hrun & Hv & Hs & Ho); [exact Hw|].
    exists w'. by rewrite Hrun.
Qed.

Lemma saveVaults_throw records : ∀ w e w',
  saveVaults records w = (Throw e, w') →
  e = Err "Failed to open database" ∨ e = Err "Failed to save vault".
Proof.
  induction records as [|vault rest IH]; intros w e w' Hrun; simpl in Hrun.
  - discriminate.
  - apply bind_inv_throw in Hrun as [Hrun|(a & w1 & _ & Hrun)]; [|by eapply IH].
    unfold saveVault, idb_request in Hrun.
    destruct (fault_at _ _) as [[]|]; simplify_eq; auto.
Qed.

Section ImportData.
Context `{P : Platform}.

(** What [importData] does with any parsed value other than [null]: it
    rejects a value whose [vaults] member is missing, falsy or not an array
    with "Invalid backup format" and writes nothing; otherwise, the store
    serving every request, it puts each record under its id, in order, and
    a settings object under 'app-settings'; and no other failure carries
    that message. *)
Lemma importData_checks_format jsonData vaults backup_settings w :
  JSON_parse_backup jsonData = Some (BackupValue vaults backup_settings) →
  (Array_isArray vaults = false →
     importData jsonData w = (Throw invalid_backup, w)) ∧
  (∀ records, vaults = VaultsArray records → healthy w →
     ∃ w', importData jsonData w = (Ok tt, w') ∧
           db_vaults w' =
             foldl (λ m vault, <[ev_id vault := vault]> m) (db_vaults w) records ∧
           db_settings w' =
             match backup_settings with
             | Some s => <["app-settings" := s]> (db_settings w)
             | None => db_settings w
             end) ∧
  (∀ records e w', vaults = VaultsArray records →
     importData jsonData w = (Throw e, w') → e ≠ invalid_backup).
Proof.
  intros Hparse. unfold importData, invalid_backup.
  rewrite (bind_ok _ _ w (BackupValue vaults backup_settings) w)
    by (by rewrite Hparse).
  split_and!.
  - intros Hna. by destruct vaults.
  - intros records -> Hw. simpl.
    destruct (saveVaults_served records w Hw) as (w1 & Hrun & Hv & Hs & Ho).
    rewrite (bind_ok _ _ _ _ _ Hrun).
    destruct backup_settings as [s|].
    + rewrite saveSettings_served by (rewrite Ho; apply Hw).
      eexists. split; [done|]. simpl. by rewrite Hv, Hs.
    + by exists w1.
  - intros records e w' -> Hrun. simpl in Hrun.
    apply bind_inv_throw in Hrun as [Hrun|(a & w1 & _ & Hrun)].
    + by destruct (saveVaults_throw _ _ _ _ Hrun) as [-> | ->].
    + destruct backup_settings as [s|]; [|done].
      unfold saveSettings, idb_request in Hrun.
      destruct (fault_at _ _) as [[]|]; by simplify_eq.
Qed.

End ImportData.

(** C9, at the input where the code leaves the claim. When the text parses
    to [null], reading its [vaults] member raises a TypeError: the import
    fails, but not with "Invalid backup format", although the parsed value
    has no [vaults] member. *)
Theorem importData_null_backup `{P : Platform} (jsonData : string) (w : World) :
  JSON_parse_backup jsonData = Some BackupNull →
  importData jsonData w = (Throw TypeError, w) ∧ TypeError ≠ invalid_backup.
Proof.
  intros Hparse. split; [|done].
  unfold importData.
  by rewrite (bind_ok _ _ w BackupNull w) by (by rewrite Hparse).
Qed.

Section ImportDataExamples.
Import Symbolic SymbolicFacts.
#[local] Existing Instance platform.

Lemma importData_null_backup_witness :
  JSON_parse_backup "null" = Some BackupNull ∧
  importData "null" world1 = (Throw TypeError, world1) ∧ TypeError ≠ invalid_backup.
Proof.
  split; [reflexivity|].
  exact (importData_null_backup "null" world1 eq_refl).
Defined.

End ImportDataExamples.

(** ** What a failed operation leaves in the store *)

Lemma stores_eq_refl w : stores_eq w w.
Proof. by split. Qed.

Lemma stores_eq_trans w1 w2 w3 : stores_eq w1 w2 → stores_eq w2 w3 → stores_eq w1 w3.
Proof. intros [H1 H2] [H3 H4]. split; congruence. Qed.

Lemma quiet_ret {A} (a : A) : quiet (ret a).
Proof. intros w o w' H. injection H as <- <-. apply stores_eq_refl. Qed.

Lemma quiet_throw {A} e : quiet (@throw A e).
Proof. intros w o w' H. injection H as <- <-. apply stores_eq_refl. Qed.

Lemma quiet_bind {A B} (m : M A) (k : A → M B) :
  quiet m → (∀ a, quiet (k a)) → quiet (bind m k).
Proof.
  intros Hm Hk w o w' H. unfold bind in H.
  destruct (m w) as [[a|e] w1] eqn:E.
  - eapply stores_eq_trans; [by eapply Hm | by eapply Hk].
  - injection H as <- <-. by eapply Hm.
Qed.

Lemma quiet_Date_now : quiet Date_now.
Proof. intros w o w' H. injection H as <- <-. by split. Qed.

Lemma quiet_randomUUID : quiet randomUUID.
Proof. intros w o w' H. injection H as <- <-. by split. Qed.

Lemma quiet_getRandomValues n : quiet (getRandomValues n).
Proof.
  intros w o w' H. unfold getRandomValues in H.
  case_decide; injection H as <- <-; by split.
Qed.

Lemma quiet_getVault id : quiet (getVault id).
Proof.
  intros w o w' H. unfold getVault, idb_request in H.
  destruct (fault_at _ _) as [[]|]; injection H as <- <-; by split.
Qed.

Lemma quiet_generateKeyFromPassword `{P : Platform} password salt :
  quiet (generateKeyFromPassword password salt).
Proof.
  apply quiet_bind; [|intros; apply quiet_ret].
  destruct salt; [apply quiet_ret | apply quiet_getRandomValues].
Qed.

Lemma quiet_encrypt `{P : Platform} key data : quiet (encrypt key data).
Proof. apply quiet_bind; [apply quiet_getRandomValues | intros; apply quiet_ret]. Qed.

Section Failures.
Context `{P : Platform}.

Lemma openVault_ok id password w vault data w' :
  openVault id password w = (Ok (vault, data), w') →
  ∃ ev, db_vaults w !! id = Some ev ∧ unseal ev password = Some data ∧
        vault = opened_vault ev w ∧ w' = opened_world ev w.
Proof.
  destruct (fault_at (oracle w) (io_pos w)) as [f|] eqn:Hio.
  - unfold openVault. intros H.
    destruct (idb_request_fault "Failed to retrieve vault"
                (λ w, (db_vaults w !! id, w)) w f Hio) as (e1 & Hget & _).
    unfold getVault in H. by rewrite (bind_throw _ _ _ _ _ Hget) in H.
  - rewrite openVault_served by done.
    destruct (db_vaults w !! id) as [ev|]; [|done].
    destruct (unseal ev password) as [d|] eqn:Hu; [|done].
    destruct (fault_at (oracle w) (S (io_pos w))); [done|].
    intros H. injection H as <- <- <-. by exists ev.
Qed.

Lemma opened_world_touched id ev w :
  keyed_by_id w → db_vaults w !! id = Some ev →
  same_but_touched id w (opened_world ev w).
Proof.
  intros Hk Hev. split; [done|]. right.
  exists ev, (time_at (oracle w) (clock_pos w)). split; [done|].
  simpl. by rewrite (Hk _ _ Hev).
Qed.

Lemma same_but_touched_later id w w1 w' :
  same_but_touched id w w1 → stores_eq w1 w' → same_but_touched id w w'.
Proof.
  intros [Hs Hv] [Hv' Hs']. split; [congruence|].
  destruct Hv as [Hv|(ev & t & Hev & Hv)]; [left; congruence|].
  right. exists ev, t. split; [done | congruence].
Qed.

(** An operation that opens the vault and then runs [k]: if [k] leaves the
    stores alone whenever it fails, a failure of the whole leaves the stores
    as they were up to the [lastAccessed] stamp. *)
Lemma open_then_fail {A} id password (k : Vault * VaultData → M A) w e w' :
  keyed_by_id w →
  (∀ opened w1 e' w2, k opened w1 = (Throw e', w2) → stores_eq w1 w2) →
  (opened <- openVault id password ;; k opened) w = (Throw e, w') →
  same_but_touched id w w'.
Proof.
  intros Hk Hclean Hrun.
  apply bind_inv_throw in Hrun as [Hrun|([vault data] & w1 & Hopen & Hrun)].
  - destruct (openVault_throw_keeps_stores _ _ _ _ _ Hrun) as [Hv Hs].
    split; [done | by left].
  - destruct (openVault_ok _ _ _ _ _ _ Hopen) as (ev & Hev & _ & _ & ->).
    eapply same_but_touched_later; [by apply opened_world_touched|].
    by eapply Hclean.
Qed.

Lemma updateVault_throw_stores id password data newName w e w' :
  updateVault id password data newName w = (Throw e, w') → stores_eq w w'.
Proof. intros H. by destruct (updateVault_throw _ _ _ _ _ _ _ H) as (_ & ? & ?). Qed.

Lemma saveVault_throw_stores vault w e w' :
  saveVault vault w = (Throw e, w') → stores_eq w w'.
Proof. intros H. apply saveVault_throw in H as ->. by split. Qed.

Lemma createVault_throw_stores name password w e w' :
  createVault name password w = (Throw e, w') → stores_eq w w'.
Proof.
  unfold createVault. intros H.
  apply bind_inv_throw in H as [H|(id & w1 & H1 & H)];
    [by eapply quiet_randomUUID|].
  apply quiet_randomUUID in H1.
  apply bind_inv_throw in H as [H|([key salt] & w2 & H2 & H)];
    [eapply stores_eq_trans; [done | by eapply quiet_generateKeyFromPassword]|].
  apply quiet_generateKeyFromPassword in H2.
  apply bind_inv_throw in H as [H|([ct iv] & w3 & H3 & H)];
    [eapply stores_eq_trans; [done|];
     eapply stores_eq_trans; [done | by eapply quiet_encrypt]|].
  apply quiet_encrypt in H3.
  apply bind_inv_throw in H as [H|(now & w4 & H4 & H)]; [done|].
  injection H4 as <- <-.
  apply bind_inv_throw in H as [H|(? & w5 & _ & H)]; [|done].
  apply saveVault_throw_stores in H.
  destruct H1, H2, H3, H. split; simpl in *; congruence.
Qed.

End Failures.

Lemma quiet_clean {A} (m : M A) : quiet m → clean m.
Proof. intros Hq w e w' H. by eapply Hq. Qed.

Lemma clean_bind {A B} (m : M A) (k : A → M B) :
  quiet m → (∀ a, clean (k a)) → clean (bind m k).
Proof.
  intros Hm Hk w e w' H.
  apply bind_inv_throw in H as [H|(a & w1 & H1 & H)]; [by eapply Hm|].
  eapply stores_eq_trans; [by eapply Hm | by eapply Hk].
Qed.

Lemma clean_then_ret {A B} (m : M A) (b : B) :
  clean m → clean (bind m (λ _, ret b)).
Proof.
  intros Hm w e w' H.
  apply bind_inv_throw in H as [H|(a & w1 & _ & H)]; [by eapply Hm | done].
Qed.

Lemma clean_saveVault vault : clean (saveVault vault).
Proof. intros w e w'. apply saveVault_throw_stores. Qed.

Lemma clean_updateVault `{P : Platform} id password data newName :
  clean (updateVault id password data newName).
Proof. intros w e w'. apply updateVault_throw_stores. Qed.

(** C4, amended. On a store keyed by id, a failed [createVault],
    [openVault] or [updateVault] leaves both object stores exactly as they
    were. A failed [changeMasterPassword], [addCredential],
    [updateCredential], [deleteCredential] or [updateVaultSettings] leaves
    them as they were except that the vault's record may carry the
    [lastAccessed] stamp written by the [openVault] these operations start
    with: no other member of any record changes. *)
Theorem failed_operation_keeps_record `{P : Platform} (w : World) :
  keyed_by_id w →
  (∀ name password e w',
     createVault name password w = (Throw e, w') → stores_eq w w') ∧
  (∀ id password e w',
     openVault id password w = (Throw e, w') → stores_eq w w') ∧
  (∀ id password data newName e w',
     updateVault id password data newName w = (Throw e, w') → stores_eq w w') ∧
  (∀ id currentPassword newPassword e w',
     changeMasterPassword id currentPassword newPassword w = (Throw e, w') →
     same_but_touched id w w') ∧
  (∀ id password credential e w',
     addCredential id password credential w = (Throw e, w') →
     same_but_touched id w w') ∧
  (∀ id password credentialId updates e w',
     updateCredential id password credentialId updates w = (Throw e, w') →
     same_but_touched id w w') ∧
  (∀ id password credentialId e w',
     deleteCredential id password credentialId w = (Throw e, w') →
     same_but_touched id w w') ∧
  (∀ id password newSettings e w',
     updateVaultSettings id password newSettings w = (Throw e, w') →
     same_but_touched id w w').
Proof.
  intros Hk. split_and!.
  - intros *. apply createVault_throw_stores.
  - intros * H. by apply openVault_throw_keeps_stores in H.
  - intros *. apply updateVault_throw_stores.
  - intros id cur new e w'. unfold changeMasterPassword.
    apply open_then_fail; [done|]. intros opened.
    apply clean_bind; [apply quiet_generateKeyFromPassword|]. intros [key salt].
    apply clean_bind; [apply quiet_encrypt|]. intros [encryptedData iv].
    apply clean_bind; [apply quiet_getVault|]. intros [existing|].
    + apply clean_bind; [apply quiet_Date_now|]. intros now.
      apply clean_saveVault.
    + apply quiet_clean, quiet_throw.
  - intros id password credential e w'. unfold addCredential.
    apply open_then_fail; [done|]. intros opened.
    apply clean_bind; [apply quiet_Date_now|]. intros now.
    apply clean_bind; [apply quiet_randomUUID|]. intros uuid.
    apply clean_then_ret, clean_updateVault.
  - intros id password credentialId updates e w'. unfold updateCredential.
    apply open_then_fail; [done|]. intros opened.
    destruct (list_find _ _) as [[index found]|].
    + apply clean_bind; [apply quiet_Date_now|]. intros now.
      apply clean_then_ret, clean_updateVault.
    + apply quiet_clean, quiet_throw.
  - intros id password credentialId e w'. unfold deleteCredential.
    apply open_then_fail; [done|]. intros opened.
    apply clean_then_ret, clean_updateVault.
  - intros id password newSettings e w'. unfold updateVaultSettings.
    apply open_then_fail; [done|]. intros opened.
    apply clean_then_ret, clean_updateVault.
Qed.

Section FailureExamples.
Import Symbolic SymbolicFacts.
#[local] Existing Instance platform.

(** C4 as stated fails: [updateCredential] for a credential the vault does
    not hold fails with "Credential not found" after [openVault] has written
    a new [lastAccessed] stamp, so the operation has neither completed nor
    left the stored record as it was. *)
Lemma updateCredential_failure_is_not_atomic :
  world1_after_failed_update.1 = Throw (Err "Credential not found") ∧
  ev_lastAccessed <$> db_vaults world1 !! "uuid-0" = Some 1700000000000 ∧
  ev_lastAccessed <$> db_vaults world1_after_failed_update.2 !! "uuid-0" =
    Some 1700000000001 ∧
  ¬ ((∃ c, world1_after_failed_update.1 = Ok c) ∨
     db_vaults world1_after_failed_update.2 = db_vaults world1).
Proof.
  split_and!.
  - vm_compute. reflexivity.
  - vm_compute. reflexivity.
  - vm_compute. reflexivity.
  - intros [[c H]|H].
    + vm_compute in H. discriminate.
    + apply (f_equal (λ m, ev_lastAccessed <$> m !! "uuid-0")) in H.
      vm_compute in H. discriminate.
Qed.

Lemma failed_operation_keeps_record_witness :
  keyed_by_id world1 ∧
  (∀ name password e w',
     createVault name password world1 = (Throw e, w') → stores_eq world1 w') ∧
  (∀ id password e w',
     openVault id password world1 = (Throw e, w') → stores_eq world1 w') ∧
  (∀ id password data newName e w',
     updateVault id password data newName world1 = (Throw e, w') →
     stores_eq world1 w') ∧
  (∀ id currentPassword newPassword e w',
     changeMasterPassword id currentPassword newPassword world1 = (Throw e, w') →
     same_but_touched id world1 w') ∧
  (∀ id password credential e w',
     addCredential id password credential world1 = (Throw e, w') →
     same_but_touched id world1 w') ∧
  (∀ id password credentialId updates e w',
     updateCredential id password credentialId updates world1 = (Throw e, w') →
     same_but_touched id world1 w') ∧
  (∀ id password credentialId e w',
     deleteCredential id password credentialId world1 = (Throw e, w') →
     same_but_touched id world1 w') ∧
  (∀ id password newSettings e w',
     updateVaultSettings id password newSettings world1 = (Throw e, w') →
     same_but_touched id world1 w').
Proof.
  split; [exact keyed_by_id_world1|].
  exact (failed_operation_keeps_record world1 keyed_by_id_world1).
Defined.

End FailureExamples.

(** ** Operations that succeed *)

Lemma healthy_oracle w w' : oracle w' = oracle w → healthy w → healthy w'.
Proof. unfold healthy. by intros ->. Qed.

Section Success.
Context `{P : Platform} {L : PlatformLaws P}.

Lemma unseal_salt ev password data :
  unseal ev password = Some data → ∃ salt, decodeBase64 (ev_salt ev) = Some salt.
Proof.
  unfold unseal. intros H.
  destruct (decodeBase64 (ev_encryptedData ev)); [|done].
  destruct (decodeBase64 (ev_iv ev)); [|done].
  destruct (decodeBase64 (ev_salt ev)) as [salt|]; [eauto | done].
Qed.

Lemma openVault_opens id password w ev data :
  healthy w → db_vaults w !! id = Some ev → unseal ev password = Some data →
  openVault id password w = (Ok (opened_vault ev w, data), opened_world ev w).
Proof.
  intros Hw Hev Hu. rewrite openVault_served by apply Hw.
  by rewrite Hev, Hu, (Hw _).
Qed.

Lemma updated_record_unseals ev password data newName salt w :
  decodeBase64 (ev_salt ev) = Some salt →
  unseal (updated_record ev password data newName salt w) password = Some data.
Proof.
  intros Hsalt. apply (unseal_sealed _ _ salt (fresh_bytes 12 w)).
  unfold sealed_with. simpl. by split_and!.
Qed.

(** [updateCredential] for an id the vault does not hold, on any platform:
    the failure comes after the stamp of [openVault] has been written. *)
Lemma updateCredential_absent id password credentialId updates w ev data :
  healthy w → keyed_by_id w →
  db_vaults w !! id = Some ev → unseal ev password = Some data →
  list_find (λ c, cred_id c = credentialId) (credentials data) = None →
  updateCredential id password credentialId updates w =
    (Throw (Err "Credential not found"), opened_world ev w) ∧
  db_vaults (opened_world ev w) =
    <[id := touch ev (time_at (oracle w) (clock_pos w))]> (db_vaults w).
Proof.
  intros Hw Hk Hev Hu Hfind. split.
  - unfold updateCredential.
    rewrite (bind_ok _ _ _ _ _ (openVault_opens _ _ _ _ _ Hw Hev Hu)).
    simpl. by rewrite Hfind.
  - simpl. by rewrite (Hk _ _ Hev).
Qed.

Lemma updateVault_reseals id password data newName w ev salt :
  healthy w → db_vaults w !! id = Some ev → decodeBase64 (ev_salt ev) = Some salt →
  updateVault id password data newName w =
    (Ok (metadata (updated_record ev password data newName salt w)),
     with_vaults (insert (ev_id ev) (updated_record ev password data newName salt w))
       (advance_io (advance_clock (advance_rng 12 (advance_io w))))).
Proof.
  intros Hw Hev Hsalt. rewrite updateVault_served by apply Hw.
  rewrite Hev, Hsalt. simpl. by rewrite (Hw _).
Qed.

End Success.

(** ** addCredential *)

Section AddCredential.
Context `{P : Platform} {L : PlatformLaws P}.

Lemma addCredential_served id password credential w ev data :
  healthy w → keyed_by_id w →
  db_vaults w !! id = Some ev → unseal ev password = Some data →
  let c := new_credential credential (uuid_at (oracle w) (uuid_pos w))
             (time_at (oracle w) (S (clock_pos w))) in
  ∃ w' ev',
    addCredential id password credential w = (Ok c, w') ∧
    db_vaults w' !! id = Some ev' ∧
    unseal ev' password = Some (with_credentials data (credentials data ++ [c])) ∧
    keyed_by_id w' ∧ oracle w' = oracle w ∧ uuid_pos w' = S (uuid_pos w).
Proof.
  intros Hw Hk Hev Hu c.
  destruct (unseal_salt _ _ _ Hu) as [salt Hsalt].
  pose proof (Hk _ _ Hev) as Hid.
  unfold addCredential.
  rewrite (bind_ok _ _ _ _ _ (openVault_opens _ _ _ _ _ Hw Hev Hu)).
  rewrite (bind_ok _ _ _ _ _ (eq_refl : Date_now _ = (Ok _, _))).
  rewrite (bind_ok _ _ _ _ _ (eq_refl : randomUUID _ = (Ok _, _))).
  set (w3 := advance_uuid (advance_clock (opened_world ev w))).
  set (stamped := touch ev (time_at (oracle w) (clock_pos w))).
  assert (Hw3 : healthy w3) by (by apply (healthy_oracle w)).
  assert (Hev3 : db_vaults w3 !! id = Some stamped).
  { subst w3. simpl. rewrite Hid. apply lookup_insert_eq. }
  assert (Hsalt3 : decodeBase64 (ev_salt stamped) = Some salt) by done.
  erewrite bind_ok; [|by apply (updateVault_reseals _ _ _ _ _ _ _ Hw3 Hev3 Hsalt3)].
  eexists _, _. split; [reflexivity|]. split_and!.
  - simpl. rewrite Hid. apply lookup_insert_eq.
  - by apply updated_record_unseals.
  - apply (keyed_by_id_insert
             (advance_io (advance_clock (advance_rng 12 (advance_io w3))))
             (updated_record stamped password _ None salt w3)).
    apply (keyed_by_id_same (opened_world ev w)); [done|].
    apply (keyed_by_id_insert (advance_io (advance_clock (advance_io w)))
             (touch ev (time_at (oracle w) (clock_pos w)))).
    by apply (keyed_by_id_same w).
  - done.
  - done.
Qed.

Lemma addCredentials_served id password inputs : ∀ w ev data,
  healthy w → keyed_by_id w →
  db_vaults w !! id = Some ev → unseal ev password = Some data →
  ∃ added w' ev',
    addCredentials id password inputs w = (Ok added, w') ∧
    Forall2 built_from added inputs ∧
    cred_id <$> added = uuid_at (oracle w) <$> seq (uuid_pos w) (length inputs) ∧
    db_vaults w' !! id = Some ev' ∧
    unseal ev' password = Some (with_credentials data (credentials data ++ added)) ∧
    healthy w'.
Proof.
  induction inputs as [|credential rest IH]; intros w ev data Hw Hk Hev Hu.
  - exists [], w, ev. split_and!; try done.
    destruct data. simpl. by rewrite app_nil_r.
  - destruct (addCredential_served id password credential w ev data Hw Hk Hev Hu)
      as (w1 & ev1 & Hrun & Hev1 & Hu1 & Hk1 & Ho1 & Hp1).
    destruct (IH w1 ev1 _ (healthy_oracle _ _ Ho1 Hw) Hk1 Hev1 Hu1)
      as (added & w' & ev' & Hrest & Hbuilt & Hids & Hev' & Hu' & Hw').
    simpl. rewrite (bind_ok _ _ _ _ _ Hrun), (bind_ok _ _ _ _ _ Hrest).
    eexists _, w', ev'. split; [reflexivity|]. split_and!; try done.
    + constructor; [|done]. by eexists _, _.
    + cbn [length seq]. by rewrite !fmap_cons, Hids, Ho1, Hp1.
    + rewrite Hu'. simpl. by rewrite <- app_assoc.
Qed.

End AddCredential.

(** C6. A vault opens with its password on a store that serves every
    request; the UUIDs drawn during the calls are pairwise distinct. Then N
    calls of [addCredential] all succeed; the credential sequence the vault
    afterwards opens to is the one it had followed by the N returned
    credentials in order, so it holds exactly N more, and the settings are
    the ones it had; the ids of the N are the N drawn UUIDs, pairwise
    distinct; and each carries the fields it was given with [createdAt]
    equal to [lastModified]. *)
Theorem addCredentials_distinct_ids `{P : Platform} {L : PlatformLaws P}
    (id password : string) (inputs : list NewCredential)
    (w : World) (ev : EncryptedVault) (data : VaultData) :
  healthy w → keyed_by_id w →
  db_vaults w !! id = Some ev → unseal ev password = Some data →
  NoDup (uuid_at (oracle w) <$> seq (uuid_pos w) (length inputs)) →
  ∃ added w',
    addCredentials id password inputs w = (Ok added, w') ∧
    length added = length inputs ∧
    cred_id <$> added = uuid_at (oracle w) <$> seq (uuid_pos w) (length inputs) ∧
    NoDup (cred_id <$> added) ∧
    Forall2 built_from added inputs ∧
    Forall (λ c, cred_createdAt c = cred_lastModified c) added ∧
    ∃ vault opened w'',
      openVault id password w' = (Ok (vault, opened), w'') ∧
      credentials opened = (credentials data ++ added)%list ∧
      length (credentials opened) = (length (credentials data) + length inputs)%nat ∧
      settings opened = settings data.
Proof.
  intros Hw Hk Hev Hu Hnodup.
  destruct (addCredentials_served id password inputs w ev data Hw Hk Hev Hu)
    as (added & w' & ev' & Hrun & Hbuilt & Hids & Hev' & Hu' & Hw').
  pose proof (Forall2_length _ _ _ Hbuilt) as Hlen.
  exists added, w'. split_and!; try done.
  - by rewrite Hids.
  - eapply Forall2_Forall_l; [exact Hbuilt|].
    apply Forall_forall. intros input _ c (uuid & now & ->). done.
  - eexists _, _, _. split; [by apply openVault_opens|].
    simpl. split_and!; try done. by rewrite length_app, Hlen.
Qed.

Section AddCredentialExamples.
Import Symbolic SymbolicFacts.
#[local] Existing Instance platform.
#[local] Existing Instance laws.

Lemma world1_record :
  db_vaults world1 !! "uuid-0" = Some (created_record "Personal" "hunter2" world0).
Proof. vm_compute. reflexivity. Qed.

Lemma world1_unseals :
  unseal (created_record "Personal" "hunter2" world0) "hunter2" = Some defaultVaultData.
Proof. eapply unseal_sealed, created_record_sealed. Qed.

Lemma world1_uuids_distinct :
  NoDup (uuid_at (oracle world1) <$> seq (uuid_pos world1) (length two_inputs)).
Proof. apply (bool_decide_unpack _). vm_compute. exact I. Qed.

Lemma addCredentials_distinct_ids_witness :
  healthy world1 ∧ keyed_by_id world1 ∧
  db_vaults world1 !! "uuid-0" = Some (created_record "Personal" "hunter2" world0) ∧
  unseal (created_record "Personal" "hunter2" world0) "hunter2" = Some defaultVaultData ∧
  NoDup (uuid_at (oracle world1) <$> seq (uuid_pos world1) (length two_inputs)) ∧
  ∃ added w',
    addCredentials "uuid-0" "hunter2" two_inputs world1 = (Ok added, w') ∧
    length added = length two_inputs ∧
    cred_id <$> added =
      uuid_at (oracle world1) <$> seq (uuid_pos world1) (length two_inputs) ∧
    NoDup (cred_id <$> added) ∧
    Forall2 built_from added two_inputs ∧
    Forall (λ c, cred_createdAt c = cred_lastModified c) added ∧
    ∃ vault opened w'',
      openVault "uuid-0" "hunter2" w' = (Ok (vault, opened), w'') ∧
      credentials opened = (credentials defaultVaultData ++ added)%list ∧
      length (credentials opened) =
        (length (credentials defaultVaultData) + length two_inputs)%nat ∧
      settings opened = settings defaultVaultData.
Proof.
  split; [exact healthy_world1|]. split; [exact keyed_by_id_world1|].
  split; [exact world1_record|]. split; [exact world1_unseals|].
  split; [exact world1_uuids_distinct|].
  exact (addCredentials_distinct_ids "uuid-0" "hunter2" two_inputs world1 _ _
           healthy_world1 keyed_by_id_world1 world1_record world1_unseals
           world1_uuids_distinct).
Defined.

Example addCredentials_two :
  (addCredentials "uuid-0" "hunter2" two_inputs world1).1 =
    Ok [ {| cred_id := "uuid-1"; cred_title := "Email"; cred_username := "a@b.com";
            cred_password := "x"; cred_url := None; cred_notes := None;
            cred_category := None; cred_tags := None;
            cred_lastModified := 1700000000002; cred_createdAt := 1700000000002 |};
         {| cred_id := "uuid-2"; cred_title := "Bank"; cred_username := "a";
            cred_password := "y"; cred_url := Some "https://bank.example";
            cred_notes := None; cred_category := Some "Financial";
            cred_tags := Some ["money"];
            cred_lastModified := 1700000000005; cred_createdAt := 1700000000005 |} ].
Proof. vm_compute. reflexivity. Qed.

End AddCredentialExamples.

(** ** Master password rotation *)

Section Rotation.
Context `{P : Platform} {L : PlatformLaws P}.

(** The service's [changeMasterPassword] (lib/vault.ts) does rotate: on a
    store that serves every request, for a vault that opens with the current
    password, it succeeds and leaves a record with the freshly drawn salt
    that opens with the new password to the same data and, the two passwords
    being different, no longer with the old one. *)
Lemma changeMasterPassword_rotates id currentPassword newPassword w ev data :
  healthy w → keyed_by_id w →
  db_vaults w !! id = Some ev → unseal ev currentPassword = Some data →
  ∃ w',
    changeMasterPassword id currentPassword newPassword w = (Ok tt, w') ∧
    db_vaults w' !! id = Some (rotated_record ev newPassword data w) ∧
    ev_salt (rotated_record ev newPassword data w) = encodeBase64 (fresh_bytes 16 w) ∧
    unseal (rotated_record ev newPassword data w) newPassword = Some data ∧
    (currentPassword ≠ newPassword →
       unseal (rotated_record ev newPassword data w) currentPassword = None) ∧
    (∃ vault w'', openVault id newPassword w' = (Ok (vault, data), w'')) ∧
    (currentPassword ≠ newPassword →
       ∃ w'', openVault id currentPassword w' = (Throw wrong_password_or_corrupt, w'')).
Proof.
  intros Hw Hk Hev Hu.
  pose proof (Hk _ _ Hev) as Hid.
  assert (Hsealed : sealed_with (rotated_record ev newPassword data w) newPassword
            (fresh_bytes 16 w) (fresh_bytes 12 (advance_rng 16 w)) data).
  { unfold sealed_with. simpl. by rewrite base64_round_trip. }
  set (w' := with_vaults (insert (ev_id ev) (rotated_record ev newPassword data w))
               (advance_io (advance_clock (advance_io (advance_rng 12 (advance_rng 16
                 (opened_world ev w))))))).
  assert (Hrun : changeMasterPassword id currentPassword newPassword w = (Ok tt, w')).
  { unfold changeMasterPassword.
    rewrite (bind_ok _ _ _ _ _ (openVault_opens _ _ _ _ _ Hw Hev Hu)).
    rewrite (bind_ok _ _ _ _ _ (generateKeyFromPassword_fresh _ _)).
    rewrite (bind_ok _ _ _ _ _ (encrypt_run _ _ _)).
    erewrite bind_ok; [|by apply getVault_served, Hw].
    replace (db_vaults _ !! id) with (Some (touch ev (time_at (oracle w) (clock_pos w))))
      by (simpl; rewrite Hid; symmetry; apply lookup_insert_eq).
    rewrite (bind_ok _ _ _ _ _ (eq_refl : Date_now _ = (Ok _, _))).
    by rewrite saveVault_served by apply Hw. }
  assert (Hev' : db_vaults w' !! id = Some (rotated_record ev newPassword data w)).
  { subst w'. simpl. rewrite Hid. apply lookup_insert_eq. }
  assert (Hw' : healthy w') by (by apply (healthy_oracle w)).
  exists w'. split_and!; try done.
  - by eapply unseal_sealed.
  - intros Hne. by eapply unseal_other_password.
  - eexists _, _. eapply openVault_opens; [done..|]. by eapply unseal_sealed.
  - intros Hne. rewrite openVault_served by apply Hw'.
    rewrite Hev', (unseal_other_password _ _ _ _ _ _ Hsealed Hne). eauto.
Qed.

(** It fails, writing nothing, when the current password does not open the
    vault. *)
Lemma changeMasterPassword_checks_password id currentPassword newPassword w ev :
  fault_at (oracle w) (io_pos w) = None →
  db_vaults w !! id = Some ev → unseal ev currentPassword = None →
  changeMasterPassword id currentPassword newPassword w =
    (Throw wrong_password_or_corrupt, advance_io w).
Proof.
  intros Hio Hev Hu. unfold changeMasterPassword.
  erewrite bind_throw; [done|].
  by rewrite openVault_served, Hev, Hu by done.
Qed.

End Rotation.

(** C3, on the path the application takes. The provider's
    [changeMasterPassword] (lib/context.tsx) calls [updateVault] with the
    current password instead of the service's rotation: with a vault open
    and a store serving every request it reports success for any "current"
    password and records the new password in the component state, but the
    stored record keeps its salt and is sealed under the "current" password
    as typed: afterwards [openVault] succeeds with that password and fails
    with the new one. *)
Theorem provider_changeMasterPassword_does_not_rotate
    `{P : Platform} {L : PlatformLaws P}
    (st : AppState) (vault : Vault) (data : VaultData)
    (currentPassword newPassword : string) (w : World) (ev : EncryptedVault)
    (salt : list byte) :
  healthy w → keyed_by_id w →
  currentVault st = Some vault → vaultData st = Some data →
  db_vaults w !! vault_id vault = Some ev →
  decodeBase64 (ev_salt ev) = Some salt →
  newPassword ≠ currentPassword →
  ∃ st' w' ev',
    provider_changeMasterPassword st currentPassword newPassword w = (Ok tt, st', w') ∧
    masterPassword st' = Some newPassword ∧
    db_vaults w' !! vault_id vault = Some ev' ∧
    ev_salt ev' = ev_salt ev ∧
    (∃ opened w'',
       openVault (vault_id vault) currentPassword w' = (Ok (opened, data), w'')) ∧
    (∃ w'',
       openVault (vault_id vault) newPassword w' = (Throw wrong_password_or_corrupt, w'')).
Proof.
  intros Hw Hk Hcv Hvd Hev Hsalt Hne.
  pose proof (Hk _ _ Hev) as Hid.
  set (written := updated_record ev currentPassword data None salt w).
  set (w' := with_vaults (insert (ev_id ev) written)
               (advance_io (advance_clock (advance_rng 12 (advance_io w))))).
  assert (Hsealed : sealed_with written currentPassword salt (fresh_bytes 12 w) data)
    by (unfold sealed_with; simpl; by split_and!).
  assert (Hev' : db_vaults w' !! vault_id vault = Some written).
  { subst w'. simpl. rewrite Hid. apply lookup_insert_eq. }
  assert (Hw' : healthy w') by (by apply (healthy_oracle w)).
  eexists _, w', written. split_and!.
  - unfold provider_changeMasterPassword. simpl. rewrite Hcv, Hvd.
    by rewrite (updateVault_reseals _ _ _ _ _ _ _ Hw Hev Hsalt).
  - done.
  - done.
  - done.
  - eexists _, _. eapply openVault_opens; [done..|]. by eapply unseal_sealed.
  - rewrite openVault_served by apply Hw'.
    rewrite Hev', (unseal_other_password _ _ _ _ _ _ Hsealed Hne). eauto.
Qed.

Section RotationExamples.
Import Symbolic SymbolicFacts.
#[local] Existing Instance platform.
#[local] Existing Instance laws.

Lemma provider_changeMasterPassword_does_not_rotate_witness :
  healthy world1 ∧ keyed_by_id world1 ∧
  currentVault session1 = Some vault1 ∧ vaultData session1 = Some defaultVaultData ∧
  db_vaults world1 !! vault_id vault1 =
    Some (created_record "Personal" "hunter2" world0) ∧
  decodeBase64 (ev_salt (created_record "Personal" "hunter2" world0)) =
    Some (fresh_bytes 16 world0) ∧
  "hunter3" ≠ "hunter2" ∧
  ∃ st' w' ev',
    provider_changeMasterPassword session1 "hunter2" "hunter3" world1 = (Ok tt, st', w') ∧
    masterPassword st' = Some "hunter3" ∧
    db_vaults w' !! vault_id vault1 = Some ev' ∧
    ev_salt ev' = ev_salt (created_record "Personal" "hunter2" world0) ∧
    (∃ opened w'',
       openVault (vault_id vault1) "hunter2" w' = (Ok (opened, defaultVaultData), w'')) ∧
    (∃ w'',
       openVault (vault_id vault1) "hunter3" w' = (Throw wrong_password_or_corrupt, w'')).
Proof.
  assert (Hsalt : decodeBase64 (ev_salt (created_record "Personal" "hunter2" world0)) =
                  Some (fresh_bytes 16 world0)) by apply decode64_encode64.
  assert (Hne : "hunter3" ≠ "hunter2") by done.
  split; [exact healthy_world1|]. split; [exact keyed_by_id_world1|].
  split; [reflexivity|]. split; [reflexivity|].
  split; [exact world1_record|]. split; [exact Hsalt|]. split; [exact Hne|].
  exact (provider_changeMasterPassword_does_not_rotate session1 vault1 defaultVaultData
           "hunter2" "hunter3" world1 _ _ healthy_world1 keyed_by_id_world1
           eq_refl eq_refl world1_record Hsalt Hne).
Defined.

(** The same run, evaluated: the provider reports success and remembers
    "hunter3", the vault still opens with "hunter2" only. *)
Example provider_rotation_evaluated :
  let '(outcome, st', w') :=
    provider_changeMasterPassword session1 "hunter2" "hunter3" world1 in
  outcome = Ok tt ∧ masterPassword st' = Some "hunter3" ∧
  (openVault "uuid-0" "hunter2" w').1 =
    Ok ({| vault_id := "uuid-0"; vault_name := "Personal";
           vault_createdAt := 1700000000000;
           vault_lastAccessed := 1700000000002;
           vault_lastModified := 1700000000001 |}, defaultVaultData) ∧
  (openVault "uuid-0" "hunter3" w').1 = Throw wrong_password_or_corrupt.
Proof. vm_compute. done. Qed.

(** With a mistyped current password the provider succeeds as well, and the
    vault then opens with the mistyped password only. *)
Example provider_rotation_mistyped :
  let '(outcome, st', w') :=
    provider_changeMasterPassword session1 "hunter1" "hunter3" world1 in
  outcome = Ok tt ∧
  (openVault "uuid-0" "hunter1" w').1 =
    Ok ({| vault_id := "uuid-0"; vault_name := "Personal";
           vault_createdAt := 1700000000000;
           vault_lastAccessed := 1700000000002;
           vault_lastModified := 1700000000001 |}, defaultVaultData) ∧
  (openVault "uuid-0" "hunter2" w').1 = Throw wrong_password_or_corrupt ∧
  (openVault "uuid-0" "hunter3" w').1 = Throw wrong_password_or_corrupt.
Proof. vm_compute. done. Qed.

(** The service's rotation on the same vault, evaluated. *)
Example service_rotation_evaluated :
  let '(outcome, w') := changeMasterPassword "uuid-0" "hunter2" "hunter3" world1 in
  outcome = Ok tt ∧
  (openVault "uuid-0" "hunter3" w').1 =
    Ok ({| vault_id := "uuid-0"; vault_name := "Personal";
           vault_createdAt := 1700000000000;
           vault_lastAccessed := 1700000000003;
           vault_lastModified := 1700000000002 |}, defaultVaultData) ∧
  (openVault "uuid-0" "hunter2" w').1 = Throw wrong_password_or_corrupt ∧
  ev_salt <$> db_vaults w' !! "uuid-0" ≠ ev_salt <$> db_vaults world1 !! "uuid-0".
Proof. vm_compute. split_and!; done. Qed.

End RotationExamples.

(** * More of the code *)

(** ** lib/storage.ts: the object stores *)

Lemma deleteVault_served id w :
  fault_at (oracle w) (io_pos w) = None →
  deleteVault id w = (Ok tt, with_vaults (delete id) (advance_io w)).
Proof. intros H. unfold deleteVault. rewrite idb_request_served; [reflexivity | exact H]. Qed.

Lemma getSettings_served w :
  fault_at (oracle w) (io_pos w) = None →
  getSettings w = (Ok (db_settings w !! "app-settings"), advance_io w).
Proof. intros H. unfold getSettings. rewrite idb_request_served; [reflexivity | exact H]. Qed.

Lemma getAllVaults_served w :
  fault_at (oracle w) (io_pos w) = None →
  getAllVaults w = (Ok (records_by_key (db_vaults w)), advance_io w).
Proof. intros H. unfold getAllVaults. rewrite idb_request_served; [reflexivity | exact H]. Qed.

Lemma records_by_key_perm (m : gmap string EncryptedVault) :
  records_by_key m ≡ₚ (map_to_list m).*2.
Proof. unfold records_by_key. by rewrite merge_sort_Permutation. Qed.

Lemma elem_of_records_by_key (m : gmap string EncryptedVault) ev :
  ev ∈ records_by_key m ↔ ∃ k, m !! k = Some ev.
Proof.
  rewrite records_by_key_perm, list_elem_of_fmap. split.
  - intros ([k ev'] & -> & Hin). exists k. by apply elem_of_map_to_list.
  - intros [k Hk]. exists (k, ev). split; [done|]. by apply elem_of_map_to_list.
Qed.

Lemma NoDup_records_by_key (m : gmap string EncryptedVault) :
  (∀ k ev, m !! k = Some ev → ev_id ev = k) → NoDup (ev_id <$> records_by_key m).
Proof.
  intros Hk. rewrite records_by_key_perm.
  replace (ev_id <$> (map_to_list m).*2) with (map_to_list m).*1;
    [apply NoDup_fst_map_to_list|].
  rewrite <- list_fmap_compose. apply list_fmap_ext.
  intros i [k ev] Hi. simpl. symmetry. apply Hk.
  by apply elem_of_map_to_list, list_elem_of_lookup_2 with i.
Qed.

Lemma length_records_by_key (m : gmap string EncryptedVault) :
  length (records_by_key m) = size m.
Proof. by rewrite records_by_key_perm, length_fmap, length_map_to_list. Qed.

(** X1. On a store that serves every request: a record that was saved is
    what [getVault] returns for its id, saving it leaves what [getVault]
    returns for every other id, and after [deleteVault] the id is absent,
    whether or not it was there. *)
Theorem vault_store_round_trip (vault : EncryptedVault) (id : string) (w : World) :
  healthy w →
  (∃ w', (saveVault vault ;; getVault (ev_id vault)) w = (Ok (Some vault), w')) ∧
  (id ≠ ev_id vault →
     ∃ w', (saveVault vault ;; getVault id) w = (Ok (db_vaults w !! id), w')) ∧
  (∃ w', (deleteVault id ;; getVault id) w = (Ok None, w')) ∧
  (id ≠ ev_id vault →
     ∃ w', (deleteVault id ;; getVault (ev_id vault)) w =
             (Ok (db_vaults w !! ev_id vault), w')).
Proof.
  intros Hw. split_and!.
  - rewrite (bind_ok _ _ _ _ _ (saveVault_served vault w (Hw _))).
    rewrite getVault_served by apply Hw. simpl. rewrite lookup_insert_eq. eauto.
  - intros Hne. rewrite (bind_ok _ _ _ _ _ (saveVault_served vault w (Hw _))).
    rewrite getVault_served by apply Hw. simpl.
    rewrite lookup_insert_ne by done. eauto.
  - rewrite (bind_ok _ _ _ _ _ (deleteVault_served id w (Hw _))).
    rewrite getVault_served by apply Hw. simpl. rewrite lookup_delete_eq. eauto.
  - intros Hne. rewrite (bind_ok _ _ _ _ _ (deleteVault_served id w (Hw _))).
    rewrite getVault_served by apply Hw. simpl.
    rewrite lookup_delete_ne by done. eauto.
Qed.

(** X2. On a store that serves every request, [getSettings] after
    [saveSettings] returns the settings saved last, and saving settings
    leaves the vault store alone. *)
Theorem settings_slot_round_trip (s1 s2 : AppSettings) (w : World) :
  healthy w →
  ∃ w',
    (saveSettings s1 ;; saveSettings s2 ;; getSettings) w = (Ok (Some s2), w') ∧
    db_vaults w' = db_vaults w.
Proof.
  intros Hw.
  rewrite (bind_ok _ _ _ _ _ (saveSettings_served s1 w (Hw _))).
  erewrite bind_ok; [|by apply saveSettings_served, Hw].
  rewrite getSettings_served by apply Hw. simpl.
  rewrite lookup_insert_eq. eauto.
Qed.

(** ** lib/storage.ts: backups *)

Lemma upsert_all_snoc m records vault :
  upsert_all m (records ++ [vault]) = <[ev_id vault := vault]> (upsert_all m records).
Proof. unfold upsert_all. by rewrite foldl_app. Qed.

(** The last record with a given id wins. *)
Lemma upsert_all_lookup records : ∀ m k,
  upsert_all m records !! k =
    match last (filter (λ vault, ev_id vault = k) records) with
    | Some vault => Some vault
    | None => m !! k
    end.
Proof.
  induction records as [|vault records IH] using rev_ind; intros m k; [done|].
  rewrite upsert_all_snoc, filter_app, lookup_insert.
  rewrite filter_cons, filter_nil. destruct (decide (ev_id vault = k)) as [Heq|Hne].
  - by rewrite last_snoc.
  - by rewrite app_nil_r, IH.
Qed.

Lemma upsert_all_absent records : ∀ m k,
  (∀ vault, vault ∈ records → ev_id vault ≠ k) → upsert_all m records !! k = m !! k.
Proof.
  induction records as [|x records IH]; intros m k Habsent; [done|].
  change (upsert_all m (x :: records)) with (upsert_all (<[ev_id x := x]> m) records).
  rewrite IH by (intros vault Hin; apply Habsent; by right).
  apply lookup_insert_ne, Habsent. by left.
Qed.

Lemma upsert_all_present records : ∀ m vault,
  NoDup (ev_id <$> records) → vault ∈ records →
  upsert_all m records !! ev_id vault = Some vault.
Proof.
  induction records as [|x records IH]; intros m vault Hnd Hin.
  - by apply elem_of_nil in Hin.
  - rewrite fmap_cons in Hnd. apply NoDup_cons in Hnd as [Hx Hnd].
    apply elem_of_cons in Hin as [->|Hin].
    + change (upsert_all m (x :: records))
        with (upsert_all (<[ev_id x := x]> m) records).
      rewrite upsert_all_absent; [apply lookup_insert_eq|].
      intros y Hy Heq. apply Hx. rewrite <- Heq. by apply list_elem_of_fmap_2.
    + by apply (IH (<[ev_id x := x]> m)).
Qed.

(** Putting back the records of a store keyed by id: the store wins over
    what was there. *)
Lemma upsert_all_values (m m0 : gmap string EncryptedVault) :
  (∀ k ev, m !! k = Some ev → ev_id ev = k) →
  upsert_all m0 (records_by_key m) = m ∪ m0.
Proof.
  intros Hk.
  apply map_eq. intros k. rewrite lookup_union.
  destruct (m !! k) as [ev|] eqn:Hev.
  - rewrite <- (Hk _ _ Hev), upsert_all_present.
    + by destruct (m0 !! ev_id ev).
    + by apply NoDup_records_by_key.
    + apply elem_of_records_by_key. by exists k.
  - rewrite upsert_all_absent; [by destruct (m0 !! k)|].
    intros ev Hin Heq. apply elem_of_records_by_key in Hin as [k' Hin].
    rewrite (Hk _ _ Hin) in Heq. congruence.
Qed.

Section Backups.
Context `{P : Platform}.

(** [importData] on a text that parses to an array of records, on a store
    that serves every request. *)
Lemma importData_served jsonData records backup_settings w :
  JSON_parse_backup jsonData = Some (BackupValue (VaultsArray records) backup_settings) →
  healthy w →
  ∃ w', importData jsonData w = (Ok tt, w') ∧
        db_vaults w' = upsert_all (db_vaults w) records ∧
        db_settings w' =
          match backup_settings with
          | Some s => <["app-settings" := s]> (db_settings w)
          | None => db_settings w
          end ∧
        oracle w' = oracle w.
Proof.
  intros Hparse Hw. unfold importData.
  rewrite (bind_ok _ _ w (BackupValue (VaultsArray records) backup_settings) w)
    by (by rewrite Hparse).
  simpl.
  destruct (saveVaults_served records w Hw) as (w1 & Hrun & Hv & Hs & Ho).
  rewrite (bind_ok _ _ _ _ _ Hrun).
  destruct backup_settings as [s|].
  - rewrite saveSettings_served by (rewrite Ho; apply Hw).
    eexists. split; [done|]. simpl. by rewrite Hv, Hs, Ho.
  - by exists w1.
Qed.

Lemma saveVaults_fault before : ∀ w vault after f,
  (∀ i, (i < length before)%nat → fault_at (oracle w) (io_pos w + i) = None) →
  fault_at (oracle w) (io_pos w + length before) = Some f →
  ∃ e w', saveVaults (before ++ vault :: after) w = (Throw e, w') ∧
          (e = Err "Failed to open database" ∨ e = Err "Failed to save vault") ∧
          db_vaults w' = upsert_all (db_vaults w) before ∧
          db_settings w' = db_settings w.
Proof.
  induction before as [|x before IH]; intros w vault after f Hserved Hfault; simpl.
  - rewrite Nat.add_0_r in Hfault.
    destruct (idb_request_fault "Failed to save vault"
                (λ w, (tt, with_vaults (insert (ev_id vault) vault) w)) w f Hfault)
      as (e & Hrun & He).
    exists e, (advance_io w). unfold saveVault.
    by rewrite (bind_throw _ _ _ _ _ Hrun).
  - assert (H0 : fault_at (oracle w) (io_pos w) = None).
    { rewrite <- (Nat.add_0_r (io_pos w)). apply Hserved. simpl. lia. }
    rewrite (bind_ok _ _ _ _ _ (saveVault_served x w H0)).
    destruct (IH (with_vaults (insert (ev_id x) x) (advance_io w)) vault after f)
      as (e & w' & Hrun & He & Hv & Hs).
    + intros i Hi. simpl. rewrite <- Nat.add_succ_r. apply Hserved. simpl. lia.
    + simpl. rewrite <- Nat.add_succ_r. exact Hfault.
    + exists e, w'. by rewrite Hrun.
Qed.

End Backups.

(** X3. A backup restores the stores. On stores that serve every request,
    [exportData] writes nothing, and [importData] of the exported text into
    any store leaves there every exported vault under its id, keeps the
    vaults the backup does not hold, and puts the exported settings, if any,
    in the settings slot. *)
Theorem exportData_importData `{P : Platform} `{E : ExportPlatform}
    {L : ExportLaws P E} (source target : World) :
  healthy source → keyed_by_id source → healthy target →
  ∃ text source' target',
    exportData source = (Ok text, source') ∧
    stores_eq source source' ∧
    importData text target = (Ok tt, target') ∧
    db_vaults target' = db_vaults source ∪ db_vaults target ∧
    db_settings target' =
      match db_settings source !! "app-settings" with
      | Some s => <["app-settings" := s]> (db_settings target)
      | None => db_settings target
      end.
Proof.
  intros Hs Hk Ht. unfold exportData.
  rewrite (bind_ok _ _ _ _ _ (getAllVaults_served source (Hs _))).
  erewrite bind_ok; [|by apply getSettings_served, Hs].
  rewrite (bind_ok _ _ _ _ _ (eq_refl : Date_now _ = (Ok _, _))).
  destruct (importData_served _ _ _ target
              (backup_round_trip (records_by_key (db_vaults source))
                 (db_settings source !! "app-settings")
                 (Date_toISOString (time_at (oracle source) (clock_pos source)))
                 DB_VERSION) Ht)
    as (target' & Hrun & Hv & Hset & _).
  eexists _, _, target'. split; [reflexivity|]. split; [by split|].
  split; [exact Hrun|]. split; [|exact Hset].
  rewrite Hv. by apply upsert_all_values.
Qed.

(** X4. Importing the same backup a second time changes nothing: the
    stores after the second import are the stores after the first. *)
Theorem importData_twice `{P : Platform} (jsonData : string)
    (records : list EncryptedVault) (backup_settings : option AppSettings)
    (w : World) :
  JSON_parse_backup jsonData = Some (BackupValue (VaultsArray records) backup_settings) →
  healthy w →
  ∃ w1 w2,
    importData jsonData w = (Ok tt, w1) ∧
    importData jsonData w1 = (Ok tt, w2) ∧
    stores_eq w1 w2.
Proof.
  intros Hparse Hw.
  destruct (importData_served _ _ _ w Hparse Hw) as (w1 & Hrun1 & Hv1 & Hs1 & Ho1).
  destruct (importData_served _ _ _ w1 Hparse (healthy_oracle _ _ Ho1 Hw))
    as (w2 & Hrun2 & Hv2 & Hs2 & _).
  exists w1, w2. split; [done|]. split; [done|]. split.
  - rewrite Hv2. apply map_eq. intros k.
    rewrite upsert_all_lookup, Hv1, upsert_all_lookup.
    by destruct (last _).
  - rewrite Hs2. destruct backup_settings as [s|]; [|done].
    rewrite Hs1. apply insert_insert_eq.
Qed.

(** X5. An import is not undone when a write fails. If the store serves the
    writes of the first records and fails the next one, [importData] fails
    with a storage error, the records before the failing one stay imported,
    and neither the later records nor the settings are written. *)
Theorem importData_stops_at_fault `{P : Platform} (jsonData : string)
    (before after : list EncryptedVault) (vault : EncryptedVault)
    (backup_settings : option AppSettings) (f : IOFault) (w : World) :
  JSON_parse_backup jsonData =
    Some (BackupValue (VaultsArray (before ++ vault :: after)) backup_settings) →
  (∀ i, (i < length before)%nat → fault_at (oracle w) (io_pos w + i) = None) →
  fault_at (oracle w) (io_pos w + length before) = Some f →
  ∃ e w',
    importData jsonData w = (Throw e, w') ∧
    (e = Err "Failed to open database" ∨ e = Err "Failed to save vault") ∧
    db_vaults w' = upsert_all (db_vaults w) before ∧
    db_settings w' = db_settings w.
Proof.
  intros Hparse Hserved Hfault. unfold importData.
  rewrite (bind_ok _ _ w _ w) by (by rewrite Hparse).
  simpl.
  destruct (saveVaults_fault before w vault after f Hserved Hfault)
    as (e & w' & Hrun & He & Hv & Hs).
  exists e, w'. by rewrite (bind_throw _ _ _ _ _ Hrun).
Qed.

(** ** lib/crypto.ts: checkPasswordStrength *)

(** The score as a sum of six points, capped. *)
Lemma checkPasswordStrength_points password :
  checkPasswordStrength password =
    Z.min 4
      (Z.b2z (bool_decide (8 ≤ length password)%nat) +
       Z.b2z (bool_decide (12 ≤ length password)%nat) +
       Z.b2z (regexp_test is_upper password) +
       Z.b2z (regexp_test is_lower password) +
       Z.b2z (regexp_test is_digit password) +
       Z.b2z (regexp_test is_other password)).
Proof.
  unfold checkPasswordStrength.
  destruct (regexp_test is_upper password), (regexp_test is_lower password),
    (regexp_test is_digit password), (regexp_test is_other password);
    repeat case_decide; rewrite ?bool_decide_eq_true_2, ?bool_decide_eq_false_2 by done;
    first [reflexivity | lia].
Qed.

Lemma regexp_test_app class (prefix suffix : list N) :
  regexp_test class (prefix ++ suffix)%list =
    regexp_test class prefix || regexp_test class suffix.
Proof. apply existsb_app. Qed.

Lemma b2z_mono (b b' : bool) : (b = true → b' = true) → (Z.b2z b ≤ Z.b2z b')%Z.
Proof. destruct b, b'; simpl; intros H; lia. Qed.

Lemma some_class (c : N) (rest : list N) :
  regexp_test is_upper (c :: rest) || regexp_test is_lower (c :: rest) ||
  regexp_test is_digit (c :: rest) || regexp_test is_other (c :: rest) = true.
Proof.
  unfold regexp_test, is_other. simpl.
  destruct (is_upper c), (is_lower c), (is_digit c); simpl; try done;
    by rewrite ?orb_true_r.
Qed.

Lemma checkPasswordStrength_bounds (password : list N) :
  (0 ≤ checkPasswordStrength password ≤ 4)%Z.
Proof.
  rewrite checkPasswordStrength_points.
  destruct (bool_decide (8 ≤ length password)%nat),
    (bool_decide (12 ≤ length password)%nat),
    (regexp_test is_upper password), (regexp_test is_lower password),
    (regexp_test is_digit password), (regexp_test is_other password);
    simpl; lia.
Qed.

(** X6. The score of [checkPasswordStrength] lies between 0 and 4, and it
    is 0 for the empty password only. *)
Theorem checkPasswordStrength_range (password : list N) :
  (0 ≤ checkPasswordStrength password ≤ 4)%Z ∧
  (checkPasswordStrength password = 0 ↔ password = []).
Proof.
  split; [apply checkPasswordStrength_bounds|].
  rewrite checkPasswordStrength_points.
  - split.
    + destruct password as [|c rest]; [done|]. intros Hzero. exfalso.
      pose proof (some_class c rest) as Hsome.
      destruct (bool_decide (8 ≤ length (c :: rest))%nat),
        (bool_decide (12 ≤ length (c :: rest))%nat),
        (regexp_test is_upper (c :: rest)), (regexp_test is_lower (c :: rest)),
        (regexp_test is_digit (c :: rest)), (regexp_test is_other (c :: rest));
        simpl in *; try lia; done.
    + intros ->. reflexivity.
Qed.

(** X7. Adding characters in front of or behind a password never lowers
    its score. *)
Theorem checkPasswordStrength_monotone (prefix password suffix : list N) :
  (checkPasswordStrength password ≤
   checkPasswordStrength (prefix ++ password ++ suffix)%list)%Z.
Proof.
  rewrite !checkPasswordStrength_points.
  apply Z.min_le_compat_l.
  assert (Hlen : (length password ≤ length (prefix ++ password ++ suffix)%list)%nat)
    by (rewrite !length_app; lia).
  assert (Hclass : ∀ class, regexp_test class password = true →
            regexp_test class (prefix ++ password ++ suffix)%list = true).
  { intros class H. rewrite !regexp_test_app, H. by rewrite orb_true_r. }
  repeat apply Z.add_le_mono; apply b2z_mono; auto.
  - intros H. apply bool_decide_eq_true in H. apply bool_decide_eq_true. lia.
  - intros H. apply bool_decide_eq_true in H. apply bool_decide_eq_true. lia.
Qed.

(** [generatePassword] with a class selected and within the quota. *)
Lemma generatePassword_served length options w :
  any_selected options = true → (N.of_nat length ≤ random_quota)%N →
  ∃ password,
    generatePassword length options w = (Ok password, advance_rng length w) ∧
    String.length password = length.
Proof.
  intros Hsel Hquota.
  assert (Hne : String.length (charset options) ≠ 0%nat).
  { intros H0. apply charset_empty in H0. congruence. }
  unfold generatePassword. rewrite decide_False by done.
  rewrite (bind_ok _ _ _ _ _ (getRandomValues_ok _ _ Hquota)).
  destruct (foldl_pick (charset options)
              (random_byte (oracle w) <$> seq (rng_pos w) length) Hne "")
    as (picked & Heq & Hall).
  eexists. split; [reflexivity|].
  rewrite <- length_chars_of, Heq. simpl.
  apply Forall2_length in Hall. by rewrite <- Hall, length_fmap, length_seq.
Qed.

Lemma length_code_units s : length (code_units s) = String.length s.
Proof. unfold code_units. by rewrite length_fmap, length_chars_of. Qed.

Lemma long_password_strength password :
  (12 ≤ length password)%nat → (3 ≤ checkPasswordStrength password ≤ 4)%Z.
Proof.
  intros Hlen. split; [|apply checkPasswordStrength_bounds].
  rewrite checkPasswordStrength_points.
  rewrite !bool_decide_eq_true_2 by lia.
  destruct password as [|c rest]; [simpl in Hlen; lia|].
  pose proof (some_class c rest) as Hsome.
  destruct (regexp_test is_upper (c :: rest)), (regexp_test is_lower (c :: rest)),
    (regexp_test is_digit (c :: rest)), (regexp_test is_other (c :: rest));
    simpl in *; try lia; done.
Qed.

(** X8. A generated password of at least 12 characters scores 3 or 4,
    whatever the random bytes and whichever classes are selected. *)
Theorem generated_password_strength (length : nat)
    (options : PasswordGenerationOptions) (w : World) :
  any_selected options = true → (12 ≤ length)%nat →
  (N.of_nat length ≤ random_quota)%N →
  ∃ password,
    generatePassword length options w = (Ok password, advance_rng length w) ∧
    (3 ≤ checkPasswordStrength (code_units password) ≤ 4)%Z.
Proof.
  intros Hsel Hlen Hquota.
  destruct (generatePassword_served length options w Hsel Hquota)
    as (password & Hrun & Hl).
  exists password. split; [done|].
  apply long_password_strength. rewrite length_code_units. lia.
Qed.

(** X25. The credential form's [handleGeneratePassword] always succeeds: it
    draws 16 random bytes, puts a password of 16 characters in the form and
    displays a strength of 3 or 4. *)
Theorem handleGeneratePassword_strength (w : World) :
  ∃ password strength,
    handleGeneratePassword w = (Ok (password, strength), advance_rng 16 w) ∧
    String.length password = 16%nat ∧ (3 ≤ strength ≤ 4)%Z.
Proof.
  destruct (generatePassword_served 16 (mkOptions true true true true) w eq_refl)
    as (password & Hrun & Hl); [by vm_compute|].
  exists password, (checkPasswordStrength (code_units password)).
  unfold handleGeneratePassword. rewrite (bind_ok _ _ _ _ _ Hrun).
  split; [done|]. split; [done|].
  apply long_password_strength. rewrite length_code_units. lia.
Qed.

(** ** lib/vault.ts: what an operation may touch *)

Lemma respects_ret {A} (R : World → World → Prop) (a : A) :
  (∀ w, R w w) → respects R (ret a).
Proof. intros Hrefl w o w' H. injection H as <- <-. apply Hrefl. Qed.

Lemma respects_throw {A} (R : World → World → Prop) e :
  (∀ w, R w w) → respects R (@throw A e).
Proof. intros Hrefl w o w' H. injection H as <- <-. apply Hrefl. Qed.

Lemma respects_bind {A B} (R : World → World → Prop) (m : M A) (k : A → M B) :
  (∀ w1 w2 w3, R w1 w2 → R w2 w3 → R w1 w3) →
  respects R m → (∀ a, respects R (k a)) → respects R (bind m k).
Proof.
  intros Htrans Hm Hk w o w' H. unfold bind in H.
  destruct (m w) as [[a|e] w1] eqn:E.
  - eapply Htrans; [by eapply Hm | by eapply Hk].
  - injection H as <- <-. by eapply Hm.
Qed.

Lemma touches_only_refl id w : touches_only id w w.
Proof. by split. Qed.

Lemma touches_only_trans id w1 w2 w3 :
  touches_only id w1 w2 → touches_only id w2 w3 → touches_only id w1 w3.
Proof.
  intros [Hs1 H1] [Hs2 H2]. split; [congruence|]. intros Hk.
  destruct (H1 Hk) as [Hk2 Hv1]. destruct (H2 Hk2) as [Hk3 Hv2].
  split; [done|]. intros k Hne. by rewrite Hv2, Hv1.
Qed.

Lemma touches_only_stores_eq id w w' : stores_eq w w' → touches_only id w w'.
Proof.
  intros [Hv Hs]. split; [done|]. intros Hk. split.
  - by apply (keyed_by_id_same w).
  - intros k _. by rewrite Hv.
Qed.

Lemma respects_quiet {A} id (m : M A) : quiet m → respects (touches_only id) m.
Proof. intros Hq w o w' H. by eapply touches_only_stores_eq, Hq. Qed.

Lemma touches_only_insert id ev w w1 :
  stores_eq w w1 → ev_id ev = id →
  touches_only id w (with_vaults (insert (ev_id ev) ev) w1).
Proof.
  intros [Hv Hs] Hid. split; [done|]. intros Hk. split.
  - apply keyed_by_id_insert. by apply (keyed_by_id_same w).
  - intros k Hne. simpl. rewrite lookup_insert_ne by congruence. by rewrite Hv.
Qed.

Section Confinement.
Context `{P : Platform}.

Lemma respects_openVault id password : respects (touches_only id) (openVault id password).
Proof.
  intros w [[vault data]|e] w' H.
  - destruct (openVault_ok _ _ _ _ _ _ H) as (ev & Hev & _ & _ & ->).
    split; [done|]. intros Hk. 
    destruct (touches_only_insert id (touch ev (time_at (oracle w) (clock_pos w))) w
                (advance_io (advance_clock (advance_io w)))) as [_ Hins];
      [by split | exact (Hk _ _ Hev) | by apply Hins].
  - apply touches_only_stores_eq. by apply openVault_throw_keeps_stores in H.
Qed.

Lemma respects_updateVault id password data newName :
  respects (touches_only id) (updateVault id password data newName).
Proof.
  intros w [vault|e] w' H.
  - destruct (updateVault_ok _ _ _ _ _ _ _ H) as (ev & salt & Hev & _ & _ & ->).
    split; [done|]. intros Hk.
    destruct (touches_only_insert id (updated_record ev password data newName salt w) w
                (advance_io (advance_clock (advance_rng 12 (advance_io w))))) as [_ Hins];
      [by split | exact (Hk _ _ Hev) | by apply Hins].
  - apply touches_only_stores_eq. by apply updateVault_throw_stores in H.
Qed.

Lemma respects_then_update {A} id password (data : Vault * VaultData → VaultData) (a : A) :
  respects (touches_only id)
    (opened <- openVault id password ;;
     updateVault id password (data opened) None ;; ret a).
Proof.
  apply respects_bind; [apply touches_only_trans | apply respects_openVault |].
  intros opened.
  apply respects_bind; [apply touches_only_trans | apply respects_updateVault |].
  intros _. apply respects_ret, touches_only_refl.
Qed.

End Confinement.

Section ConfinementOfOperations.
Context `{P : Platform}.

Lemma respects_deleteVault id : respects (touches_only id) (deleteVault id).
Proof.
  intros w o w' H. unfold deleteVault, idb_request in H.
  destruct (fault_at _ _) as [[]|]; injection H as <- <-;
    try (apply touches_only_stores_eq; by split).
  split; [done|]. intros Hk. split.
  - intros k ev. simpl. intros Hl. apply lookup_delete_Some in Hl as [_ Hl]. by apply Hk.
  - intros k Hne. simpl. by rewrite lookup_delete_ne.
Qed.

Lemma createVault_outcome name password w o w' :
  createVault name password w = (o, w') →
  stores_eq w w' ∨ w' = created_world name password w.
Proof.
  destruct (fault_at (oracle w) (io_pos w)) as [f|] eqn:Hio.
  - destruct o as [i|e]; [|left; by eapply createVault_throw_stores].
    unfold createVault. intros H.
    rewrite (bind_ok _ _ _ _ _ (eq_refl : randomUUID w = (Ok _, _))) in H.
    rewrite (bind_ok _ _ _ _ _ (generateKeyFromPassword_fresh _ _)) in H.
    rewrite (bind_ok _ _ _ _ _ (encrypt_run _ _ _)) in H.
    rewrite (bind_ok _ _ _ _ _ (eq_refl : Date_now _ = (Ok _, _))) in H.
    apply bind_inv_ok in H as (? & w1 & Hsave & _).
    unfold saveVault, idb_request in Hsave. simpl in Hsave.
    rewrite Hio in Hsave. by destruct f.
  - rewrite createVault_served by done. intros H. injection H as <- <-. by right.
Qed.

Lemma respects_rotation_write id key salt data :
  respects (touches_only id)
    (ei <- encrypt key data ;;
     let '(encryptedData, iv) := ei in
     existingVault <- getVault id ;;
     match existingVault with
     | None => throw (Err "Vault not found")
     | Some existingVault =>
         now <- Date_now ;;
         saveVault
           {| ev_id := ev_id existingVault;
              ev_name := ev_name existingVault;
              ev_encryptedData := arrayBufferToBase64 encryptedData;
              ev_iv := arrayBufferToBase64 iv;
              ev_salt := arrayBufferToBase64 salt;
              ev_createdAt := ev_createdAt existingVault;
              ev_lastAccessed := now;
              ev_lastModified := now |}
     end).
Proof.
  intros w o w' H.
  rewrite (bind_ok _ _ _ _ _ (encrypt_run _ _ _)) in H.
  destruct (fault_at (oracle w) (io_pos w)) as [f|] eqn:Hio.
  - set (w1 := advance_rng 12 w) in *.
    destruct (idb_request_fault "Failed to retrieve vault"
                (λ w, (db_vaults w !! id, w)) w1 f Hio) as (e1 & Hget & _).
    unfold getVault in H. rewrite (bind_throw _ _ _ _ _ Hget) in H.
    injection H as <- <-. apply touches_only_stores_eq. by split.
  - erewrite bind_ok in H; [|by apply getVault_served].
    simpl in H. destruct (db_vaults w !! id) as [ev|] eqn:Hev.
    + rewrite (bind_ok _ _ _ _ _ (eq_refl : Date_now _ = (Ok _, _))) in H.
      unfold saveVault, idb_request in H. simpl in H.
      destruct (fault_at (oracle w) (S (io_pos w))) as [[]|];
        injection H as <- <-; try (apply touches_only_stores_eq; by split).
      split; [done|]. intros Hk. split.
      * intros k ev'. simpl. rewrite lookup_insert. case_decide.
        -- intros Hl. by injection Hl as <-.
        -- apply Hk.
      * intros k Hne. simpl. rewrite (Hk _ _ Hev). by rewrite lookup_insert_ne.
    + injection H as <- <-. apply touches_only_stores_eq. by split.
Qed.

End ConfinementOfOperations.

(** X9. No operation on a vault writes anything but that vault's record.
    Whatever its outcome, each operation of lib/vault.ts addressed to an id
    leaves the settings store as it was; on a vault store keyed by id it
    keeps it keyed by id and leaves the record of every other id as it was.
    For [createVault] the id is the UUID it draws. *)
Theorem vault_operations_touch_one_record `{P : Platform} (id password : string) :
  respects (touches_only id) (openVault id password) ∧
  (∀ data newName, respects (touches_only id) (updateVault id password data newName)) ∧
  (∀ newPassword,
     respects (touches_only id) (changeMasterPassword id password newPassword)) ∧
  (∀ credential, respects (touches_only id) (addCredential id password credential)) ∧
  (∀ credentialId updates,
     respects (touches_only id) (updateCredential id password credentialId updates)) ∧
  (∀ credentialId,
     respects (touches_only id) (deleteCredential id password credentialId)) ∧
  (∀ newSettings,
     respects (touches_only id) (updateVaultSettings id password newSettings)) ∧
  respects (touches_only id) (removeVault id) ∧
  (∀ name w o w',
     createVault name password w = (o, w') →
     touches_only (uuid_at (oracle w) (uuid_pos w)) w w').
Proof.
  split_and!.
  - apply respects_openVault.
  - intros. apply respects_updateVault.
  - intros newPassword. unfold changeMasterPassword.
    apply respects_bind; [apply touches_only_trans | apply respects_openVault |].
    intros opened.
    apply respects_bind; [apply touches_only_trans | |].
    { apply respects_quiet, quiet_generateKeyFromPassword. }
    intros [key salt]. apply respects_rotation_write.
  - intros credential. unfold addCredential.
    apply respects_bind; [apply touches_only_trans | apply respects_openVault |].
    intros opened.
    apply respects_bind; [apply touches_only_trans | |].
    { apply respects_quiet, quiet_Date_now. }
    intros now.
    apply respects_bind; [apply touches_only_trans | |].
    { apply respects_quiet, quiet_randomUUID. }
    intros uuid.
    apply respects_bind; [apply touches_only_trans | apply respects_updateVault |].
    intros _. apply respects_ret, touches_only_refl.
  - intros credentialId updates. unfold updateCredential.
    apply respects_bind; [apply touches_only_trans | apply respects_openVault |].
    intros opened. destruct (list_find _ _) as [[index found]|].
    + apply respects_bind; [apply touches_only_trans | |].
      { apply respects_quiet, quiet_Date_now. }
      intros now.
      apply respects_bind; [apply touches_only_trans | apply respects_updateVault |].
      intros _. apply respects_ret, touches_only_refl.
    + apply respects_throw, touches_only_refl.
  - intros credentialId. apply respects_then_update.
  - intros newSettings. apply respects_then_update.
  - apply respects_deleteVault.
  - intros name w o w' H.
    destruct (createVault_outcome _ _ _ _ _ H) as [Heq| ->].
    + by apply touches_only_stores_eq.
    + apply (touches_only_insert _ (created_record name password w) w
               (advance_io (advance_clock (advance_rng 12 (advance_rng 16 (advance_uuid w))))));
        by split.
Qed.

(** ** lib/vault.ts: operations that succeed *)

Section Mutations.
Context `{P : Platform} {L : PlatformLaws P}.

(** [updateVault] on a world that differs from the one [openVault] left
    only in what was drawn from the environment since. *)
Lemma updateVault_after_open id password data' w ev data w2 :
  healthy w → keyed_by_id w →
  db_vaults w !! id = Some ev → unseal ev password = Some data →
  oracle w2 = oracle w → stores_eq (opened_world ev w) w2 →
  ∃ w' ev',
    updateVault id password data' None w2 = (Ok (metadata ev'), w') ∧
    db_vaults w' = <[id := ev']> (db_vaults w) ∧
    db_settings w' = db_settings w ∧
    unseal ev' password = Some data' ∧
    ev_name ev' = ev_name ev ∧ ev_salt ev' = ev_salt ev ∧
    ev_createdAt ev' = ev_createdAt ev ∧
    keyed_by_id w' ∧ oracle w' = oracle w.
Proof.
  intros Hw Hk Hev Hu Ho [Hv Hs].
  destruct (unseal_salt _ _ _ Hu) as [salt Hsalt].
  pose proof (Hk _ _ Hev) as Hid.
  set (stamped := touch ev (time_at (oracle w) (clock_pos w))).
  assert (Hw2 : healthy w2) by (by apply (healthy_oracle w)).
  assert (Hev2 : db_vaults w2 !! id = Some stamped).
  { rewrite Hv. simpl. rewrite Hid. apply lookup_insert_eq. }
  assert (Hsalt2 : decodeBase64 (ev_salt stamped) = Some salt) by done.
  exists (with_vaults (insert (ev_id stamped) (updated_record stamped password data' None salt w2))
            (advance_io (advance_clock (advance_rng 12 (advance_io w2))))),
         (updated_record stamped password data' None salt w2).
  split_and!; try done.
  - by apply updateVault_reseals.
  - simpl. rewrite Hv. simpl. rewrite Hid. apply insert_insert_eq.
  - by apply updated_record_unseals.
  - apply (keyed_by_id_insert
             (advance_io (advance_clock (advance_rng 12 (advance_io w2))))
             (updated_record stamped password data' None salt w2)).
    apply (keyed_by_id_same (opened_world ev w)); [done|].
    apply (keyed_by_id_insert (advance_io (advance_clock (advance_io w))) stamped).
    by apply (keyed_by_id_same w).
Qed.

Lemma updateCredential_served id password credentialId updates w ev data index found :
  healthy w → keyed_by_id w →
  db_vaults w !! id = Some ev → unseal ev password = Some data →
  list_find (λ c, cred_id c = credentialId) (credentials data) = Some (index, found) →
  let updated := apply_updates found updates (time_at (oracle w) (S (clock_pos w))) in
  ∃ w' ev',
    updateCredential id password credentialId updates w = (Ok updated, w') ∧
    db_vaults w' = <[id := ev']> (db_vaults w) ∧
    unseal ev' password =
      Some (with_credentials data (<[index := updated]> (credentials data))) ∧
    keyed_by_id w' ∧ oracle w' = oracle w.
Proof.
  intros Hw Hk Hev Hu Hfind updated.
  unfold updateCredential.
  rewrite (bind_ok _ _ _ _ _ (openVault_opens _ _ _ _ _ Hw Hev Hu)).
  simpl. rewrite Hfind.
  rewrite (bind_ok _ _ _ _ _ (eq_refl : Date_now _ = (Ok _, _))).
  edestruct (updateVault_after_open id password
               (with_credentials data (<[index := updated]> (credentials data)))
               w ev data (advance_clock (opened_world ev w)))
    as (w' & ev' & Hrun & Hv & _ & Hu' & _ & _ & _ & Hk' & Ho'); try done.
  exists w', ev'. by rewrite (bind_ok _ _ _ _ _ Hrun).
Qed.

Lemma deleteCredential_served id password credentialId w ev data :
  healthy w → keyed_by_id w →
  db_vaults w !! id = Some ev → unseal ev password = Some data →
  ∃ w' ev',
    deleteCredential id password credentialId w = (Ok tt, w') ∧
    db_vaults w' = <[id := ev']> (db_vaults w) ∧
    unseal ev' password =
      Some (with_credentials data
              (filter (λ c, cred_id c ≠ credentialId) (credentials data))) ∧
    keyed_by_id w' ∧ oracle w' = oracle w.
Proof.
  intros Hw Hk Hev Hu.
  unfold deleteCredential.
  rewrite (bind_ok _ _ _ _ _ (openVault_opens _ _ _ _ _ Hw Hev Hu)).
  edestruct (updateVault_after_open id password
               (with_credentials data
                  (filter (λ c, cred_id c ≠ credentialId) (credentials data)))
               w ev data (opened_world ev w))
    as (w' & ev' & Hrun & Hv & _ & Hu' & _ & _ & _ & Hk' & Ho'); try done.
  exists w', ev'. simpl. by rewrite (bind_ok _ _ _ _ _ Hrun).
Qed.

Lemma updateVaultSettings_served id password newSettings w ev data :
  healthy w → keyed_by_id w →
  db_vaults w !! id = Some ev → unseal ev password = Some data →
  ∃ w' ev',
    updateVaultSettings id password newSettings w = (Ok tt, w') ∧
    db_vaults w' = <[id := ev']> (db_vaults w) ∧
    unseal ev' password =
      Some {| credentials := credentials data;
              settings := Some (merge_settings (settings data) newSettings) |} ∧
    keyed_by_id w' ∧ oracle w' = oracle w.
Proof.
  intros Hw Hk Hev Hu.
  unfold updateVaultSettings.
  rewrite (bind_ok _ _ _ _ _ (openVault_opens _ _ _ _ _ Hw Hev Hu)).
  edestruct (updateVault_after_open id password
               {| credentials := credentials data;
                  settings := Some (merge_settings (settings data) newSettings) |}
               w ev data (opened_world ev w))
    as (w' & ev' & Hrun & Hv & _ & Hu' & _ & _ & _ & Hk' & Ho'); try done.
  exists w', ev'. simpl. by rewrite (bind_ok _ _ _ _ _ Hrun).
Qed.

Lemma reopen id password w ev data :
  healthy w → db_vaults w = <[id := ev]> (db_vaults w) ∨ db_vaults w !! id = Some ev →
  unseal ev password = Some data →
  ∃ vault w', openVault id password w = (Ok (vault, data), w').
Proof.
  intros Hw Hev Hu.
  assert (Hl : db_vaults w !! id = Some ev).
  { destruct Hev as [Heq|Hl]; [|done]. rewrite Heq. apply lookup_insert_eq. }
  eexists _, _. by apply openVault_opens.
Qed.

End Mutations.

(** X10. Opening a vault twice with its password, on a store that serves
    every request, returns the same data both times; the first call leaves
    the stored record as it was except for the [lastAccessed] stamp, which
    is the time it read, and the metadata it returns carries that stamp. *)
Theorem openVault_twice `{P : Platform} {L : PlatformLaws P}
    (id password : string) (w : World) (ev : EncryptedVault) (data : VaultData) :
  healthy w → keyed_by_id w →
  db_vaults w !! id = Some ev → unseal ev password = Some data →
  ∃ first w1 second w2,
    openVault id password w = (Ok (first, data), w1) ∧
    openVault id password w1 = (Ok (second, data), w2) ∧
    vault_lastAccessed first = time_at (oracle w) (clock_pos w) ∧
    db_vaults w1 = <[id := touch ev (vault_lastAccessed first)]> (db_vaults w) ∧
    first = metadata (touch ev (vault_lastAccessed first)) ∧
    second = metadata (touch ev (vault_lastAccessed second)).
Proof.
  intros Hw Hk Hev Hu. pose proof (Hk _ _ Hev) as Hid.
  set (stamped := touch ev (time_at (oracle w) (clock_pos w))).
  assert (Hw1 : healthy (opened_world ev w)) by (by apply (healthy_oracle w)).
  assert (Hev1 : db_vaults (opened_world ev w) !! id = Some stamped).
  { simpl. rewrite Hid. apply lookup_insert_eq. }
  eexists _, _, _, _. split; [by apply openVault_opens|].
  split; [by apply (openVault_opens id password (opened_world ev w) stamped)|].
  split; [done|]. split; [simpl; by rewrite Hid|]. done.
Qed.

(** X11. [updateVault] and then [openVault] with the same password, on a
    store that serves every request, return the data that was written,
    whatever password that is, provided the stored salt decodes. The vault
    is renamed only by a new name that is not empty, and both time stamps of
    the returned metadata are the time [updateVault] read. *)
Theorem updateVault_then_openVault `{P : Platform} {L : PlatformLaws P}
    (id password : string) (data : VaultData) (newName : option string)
    (w : World) (ev : EncryptedVault) (salt : list byte) :
  healthy w → keyed_by_id w →
  db_vaults w !! id = Some ev → decodeBase64 (ev_salt ev) = Some salt →
  ∃ updated w1 opened w2,
    updateVault id password data newName w = (Ok updated, w1) ∧
    openVault id password w1 = (Ok (opened, data), w2) ∧
    vault_name updated =
      match newName with
      | Some name => if decide (name = "") then ev_name ev else name
      | None => ev_name ev
      end ∧
    vault_name opened = vault_name updated ∧
    vault_lastModified updated = time_at (oracle w) (clock_pos w) ∧
    vault_lastAccessed updated = time_at (oracle w) (clock_pos w) ∧
    vault_createdAt updated = ev_createdAt ev.
Proof.
  intros Hw Hk Hev Hsalt. pose proof (Hk _ _ Hev) as Hid.
  set (written := updated_record ev password data newName salt w).
  set (w1 := with_vaults (insert (ev_id ev) written)
               (advance_io (advance_clock (advance_rng 12 (advance_io w))))).
  assert (Hw1 : healthy w1) by (by apply (healthy_oracle w)).
  assert (Hev1 : db_vaults w1 !! id = Some written).
  { subst w1. simpl. rewrite Hid. apply lookup_insert_eq. }
  exists (metadata written), w1. eexists _, _.
  split; [by apply updateVault_reseals|].
  split; [apply openVault_opens; [done..|by apply updated_record_unseals]|].
  done.
Qed.

(** X12. [updateCredential] for the first credential with the given id, on
    a store that serves every request: the credential keeps its id and
    [createdAt]; it takes the title, username and password the update
    provides and keeps the others; an optional member (url, notes, category,
    tags) is the one the update holds, is erased when the update holds it
    with the value [undefined], and is kept when the update leaves it out;
    [lastModified] is the current time even if the update carries one. The
    vault then opens to its settings and to a credential sequence of the
    same length with the updated credential at the place of the old one and
    every other credential as it was. *)
Theorem updateCredential_in_place `{P : Platform} {L : PlatformLaws P}
    (id password credentialId : string) (updates : CredentialUpdates)
    (w : World) (ev : EncryptedVault) (data : VaultData)
    (index : nat) (found : Credential) :
  healthy w → keyed_by_id w →
  db_vaults w !! id = Some ev → unseal ev password = Some data →
  list_find (λ c, cred_id c = credentialId) (credentials data) = Some (index, found) →
  ∃ updated w' vault opened w'',
    updateCredential id password credentialId updates w = (Ok updated, w') ∧
    cred_id updated = credentialId ∧
    cred_createdAt updated = cred_createdAt found ∧
    cred_lastModified updated = time_at (oracle w) (S (clock_pos w)) ∧
    cred_title updated = default (cred_title found) (upd_title updates) ∧
    cred_username updated = default (cred_username found) (upd_username updates) ∧
    cred_password updated = default (cred_password found) (upd_password updates) ∧
    cred_url updated =
      match upd_url updates with
      | Absent => cred_url found | Undefined => None | Present x => Some x
      end ∧
    cred_notes updated =
      match upd_notes updates with
      | Absent => cred_notes found | Undefined => None | Present x => Some x
      end ∧
    cred_category updated =
      match upd_category updates with
      | Absent => cred_category found | Undefined => None | Present x => Some x
      end ∧
    cred_tags updated =
      match upd_tags updates with
      | Absent => cred_tags found | Undefined => None | Present x => Some x
      end ∧
    openVault id password w' = (Ok (vault, opened), w'') ∧
    settings opened = settings data ∧
    length (credentials opened) = length (credentials data) ∧
    credentials opened !! index = Some updated ∧
    (∀ j, j ≠ index → credentials opened !! j = credentials data !! j).
Proof.
  intros Hw Hk Hev Hu Hfind.
  destruct (updateCredential_served id password credentialId updates w ev data
              index found Hw Hk Hev Hu Hfind) as (w' & ev' & Hrun & Hv & Hu' & Hk' & Ho').
  apply list_find_Some in Hfind as (Hlookup & Hid & _).
  destruct (reopen id password w' ev' _ (healthy_oracle _ _ Ho' Hw)
              (or_intror (eq_ind_r (λ m, m !! id = Some ev') (lookup_insert_eq _ _ _) Hv)) Hu')
    as (vault & w'' & Hopen).
  eexists _, w', vault, _, w''. split; [exact Hrun|].
  split_and!; try done.
  - apply length_insert.
  - apply list_lookup_insert_eq. by eapply lookup_lt_Some.
  - intros j Hj. by apply list_lookup_insert_ne.
Qed.

Lemma filter_keeps_all {A} (Q : A → Prop) `{∀ x, Decision (Q x)} (l : list A) :
  (∀ x, x ∈ l → Q x) → filter Q l = l.
Proof.
  induction l as [|x l IH]; intros Hall; [done|].
  rewrite filter_cons_True by (apply Hall; by left).
  f_equal. apply IH. intros y Hy. apply Hall. by right.
Qed.

(** X13. [deleteCredential] on a store that serves every request succeeds
    whether or not the vault holds the id. The vault then opens to its
    settings and to the credentials whose id is different, in their order:
    every credential with the id is gone, and when none has it the sequence
    is unchanged. *)
Theorem deleteCredential_removes `{P : Platform} {L : PlatformLaws P}
    (id password credentialId : string)
    (w : World) (ev : EncryptedVault) (data : VaultData) :
  healthy w → keyed_by_id w →
  db_vaults w !! id = Some ev → unseal ev password = Some data →
  ∃ w' vault opened w'',
    deleteCredential id password credentialId w = (Ok tt, w') ∧
    openVault id password w' = (Ok (vault, opened), w'') ∧
    settings opened = settings data ∧
    credentials opened = filter (λ c, cred_id c ≠ credentialId) (credentials data) ∧
    (∀ c, c ∈ credentials opened ↔ c ∈ credentials data ∧ cred_id c ≠ credentialId) ∧
    credentials opened `sublist_of` credentials data ∧
    (credentialId ∉ cred_id <$> credentials data →
       credentials opened = credentials data).
Proof.
  intros Hw Hk Hev Hu.
  destruct (deleteCredential_served id password credentialId w ev data Hw Hk Hev Hu)
    as (w' & ev' & Hrun & Hv & Hu' & Hk' & Ho').
  destruct (reopen id password w' ev' _ (healthy_oracle _ _ Ho' Hw)
              (or_intror (eq_ind_r (λ m, m !! id = Some ev') (lookup_insert_eq _ _ _) Hv)) Hu')
    as (vault & w'' & Hopen).
  eexists w', vault, _, w''. split; [exact Hrun|]. split; [exact Hopen|].
  simpl. split_and!; try done.
  - intros c. rewrite list_elem_of_filter. tauto.
  - apply sublist_filter.
  - intros Habsent. apply filter_keeps_all. intros c Hc Heq.
    apply Habsent. rewrite <- Heq. by apply list_elem_of_fmap_2.
Qed.

(** X14. [updateVaultSettings] on a store that serves every request: the
    vault then opens to the same credentials and to settings in which each
    member is the one provided, or else the one it had; absent settings
    become a settings object. *)
Theorem updateVaultSettings_merges `{P : Platform} {L : PlatformLaws P}
    (id password : string) (newSettings : option VaultSettings)
    (w : World) (ev : EncryptedVault) (data : VaultData) :
  healthy w → keyed_by_id w →
  db_vaults w !! id = Some ev → unseal ev password = Some data →
  ∃ merged w' vault w'',
    updateVaultSettings id password newSettings w = (Ok tt, w') ∧
    openVault id password w' =
      (Ok (vault, {| credentials := credentials data; settings := Some merged |}), w'') ∧
    autoLockTimeout merged =
      match newSettings ≫= autoLockTimeout with
      | Some x => Some x
      | None => settings data ≫= autoLockTimeout
      end ∧
    categories merged =
      match newSettings ≫= categories with
      | Some x => Some x
      | None => settings data ≫= categories
      end ∧
    defaultCategory merged =
      match newSettings ≫= defaultCategory with
      | Some x => Some x
      | None => settings data ≫= defaultCategory
      end.
Proof.
  intros Hw Hk Hev Hu.
  destruct (updateVaultSettings_served id password newSettings w ev data Hw Hk Hev Hu)
    as (w' & ev' & Hrun & Hv & Hu' & Hk' & Ho').
  destruct (reopen id password w' ev' _ (healthy_oracle _ _ Ho' Hw)
              (or_intror (eq_ind_r (λ m, m !! id = Some ev') (lookup_insert_eq _ _ _) Hv)) Hu')
    as (vault & w'' & Hopen).
  by eexists _, w', vault, w''.
Qed.

Section Listing.
Context `{P : Platform}.

Lemma getVaults_served w :
  fault_at (oracle w) (io_pos w) = None →
  getVaults w = (Ok (metadata <$> records_by_key (db_vaults w)), advance_io w).
Proof.
  intros Hio. unfold getVaults.
  by rewrite (bind_ok _ _ _ _ _ (getAllVaults_served w Hio)).
Qed.

Lemma listed_ids (records : list EncryptedVault) :
  vault_id <$> (metadata <$> records) = ev_id <$> records.
Proof. rewrite <- list_fmap_compose. by apply list_fmap_ext. Qed.

End Listing.

(** X15. [getVaults], when the store answers, lists the stored vaults and
    nothing else: on a store keyed by id it returns one entry per record,
    with pairwise different ids, and an entry is returned exactly when it
    is the metadata of the record stored under its id. It writes nothing. *)
Theorem getVaults_lists_the_store `{P : Platform} (w : World) :
  fault_at (oracle w) (io_pos w) = None → keyed_by_id w →
  ∃ vaults w',
    getVaults w = (Ok vaults, w') ∧ stores_eq w w' ∧
    length vaults = size (db_vaults w) ∧
    NoDup (vault_id <$> vaults) ∧
    (∀ v, v ∈ vaults ↔ ∃ ev, db_vaults w !! vault_id v = Some ev ∧ v = metadata ev).
Proof.
  intros Hio Hk. eexists _, _. split; [by apply getVaults_served|].
  split; [by split|]. split_and!.
  - by rewrite length_fmap, length_records_by_key.
  - rewrite listed_ids. by apply NoDup_records_by_key.
  - intros v. split.
    + intros Hin. apply list_elem_of_fmap in Hin as (ev & -> & Hin).
      apply elem_of_records_by_key in Hin as [k Hin]. simpl. exists ev.
      by rewrite (Hk _ _ Hin).
    + intros (ev & Hev & ->). apply list_elem_of_fmap_2.
      apply elem_of_records_by_key. by eexists.
Qed.

(** X16. After [removeVault], on a store that serves every request, the
    vault cannot be opened ("Vault not found") and is no longer listed,
    whether or not it existed; every other record is as it was. *)
Theorem removeVault_then_openVault `{P : Platform}
    (id password : string) (w : World) :
  healthy w → keyed_by_id w →
  ∃ w1,
    removeVault id w = (Ok tt, w1) ∧
    (∃ w2, openVault id password w1 = (Throw (Err "Vault not found"), w2)) ∧
    (∃ vaults w2, getVaults w1 = (Ok vaults, w2) ∧ id ∉ vault_id <$> vaults) ∧
    (∀ k, k ≠ id → db_vaults w1 !! k = db_vaults w !! k).
Proof.
  intros Hw Hk. exists (with_vaults (delete id) (advance_io w)).
  split; [by apply deleteVault_served|]. split_and!.
  - rewrite openVault_served by apply Hw. simpl. rewrite lookup_delete_eq. eauto.
  - eexists _, _. split; [apply getVaults_served, Hw|]. simpl.
    rewrite listed_ids.
    intros Hin. apply list_elem_of_fmap in Hin as (ev & Heq & Hin).
    apply elem_of_records_by_key in Hin as [k Hin].
    apply lookup_delete_Some in Hin as [Hne Hin].
    apply Hne. rewrite Heq. by apply (Hk k ev).
  - intros k Hne. simpl. by rewrite lookup_delete_ne.
Qed.

(** ** lib/context.tsx: the provider's copy of the open vault *)

Section ProviderSync.
Context `{P : Platform} {L : PlatformLaws P}.

Lemma in_sync_session st w data :
  in_sync st w data →
  ∃ vault password ev,
    open_session (setError None (setIsLoading true st)) = Some (vault, password, data) ∧
    currentVault st = Some vault ∧ masterPassword st = Some password ∧ password ≠ "" ∧
    db_vaults w !! vault_id vault = Some ev ∧ unseal ev password = Some data.
Proof.
  intros (vault & password & ev & Hv & Hp & Hne & Hd & Hev & Hu).
  exists vault, password, ev. split_and!; try done.
  unfold open_session. simpl. rewrite Hv, Hp, Hd. by rewrite decide_False.
Qed.

Lemma provider_action_ok {A} failure call update st w vault password data (a : A) w' :
  open_session (setError None (setIsLoading true st)) = Some (vault, password, data) →
  call vault password data w = (Ok a, w') →
  ∃ st',
    provider_action failure call update st w = (Ok a, st', w') ∧
    currentVault st' = currentVault st ∧ masterPassword st' = masterPassword st ∧
    vaultData st' = Some (update data a) ∧ error st' = None ∧ isLoading st' = false.
Proof.
  intros Hs Hcall. eexists. unfold provider_action. rewrite Hs, Hcall.
  by split_and!.
Qed.

Lemma map_replaces_one (cs : list Credential) id index found updated :
  NoDup (cred_id <$> cs) →
  list_find (λ c, cred_id c = id) cs = Some (index, found) →
  (λ c, if decide (cred_id c = id) then updated else c) <$> cs = <[index := updated]> cs.
Proof.
  intros Hnd Hfind. apply list_find_Some in Hfind as (Hi & Hid & _).
  apply list_eq. intros j. rewrite list_lookup_fmap.
  destruct (decide (j = index)) as [->|Hne].
  - rewrite Hi. simpl. rewrite decide_True by done.
    symmetry. apply list_lookup_insert_eq. by apply lookup_lt_Some with found.
  - rewrite list_lookup_insert_ne by done.
    destruct (cs !! j) as [c|] eqn:Hj; [|done]. simpl.
    rewrite decide_False; [done|]. intros Hc. apply Hne.
    apply (NoDup_lookup (cred_id <$> cs) j index id); [done|..];
      rewrite list_lookup_fmap.
    + by rewrite Hj; simpl; rewrite Hc.
    + by rewrite Hi; simpl; rewrite Hid.
Qed.

Lemma merge_settings_again old new :
  merge_settings old (Some (merge_settings old new)) = merge_settings old new.
Proof.
  unfold merge_settings. simpl.
  f_equal;
    [destruct (new ≫= autoLockTimeout), (old ≫= autoLockTimeout)
    |destruct (new ≫= categories), (old ≫= categories)
    |destruct (new ≫= defaultCategory), (old ≫= defaultCategory)]; done.
Qed.

End ProviderSync.

(** X17. The provider's [addCredential], [deleteCredential] and
    [updateVaultSettings] keep its copy of the open vault equal to what the
    stored record decrypts to: started with a copy that is what the record
    holds, on a store that serves every request, each succeeds, clears the
    error and the loading flag, and leaves a copy that is again what the
    record of the open vault holds under the master password. *)
Theorem provider_actions_stay_in_sync `{P : Platform} {L : PlatformLaws P}
    (st : AppState) (w : World) (data : VaultData) :
  healthy w → keyed_by_id w → in_sync st w data →
  (∀ credential, ∃ c st' w',
     provider_addCredential credential st w = (Ok c, st', w') ∧
     in_sync st' w' (with_credentials data (credentials data ++ [c])) ∧
     error st' = None ∧ isLoading st' = false) ∧
  (∀ id, ∃ st' w',
     provider_deleteCredential id st w = (Ok tt, st', w') ∧
     in_sync st' w'
       (with_credentials data (filter (λ c, cred_id c ≠ id) (credentials data))) ∧
     error st' = None ∧ isLoading st' = false) ∧
  (∀ newSettings, ∃ st' w',
     provider_updateVaultSettings newSettings st w = (Ok tt, st', w') ∧
     in_sync st' w'
       {| credentials := credentials data;
          settings := Some (merge_settings (settings data) newSettings) |} ∧
     error st' = None ∧ isLoading st' = false).
Proof.
  intros Hw Hk Hsync.
  destruct (in_sync_session _ _ _ Hsync)
    as (vault & password & ev & Hs & Hv & Hp & Hne & Hev & Hu).
  split_and!.
  - intros credential.
    destruct (addCredential_served (vault_id vault) password credential w ev data
                Hw Hk Hev Hu) as (w' & ev' & Hrun & Hev' & Hu' & _).
    destruct (provider_action_ok "Failed to add credential"
                (λ vault password _, addCredential (vault_id vault) password credential)
                (λ data newCredential,
                   with_credentials data (credentials data ++ [newCredential]))
                st w vault password data _ w' Hs Hrun)
      as (st' & Hact & Hv' & Hp' & Hd' & He' & Hl').
    eexists _, st', w'. split; [exact Hact|]. split; [|done].
    exists vault, password, ev'. rewrite Hv', Hp'. by split_and!.
  - intros id.
    destruct (deleteCredential_served (vault_id vault) password id w ev data
                Hw Hk Hev Hu) as (w' & ev' & Hrun & Hev' & Hu' & _).
    destruct (provider_action_ok "Failed to delete credential"
                (λ vault password _, deleteCredential (vault_id vault) password id)
                (λ data _,
                   with_credentials data (filter (λ c, cred_id c ≠ id) (credentials data)))
                st w vault password data _ w' Hs Hrun)
      as (st' & Hact & Hv' & Hp' & Hd' & He' & Hl').
    exists st', w'. split; [exact Hact|]. split; [|done].
    exists vault, password, ev'. rewrite Hv', Hp'. split_and!; try done.
    rewrite Hev'. apply lookup_insert_eq.
  - intros newSettings.
    destruct (updateVaultSettings_served (vault_id vault) password
                (Some (merge_settings (settings data) newSettings)) w ev data
                Hw Hk Hev Hu) as (w' & ev' & Hrun & Hev' & Hu' & _).
    rewrite merge_settings_again in Hu'.
    destruct (provider_action_ok "Failed to update vault settings"
                (λ vault password data,
                   updateVaultSettings (vault_id vault) password
                     (Some (merge_settings (settings data) newSettings)))
                (λ data _,
                   {| credentials := credentials data;
                      settings := Some (merge_settings (settings data) newSettings) |})
                st w vault password data _ w' Hs Hrun)
      as (st' & Hact & Hv' & Hp' & Hd' & He' & Hl').
    exists st', w'. split; [exact Hact|]. split; [|done].
    exists vault, password, ev'. rewrite Hv', Hp'. split_and!; try done.
    rewrite Hev'. apply lookup_insert_eq.
Qed.

(** X18. The provider's [updateCredential], with a copy of the open vault
    that is what the stored record holds, on a store that serves every
    request, for an id one of the credentials has: the action succeeds; in
    the provider's copy every credential with the id is replaced by the
    updated one, while in the stored record the first one is; the settings
    are kept in both. When the ids of the vault's credentials are pairwise
    different the two are the same, and the provider's copy is again what
    the stored record holds. *)
Theorem provider_updateCredential_in_sync `{P : Platform} {L : PlatformLaws P}
    (st : AppState) (w : World) (data : VaultData)
    (id : string) (updates : CredentialUpdates) (index : nat) (found : Credential) :
  healthy w → keyed_by_id w → in_sync st w data →
  list_find (λ c, cred_id c = id) (credentials data) = Some (index, found) →
  ∃ updated st' w' vault password ev' local stored,
    provider_updateCredential id updates st w = (Ok updated, st', w') ∧
    error st' = None ∧ isLoading st' = false ∧
    vaultData st' = Some local ∧
    credentials local =
      (λ c, if decide (cred_id c = id) then updated else c) <$> credentials data ∧
    settings local = settings data ∧
    currentVault st' = Some vault ∧ masterPassword st' = Some password ∧
    db_vaults w' !! vault_id vault = Some ev' ∧
    unseal ev' password = Some stored ∧
    credentials stored = <[index := updated]> (credentials data) ∧
    settings stored = settings data ∧
    (NoDup (cred_id <$> credentials data) → local = stored ∧ in_sync st' w' stored).
Proof.
  intros Hw Hk Hsync Hfind.
  destruct (in_sync_session _ _ _ Hsync)
    as (vault & password & ev & Hs & Hv & Hp & Hne & Hev & Hu).
  destruct (updateCredential_served (vault_id vault) password id updates w ev data
              index found Hw Hk Hev Hu Hfind) as (w' & ev' & Hrun & Hev' & Hu' & _).
  destruct (provider_action_ok "Failed to update credential"
              (λ vault password _, updateCredential (vault_id vault) password id updates)
              (λ data updatedCredential,
                 with_credentials data
                   ((λ c, if decide (cred_id c = id) then updatedCredential else c)
                      <$> credentials data))
              st w vault password data _ w' Hs Hrun)
    as (st' & Hact & Hv' & Hp' & Hd' & He' & Hl').
  assert (Hstored : db_vaults w' !! vault_id vault = Some ev')
    by (rewrite Hev'; apply lookup_insert_eq).
  eexists _, st', w', vault, password, ev', _, _.
  split; [exact Hact|]. split; [exact He'|]. split; [exact Hl'|].
  split; [exact Hd'|]. split; [reflexivity|]. split; [reflexivity|].
  split; [by rewrite Hv'|]. split; [by rewrite Hp'|].
  split; [exact Hstored|]. split; [exact Hu'|].
  split; [reflexivity|]. split; [reflexivity|].
  intros Hnd.
  assert (Heq : with_credentials data
                  ((λ c, if decide (cred_id c = id)
                         then apply_updates found updates
                                (time_at (oracle w) (S (clock_pos w)))
                         else c) <$> credentials data) =
                with_credentials data
                  (<[index := apply_updates found updates
                                (time_at (oracle w) (S (clock_pos w)))]>
                     (credentials data)))
    by (by rewrite (map_replaces_one _ _ _ _ _ Hnd Hfind)).
  split; [exact Heq|].
  exists vault, password, ev'. rewrite Hv', Hp', Hd', Heq. by split_and!.
Qed.

(** X19. [openExistingVault] establishes what the provider's actions keep:
    on a store that serves every request, for a vault that opens with the
    given, non-empty, password, it succeeds, unlocks, clears the error and
    leaves a copy of the vault's data that is what the stored record holds;
    the store stays keyed by id and keeps serving. *)
Theorem provider_openExistingVault_in_sync `{P : Platform} {L : PlatformLaws P}
    (id password : string) (ps : ProviderState) (w : World)
    (ev : EncryptedVault) (data : VaultData) :
  healthy w → keyed_by_id w →
  db_vaults w !! id = Some ev → unseal ev password = Some data → password ≠ "" →
  ∃ ps' w',
    provider_openExistingVault id password ps w = (Ok tt, ps', w') ∧
    in_sync (app ps') w' data ∧
    isLocked ps' = false ∧ error (app ps') = None ∧ isLoading (app ps') = false ∧
    healthy w' ∧ keyed_by_id w'.
Proof.
  intros Hw Hk Hev Hu Hne.
  pose proof (Hk _ _ Hev) as Hid.
  eexists _, (opened_world ev w).
  unfold provider_openExistingVault.
  rewrite (openVault_opens _ _ _ _ _ Hw Hev Hu).
  split; [reflexivity|]. split_and!; try done.
  - exists (opened_vault ev w), password, (touch ev (time_at (oracle w) (clock_pos w))).
    split_and!; try done. simpl. apply lookup_insert_eq.
  - apply (keyed_by_id_insert (advance_io (advance_clock (advance_io w)))
             (touch ev (time_at (oracle w) (clock_pos w)))).
    by apply (keyed_by_id_same w).
Qed.

(** X20. After [lockVault] the provider holds neither the data nor the
    password, and each of its credential and settings actions fails with
    "No vault is open", sets its own error message and leaves the world as
    it was: no request reaches the store. *)
Theorem lockVault_closes_session `{P : Platform} (ps : ProviderState) (w : World) :
  let st := app (lockVault ps) in
  vaultData st = None ∧ masterPassword st = None ∧ isLocked (lockVault ps) = true ∧
  currentVault st = currentVault (app ps) ∧
  (∀ credential, ∃ st',
     provider_addCredential credential st w = (Throw (Err "No vault is open"), st', w) ∧
     error st' = Some "Failed to add credential") ∧
  (∀ id updates, ∃ st',
     provider_updateCredential id updates st w = (Throw (Err "No vault is open"), st', w) ∧
     error st' = Some "Failed to update credential") ∧
  (∀ id, ∃ st',
     provider_deleteCredential id st w = (Throw (Err "No vault is open"), st', w) ∧
     error st' = Some "Failed to delete credential") ∧
  (∀ newSettings, ∃ st',
     provider_updateVaultSettings newSettings st w =
       (Throw (Err "No vault is open"), st', w) ∧
     error st' = Some "Failed to update vault settings").
Proof.
  assert (Hs : open_session (setError None (setIsLoading true (app (lockVault ps)))) = None).
  { unfold open_session. simpl. by destruct (currentVault (app ps)). }
  intros st. subst st. split_and!; try done; intros; eexists;
    unfold provider_addCredential, provider_updateCredential,
      provider_deleteCredential, provider_updateVaultSettings, provider_action;
    rewrite Hs; by split.
Qed.

(** X21. [importData] fails with "Invalid backup format" exactly when the
    text parses to a value other than null whose [vaults] member is not an
    array (missing, falsy or of another kind); and whenever it fails with
    that error, with the SyntaxError of [JSON.parse] or with the TypeError
    of reading a member of null, the world is as it was: nothing has been
    written and no request has been made. *)
Theorem importData_invalid_backup `{P : Platform} (jsonData : string) (w : World) :
  ((∃ w', importData jsonData w = (Throw invalid_backup, w')) ↔
   (∃ vaults backup_settings,
      JSON_parse_backup jsonData = Some (BackupValue vaults backup_settings) ∧
      Array_isArray vaults = false)) ∧
  (∀ e w', importData jsonData w = (Throw e, w') →
     e = invalid_backup ∨ e = SyntaxError ∨ e = TypeError → w' = w).
Proof.
  unfold importData, invalid_backup.
  destruct (JSON_parse_backup jsonData) as [[|vaults backup_settings]|] eqn:Hparse.
  - rewrite (bind_ok _ _ w BackupNull w) by reflexivity. split.
    + split; [intros [w' H]; by simplify_eq | intros (? & ? & ? & _); done].
    + intros e w' H _. unfold throw in H. by simplify_eq.
  - rewrite (bind_ok _ _ w (BackupValue vaults backup_settings) w) by reflexivity.
    destruct vaults as [| | |records]; simpl.
    1-3: split;
      [split; [intros _; by eexists _, _ | intros _; by eexists]
      |intros e w' H _; unfold throw in H; by simplify_eq].
    assert (Hother : ∀ e w',
              bind (saveVaults records)
                (λ _, match backup_settings with
                      | Some s => saveSettings s
                      | None => ret tt
                      end) w = (Throw e, w') →
              e = Err "Failed to open database" ∨ e = Err "Failed to save vault" ∨
              e = Err "Failed to save settings").
    { intros e w' Hrun.
      apply bind_inv_throw in Hrun as [Hrun|(a & w1 & _ & Hrun)].
      - destruct (saveVaults_throw _ _ _ _ Hrun) as [-> | ->]; auto.
      - destruct backup_settings as [s|]; [|done].
        unfold saveSettings, idb_request in Hrun.
        destruct (fault_at _ _) as [[]|]; simplify_eq; auto. }
    split.
    + split.
      * intros [w' H]. by destruct (Hother _ _ H) as [?|[?|?]].
      * intros (? & ? & ? & ?). by simplify_eq.
    + intros e w' H He. destruct (Hother _ _ H) as [-> | [-> | ->]];
        by destruct He as [?|[?|?]].
  - rewrite (bind_throw _ _ w SyntaxError w) by reflexivity. split.
    + split; [intros [w' H]; by simplify_eq | intros (? & ? & ? & _); done].
    + intros e w' H _. unfold throw in H. by simplify_eq.
Qed.

Section ServiceFailures.
Context `{P : Platform}.

Lemma openVault_refuses id password w ev :
  db_vaults w !! id = Some ev → unseal ev password = None →
  ∃ e w', openVault id password w = (Throw e, w') ∧
          (fault_at (oracle w) (io_pos w) = None → e = wrong_password_or_corrupt).
Proof.
  intros Hev Hu.
  destruct (fault_at (oracle w) (io_pos w)) as [f|] eqn:Hio.
  - destruct (idb_request_fault "Failed to retrieve vault"
                (λ w, (db_vaults w !! id, w)) w f Hio) as (e & Hget & _).
    exists e, (advance_io w). split; [|done].
    unfold openVault, getVault. by rewrite (bind_throw _ _ _ _ _ Hget).
  - rewrite openVault_served, Hev, Hu by done. eauto.
Qed.

Lemma unseal_touch ev lastAccessed password :
  unseal (touch ev lastAccessed) password = unseal ev password.
Proof. done. Qed.

End ServiceFailures.

(** X22. The service's [changeMasterPassword] rotates the key: on a store
    that serves every request, for a vault that opens with the current
    password and a new password different from it, it succeeds; the record
    then stored under the id carries the salt freshly drawn for it and the
    name, id and creation time it had; [openVault] with the new password
    returns the same data and [openVault] with the old one fails with the
    generic error. *)
Theorem service_changeMasterPassword_rotates `{P : Platform} {L : PlatformLaws P}
    (id currentPassword newPassword : string) (w : World)
    (ev : EncryptedVault) (data : VaultData) :
  healthy w → keyed_by_id w →
  db_vaults w !! id = Some ev → unseal ev currentPassword = Some data →
  currentPassword ≠ newPassword →
  ∃ w' ev',
    changeMasterPassword id currentPassword newPassword w = (Ok tt, w') ∧
    db_vaults w' !! id = Some ev' ∧
    ev_salt ev' = encodeBase64 (fresh_bytes 16 w) ∧
    ev_id ev' = ev_id ev ∧ ev_name ev' = ev_name ev ∧
    ev_createdAt ev' = ev_createdAt ev ∧
    (∃ vault w'', openVault id newPassword w' = (Ok (vault, data), w'')) ∧
    (∃ w'', openVault id currentPassword w' = (Throw wrong_password_or_corrupt, w'')).
Proof.
  intros Hw Hk Hev Hu Hne.
  destruct (changeMasterPassword_rotates id currentPassword newPassword w ev data
              Hw Hk Hev Hu) as (w' & Hrun & Hev' & Hsalt & _ & _ & Hnew & Hold).
  exists w', (rotated_record ev newPassword data w). split_and!; try done.
  by apply Hold.
Qed.

(** X23. The service's [changeMasterPassword] checks the current password
    before anything else: when the stored record does not decrypt under it,
    the call fails and both stores are as they were, so the vault still
    opens with its real password; when the read was served the error is the
    generic one of [openVault]. *)
Theorem service_changeMasterPassword_wrong_current `{P : Platform}
    (id currentPassword newPassword : string) (w : World) (ev : EncryptedVault) :
  db_vaults w !! id = Some ev → unseal ev currentPassword = None →
  ∃ e w',
    changeMasterPassword id currentPassword newPassword w = (Throw e, w') ∧
    stores_eq w w' ∧
    (fault_at (oracle w) (io_pos w) = None → e = wrong_password_or_corrupt).
Proof.
  intros Hev Hu.
  destruct (openVault_refuses id currentPassword w ev Hev Hu) as (e & w' & Hopen & He).
  exists e, w'. split_and!; [|by apply (openVault_throw_keeps_stores _ _ _ _ _ Hopen)|done].
  unfold changeMasterPassword. by rewrite (bind_throw _ _ _ _ _ Hopen).
Qed.

(** X24. [updateCredential] for a credential id the vault does not hold, on
    a store that serves every request: it fails with "Credential not found"
    after [openVault] has written its stamp, so the vault's record differs
    from the one before in [lastAccessed] only and still decrypts to the
    same data, and no other record and no setting changes. *)
Theorem updateCredential_unknown_id `{P : Platform} {L : PlatformLaws P}
    (id password credentialId : string) (updates : CredentialUpdates)
    (w : World) (ev : EncryptedVault) (data : VaultData) :
  healthy w → keyed_by_id w →
  db_vaults w !! id = Some ev → unseal ev password = Some data →
  credentialId ∉ cred_id <$> credentials data →
  ∃ w',
    updateCredential id password credentialId updates w =
      (Throw (Err "Credential not found"), w') ∧
    db_vaults w' = <[id := touch ev (time_at (oracle w) (clock_pos w))]> (db_vaults w) ∧
    unseal (touch ev (time_at (oracle w) (clock_pos w))) password = Some data ∧
    db_settings w' = db_settings w.
Proof.
  intros Hw Hk Hev Hu Habsent.
  assert (Hfind : list_find (λ c, cred_id c = credentialId) (credentials data) = None).
  { apply list_find_None, Forall_forall. intros c Hc Heq. apply Habsent.
    rewrite <- Heq. by apply list_elem_of_fmap_2. }
  destruct (updateCredential_absent id password credentialId updates w ev data
              Hw Hk Hev Hu Hfind) as [Hrun Hv].
  exists (opened_world ev w). split_and!; try done.
Qed.

(** ** lib/context.tsx: changing the password of a locked vault *)

Section LockedRotation.
Context `{P : Platform}.

Lemma updateVault_stringify id password data newName :
  updateVault id password data newName =
    updateVault_text id password (JSON_stringify data) newName.
Proof. reflexivity. Qed.

Lemma encrypt_text_run key text w :
  encrypt_text key text w =
    (Ok (aes_gcm_encrypt key (fresh_bytes 12 w) (TextEncoder_encode text),
         fresh_bytes 12 w), advance_rng 12 w).
Proof.
  unfold encrypt_text.
  rewrite (bind_ok _ _ _ _ _ (getRandomValues_ok 12 w ltac:(by vm_compute))).
  reflexivity.
Qed.

Lemma updateVault_text_served id password text newName w ev salt :
  healthy w → db_vaults w !! id = Some ev → decodeBase64 (ev_salt ev) = Some salt →
  ∃ ev',
    updateVault_text id password text newName w =
      (Ok (metadata ev'),
       with_vaults (insert (ev_id ev) ev')
         (advance_io (advance_clock (advance_rng 12 (advance_io w))))) ∧
    ev_salt ev' = ev_salt ev ∧
    ev_iv ev' = encodeBase64 (fresh_bytes 12 w) ∧
    ev_encryptedData ev' =
      encodeBase64 (aes_gcm_encrypt (key_of password salt) (fresh_bytes 12 w)
                      (TextEncoder_encode text)).
Proof.
  intros Hw Hev Hsalt. unfold updateVault_text.
  rewrite (bind_ok _ _ _ _ _ (getVault_served id w (Hw _))), Hev.
  unfold try_catch, base64ToArrayBuffer. rewrite Hsalt.
  rewrite (bind_ok _ _ _ _ _ (eq_refl : of_option (Some salt) _ _ = (Ok salt, _))).
  rewrite (bind_ok _ _ _ _ _ (generateKeyFromPassword_given _ _ _)).
  rewrite (bind_ok _ _ _ _ _ (encrypt_text_run _ _ _)).
  cbn [fst snd].
  rewrite (bind_ok _ _ _ _ _ (eq_refl : Date_now _ = (Ok _, _))).
  unfold saveVault, idb_request, bind, ret. simpl. rewrite (Hw _).
  eexists. split; [reflexivity|]. by split_and!.
Qed.

End LockedRotation.

(** X26. The provider's [changeMasterPassword] on a locked vault. After
    [lockVault] the vault's metadata is still there and the data is not;
    the non-null assertion lets the call through, so on a store that
    serves every request it reports success for any current password,
    remembers the new one, and overwrites the stored record: the record
    keeps its salt, and what it now holds, decrypted with the key of the
    current password as typed, is the text [null], not the vault's
    credentials. *)
Theorem provider_changeMasterPassword_after_lock `{P : Platform} {L : PlatformLaws P}
    (ps : ProviderState) (vault : Vault) (currentPassword newPassword : string)
    (w : World) (ev : EncryptedVault) (salt : list byte) :
  healthy w → keyed_by_id w →
  currentVault (app ps) = Some vault →
  db_vaults w !! vault_id vault = Some ev →
  decodeBase64 (ev_salt ev) = Some salt →
  ∃ st' w' ev',
    provider_changeMasterPassword (app (lockVault ps)) currentPassword newPassword w =
      (Ok tt, st', w') ∧
    masterPassword st' = Some newPassword ∧ vaultData st' = None ∧ error st' = None ∧
    db_vaults w' !! vault_id vault = Some ev' ∧
    ev_salt ev' = ev_salt ev ∧
    (encryptedData ← decodeBase64 (ev_encryptedData ev');
     iv ← decodeBase64 (ev_iv ev');
     aes_gcm_decrypt (key_of currentPassword salt) iv encryptedData) =
      Some (TextEncoder_encode "null").
Proof.
  intros Hw Hk Hcv Hev Hsalt.
  destruct (updateVault_text_served (vault_id vault) currentPassword "null" None
              w ev salt Hw Hev Hsalt) as (ev' & Hrun & Hs & Hiv & Hct).
  eexists _, _, ev'. unfold provider_changeMasterPassword. simpl.
  rewrite Hcv, Hrun. split; [reflexivity|]. split_and!; try done.
  - simpl. rewrite (Hk _ _ Hev). apply lookup_insert_eq.
  - rewrite Hct, Hiv, !base64_round_trip. simpl. apply aes_gcm_correct.
Qed.

(** * The added properties on the symbolic platform *)

Section MoreExamples.
Import Symbolic SymbolicFacts.
#[local] Existing Instance platform.
#[local] Existing Instance laws.
#[local] Existing Instance export_platform.

Lemma parse_stringify_backup b : parse_backup (stringify_backup b) = Some b.
Proof.
  unfold parse_backup, stringify_backup. rewrite decide_False.
  - rewrite bits_of_string_of_bits. apply decode_encode.
  - by destruct (encode b) as [[[]|[]|]|[[]|[]|]|].
Qed.

Lemma export_laws : ExportLaws platform export_platform.
Proof. split. intros. apply parse_stringify_backup. Qed.

#[local] Existing Instance export_laws.

Lemma healthy_world1_overwritten : healthy world1_overwritten.
Proof. intros n. reflexivity. Qed.

Lemma record1_salt : decodeBase64 (ev_salt record1) = Some (fresh_bytes 16 world0).
Proof. apply decode64_encode64. Qed.

Lemma world1_overwritten_eq :
  world1_overwritten =
    with_vaults (insert (ev_id record1) record1_overwritten)
      (advance_io (advance_clock (advance_rng 12 (advance_io world1)))).
Proof.
  unfold world1_overwritten.
  by rewrite (updateVault_reseals "uuid-0" "hunter3" one_credential None world1
                record1 (fresh_bytes 16 world0) healthy_world1 world1_record record1_salt).
Qed.

Lemma keyed_by_id_world1_overwritten : keyed_by_id world1_overwritten.
Proof.
  rewrite world1_overwritten_eq.
  apply (keyed_by_id_insert
           (advance_io (advance_clock (advance_rng 12 (advance_io world1))))
           record1_overwritten).
  apply (keyed_by_id_same world1); [done|apply keyed_by_id_world1].
Qed.

Lemma world1_overwritten_record :
  db_vaults world1_overwritten !! "uuid-0" = Some record1_overwritten.
Proof. rewrite world1_overwritten_eq. apply lookup_insert_eq. Qed.

Lemma record1_overwritten_unseals :
  unseal record1_overwritten "hunter3" = Some one_credential.
Proof. apply updated_record_unseals, record1_salt. Qed.

Lemma record1_wrong_password : unseal record1 "hunter1" = None.
Proof.
  by apply (unseal_other_password record1 "hunter2" _ _ _ "hunter1"
              (created_record_sealed "Personal" "hunter2" world0)).
Qed.

Lemma in_sync_session1 : in_sync session1 world1 defaultVaultData.
Proof.
  exists vault1, "hunter2", record1.
  split_and!; first [apply world1_record | apply world1_unseals | done].
Qed.

Lemma in_sync_session_overwritten :
  in_sync session_overwritten world1_overwritten one_credential.
Proof.
  exists vault1, "hunter3", record1_overwritten.
  split_and!;
    first [apply world1_overwritten_record | apply record1_overwritten_unseals | done].
Qed.


Lemma vault_store_round_trip_witness :
  healthy world0 ∧
  (∃ w', (saveVault record1 ;; getVault (ev_id record1)) world0 =
           (Ok (Some record1), w')) ∧
  ("uuid-9" ≠ ev_id record1 →
     ∃ w', (saveVault record1 ;; getVault "uuid-9") world0 =
             (Ok (db_vaults world0 !! "uuid-9"), w')) ∧
  (∃ w', (deleteVault "uuid-9" ;; getVault "uuid-9") world0 = (Ok None, w')) ∧
  ("uuid-9" ≠ ev_id record1 →
     ∃ w', (deleteVault "uuid-9" ;; getVault (ev_id record1)) world0 =
             (Ok (db_vaults world0 !! ev_id record1), w')).
Proof.
  split; [exact healthy_world0|].
  exact (vault_store_round_trip record1 "uuid-9" world0 healthy_world0).
Defined.

Lemma settings_slot_round_trip_witness :
  healthy world0 ∧
  ∃ w',
    (saveSettings dark ;; saveSettings light ;; getSettings) world0 =
      (Ok (Some light), w') ∧
    db_vaults w' = db_vaults world0.
Proof.
  split; [exact healthy_world0|].
  exact (settings_slot_round_trip dark light world0 healthy_world0).
Defined.

Lemma exportData_importData_witness :
  healthy world1 ∧ keyed_by_id world1 ∧ healthy world0 ∧
  ∃ text source' target',
    exportData world1 = (Ok text, source') ∧
    stores_eq world1 source' ∧
    importData text world0 = (Ok tt, target') ∧
    db_vaults target' = db_vaults world1 ∪ db_vaults world0 ∧
    db_settings target' =
      match db_settings world1 !! "app-settings" with
      | Some s => <["app-settings" := s]> (db_settings world0)
      | None => db_settings world0
      end.
Proof.
  split; [exact healthy_world1|]. split; [exact keyed_by_id_world1|].
  split; [exact healthy_world0|].
  exact (exportData_importData world1 world0
           healthy_world1 keyed_by_id_world1 healthy_world0).
Defined.

Lemma importData_twice_witness :
  JSON_parse_backup backup1 = Some (BackupValue (VaultsArray [record1]) None) ∧
  healthy world0 ∧
  ∃ w1 w2,
    importData backup1 world0 = (Ok tt, w1) ∧
    importData backup1 w1 = (Ok tt, w2) ∧
    stores_eq w1 w2.
Proof.
  split; [exact (parse_stringify_backup _)|]. split; [exact healthy_world0|].
  exact (importData_twice backup1 [record1] None world0
           (parse_stringify_backup _) healthy_world0).
Defined.

Lemma importData_stops_at_fault_witness :
  JSON_parse_backup backup2 =
    Some (BackupValue (VaultsArray ([record1] ++ record2 :: [])) None) ∧
  (∀ i, (i < length [record1])%nat →
     fault_at (oracle world_second_fails) (io_pos world_second_fails + i) = None) ∧
  fault_at (oracle world_second_fails) (io_pos world_second_fails + length [record1]) =
    Some RequestFails ∧
  ∃ e w',
    importData backup2 world_second_fails = (Throw e, w') ∧
    (e = Err "Failed to open database" ∨ e = Err "Failed to save vault") ∧
    db_vaults w' = upsert_all (db_vaults world_second_fails) [record1] ∧
    db_settings w' = db_settings world_second_fails.
Proof.
  assert (Hserved : ∀ i, (i < length [record1])%nat →
            fault_at (oracle world_second_fails) (io_pos world_second_fails + i) = None).
  { intros [|i] Hi; [reflexivity | simpl in Hi; lia]. }
  split; [exact (parse_stringify_backup _)|]. split; [exact Hserved|].
  split; [reflexivity|].
  exact (importData_stops_at_fault backup2 [record1] [] record2 None RequestFails
           world_second_fails (parse_stringify_backup _) Hserved eq_refl).
Defined.

Lemma generated_password_strength_witness :
  any_selected (mkOptions true true true true) = true ∧ (12 ≤ 16)%nat ∧
  (N.of_nat 16 ≤ random_quota)%N ∧
  ∃ password,
    generatePassword 16 (mkOptions true true true true) world0 =
      (Ok password, advance_rng 16 world0) ∧
    (3 ≤ checkPasswordStrength (code_units password) ≤ 4)%Z.
Proof.
  assert (Hlen : (12 ≤ 16)%nat) by lia.
  assert (Hquota : (N.of_nat 16 ≤ random_quota)%N) by (by vm_compute).
  split; [reflexivity|]. split; [exact Hlen|]. split; [exact Hquota|].
  exact (generated_password_strength 16 (mkOptions true true true true) world0
           eq_refl Hlen Hquota).
Defined.

Lemma openVault_twice_witness :
  healthy world1 ∧ keyed_by_id world1 ∧
  db_vaults world1 !! "uuid-0" = Some record1 ∧
  unseal record1 "hunter2" = Some defaultVaultData ∧
  ∃ first w1 second w2,
    openVault "uuid-0" "hunter2" world1 = (Ok (first, defaultVaultData), w1) ∧
    openVault "uuid-0" "hunter2" w1 = (Ok (second, defaultVaultData), w2) ∧
    vault_lastAccessed first = time_at (oracle world1) (clock_pos world1) ∧
    db_vaults w1 =
      <["uuid-0" := touch record1 (vault_lastAccessed first)]> (db_vaults world1) ∧
    first = metadata (touch record1 (vault_lastAccessed first)) ∧
    second = metadata (touch record1 (vault_lastAccessed second)).
Proof.
  split; [exact healthy_world1|]. split; [exact keyed_by_id_world1|].
  split; [exact world1_record|]. split; [exact world1_unseals|].
  exact (openVault_twice "uuid-0" "hunter2" world1 record1 defaultVaultData
           healthy_world1 keyed_by_id_world1 world1_record world1_unseals).
Defined.

Lemma updateVault_then_openVault_witness :
  healthy world1 ∧ keyed_by_id world1 ∧
  db_vaults world1 !! "uuid-0" = Some record1 ∧
  decodeBase64 (ev_salt record1) = Some (fresh_bytes 16 world0) ∧
  ∃ updated w1 opened w2,
    updateVault "uuid-0" "hunter2" one_credential (Some "Renamed") world1 =
      (Ok updated, w1) ∧
    openVault "uuid-0" "hunter2" w1 = (Ok (opened, one_credential), w2) ∧
    vault_name updated =
      (if decide ("Renamed" = "") then ev_name record1 else "Renamed") ∧
    vault_name opened = vault_name updated ∧
    vault_lastModified updated = time_at (oracle world1) (clock_pos world1) ∧
    vault_lastAccessed updated = time_at (oracle world1) (clock_pos world1) ∧
    vault_createdAt updated = ev_createdAt record1.
Proof.
  split; [exact healthy_world1|]. split; [exact keyed_by_id_world1|].
  split; [exact world1_record|]. split; [exact record1_salt|].
  exact (updateVault_then_openVault "uuid-0" "hunter2" one_credential (Some "Renamed")
           world1 record1 (fresh_bytes 16 world0)
           healthy_world1 keyed_by_id_world1 world1_record record1_salt).
Defined.


Lemma one_credential_found :
  list_find (λ c, cred_id c = "c-1") (credentials one_credential) = Some (0%nat, email).
Proof. reflexivity. Qed.

Lemma one_credential_ids : NoDup (cred_id <$> credentials one_credential).
Proof. apply NoDup_singleton. Qed.

Lemma updateCredential_in_place_witness :
  healthy world1_overwritten ∧ keyed_by_id world1_overwritten ∧
  db_vaults world1_overwritten !! "uuid-0" = Some record1_overwritten ∧
  unseal record1_overwritten "hunter3" = Some one_credential ∧
  list_find (λ c, cred_id c = "c-1") (credentials one_credential) = Some (0%nat, email) ∧
  ∃ updated w' vault opened w'',
    updateCredential "uuid-0" "hunter3" "c-1" form_update world1_overwritten =
      (Ok updated, w') ∧
    cred_id updated = "c-1" ∧
    cred_createdAt updated = cred_createdAt email ∧
    cred_lastModified updated =
      time_at (oracle world1_overwritten) (S (clock_pos world1_overwritten)) ∧
    cred_title updated = default (cred_title email) (upd_title form_update) ∧
    cred_username updated = default (cred_username email) (upd_username form_update) ∧
    cred_password updated = default (cred_password email) (upd_password form_update) ∧
    cred_url updated =
      match upd_url form_update with
      | Absent => cred_url email | Undefined => None | Present x => Some x
      end ∧
    cred_notes updated =
      match upd_notes form_update with
      | Absent => cred_notes email | Undefined => None | Present x => Some x
      end ∧
    cred_category updated =
      match upd_category form_update with
      | Absent => cred_category email | Undefined => None | Present x => Some x
      end ∧
    cred_tags updated =
      match upd_tags form_update with
      | Absent => cred_tags email | Undefined => None | Present x => Some x
      end ∧
    openVault "uuid-0" "hunter3" w' = (Ok (vault, opened), w'') ∧
    settings opened = settings one_credential ∧
    length (credentials opened) = length (credentials one_credential) ∧
    credentials opened !! 0%nat = Some updated ∧
    (∀ j, j ≠ 0%nat → credentials opened !! j = credentials one_credential !! j).
Proof.
  split; [exact healthy_world1_overwritten|].
  split; [exact keyed_by_id_world1_overwritten|].
  split; [exact world1_overwritten_record|].
  split; [exact record1_overwritten_unseals|].
  split; [exact one_credential_found|].
  exact (updateCredential_in_place "uuid-0" "hunter3" "c-1" form_update
           world1_overwritten record1_overwritten one_credential 0 email
           healthy_world1_overwritten keyed_by_id_world1_overwritten
           world1_overwritten_record record1_overwritten_unseals one_credential_found).
Defined.

Lemma deleteCredential_removes_witness :
  healthy world1_overwritten ∧ keyed_by_id world1_overwritten ∧
  db_vaults world1_overwritten !! "uuid-0" = Some record1_overwritten ∧
  unseal record1_overwritten "hunter3" = Some one_credential ∧
  ∃ w' vault opened w'',
    deleteCredential "uuid-0" "hunter3" "c-1" world1_overwritten = (Ok tt, w') ∧
    openVault "uuid-0" "hunter3" w' = (Ok (vault, opened), w'') ∧
    settings opened = settings one_credential ∧
    credentials opened = filter (λ c, cred_id c ≠ "c-1") (credentials one_credential) ∧
    (∀ c, c ∈ credentials opened ↔ c ∈ credentials one_credential ∧ cred_id c ≠ "c-1") ∧
    credentials opened `sublist_of` credentials one_credential ∧
    ("c-1" ∉ cred_id <$> credentials one_credential →
       credentials opened = credentials one_credential).
Proof.
  split; [exact healthy_world1_overwritten|].
  split; [exact keyed_by_id_world1_overwritten|].
  split; [exact world1_overwritten_record|].
  split; [exact record1_overwritten_unseals|].
  exact (deleteCredential_removes "uuid-0" "hunter3" "c-1"
           world1_overwritten record1_overwritten one_credential
           healthy_world1_overwritten keyed_by_id_world1_overwritten
           world1_overwritten_record record1_overwritten_unseals).
Defined.

Lemma updateVaultSettings_merges_witness :
  healthy world1 ∧ keyed_by_id world1 ∧
  db_vaults world1 !! "uuid-0" = Some record1 ∧
  unseal record1 "hunter2" = Some defaultVaultData ∧
  ∃ merged w' vault w'',
    updateVaultSettings "uuid-0" "hunter2" (Some timeout_only) world1 = (Ok tt, w') ∧
    openVault "uuid-0" "hunter2" w' =
      (Ok (vault, {| credentials := credentials defaultVaultData;
                     settings := Some merged |}), w'') ∧
    autoLockTimeout merged =
      match Some timeout_only ≫= autoLockTimeout with
      | Some x => Some x
      | None => settings defaultVaultData ≫= autoLockTimeout
      end ∧
    categories merged =
      match Some timeout_only ≫= categories with
      | Some x => Some x
      | None => settings defaultVaultData ≫= categories
      end ∧
    defaultCategory merged =
      match Some timeout_only ≫= defaultCategory with
      | Some x => Some x
      | None => settings defaultVaultData ≫= defaultCategory
      end.
Proof.
  split; [exact healthy_world1|]. split; [exact keyed_by_id_world1|].
  split; [exact world1_record|]. split; [exact world1_unseals|].
  exact (updateVaultSettings_merges "uuid-0" "hunter2" (Some timeout_only)
           world1 record1 defaultVaultData
           healthy_world1 keyed_by_id_world1 world1_record world1_unseals).
Defined.

Lemma getVaults_lists_the_store_witness :
  fault_at (oracle world1) (io_pos world1) = None ∧ keyed_by_id world1 ∧
  ∃ vaults w',
    getVaults world1 = (Ok vaults, w') ∧ stores_eq world1 w' ∧
    length vaults = size (db_vaults world1) ∧
    NoDup (vault_id <$> vaults) ∧
    (∀ v, v ∈ vaults ↔
          ∃ ev, db_vaults world1 !! vault_id v = Some ev ∧ v = metadata ev).
Proof.
  split; [exact (healthy_world1 _)|]. split; [exact keyed_by_id_world1|].
  exact (getVaults_lists_the_store world1 (healthy_world1 _) keyed_by_id_world1).
Defined.

Lemma removeVault_then_openVault_witness :
  healthy world1 ∧ keyed_by_id world1 ∧
  ∃ w1,
    removeVault "uuid-0" world1 = (Ok tt, w1) ∧
    (∃ w2, openVault "uuid-0" "hunter2" w1 = (Throw (Err "Vault not found"), w2)) ∧
    (∃ vaults w2, getVaults w1 = (Ok vaults, w2) ∧ "uuid-0" ∉ vault_id <$> vaults) ∧
    (∀ k, k ≠ "uuid-0" → db_vaults w1 !! k = db_vaults world1 !! k).
Proof.
  split; [exact healthy_world1|]. split; [exact keyed_by_id_world1|].
  exact (removeVault_then_openVault "uuid-0" "hunter2" world1
           healthy_world1 keyed_by_id_world1).
Defined.

Lemma provider_actions_stay_in_sync_witness :
  healthy world1 ∧ keyed_by_id world1 ∧ in_sync session1 world1 defaultVaultData ∧
  (∀ credential, ∃ c st' w',
     provider_addCredential credential session1 world1 = (Ok c, st', w') ∧
     in_sync st' w'
       (with_credentials defaultVaultData (credentials defaultVaultData ++ [c])) ∧
     error st' = None ∧ isLoading st' = false) ∧
  (∀ id, ∃ st' w',
     provider_deleteCredential id session1 world1 = (Ok tt, st', w') ∧
     in_sync st' w'
       (with_credentials defaultVaultData
          (filter (λ c, cred_id c ≠ id) (credentials defaultVaultData))) ∧
     error st' = None ∧ isLoading st' = false) ∧
  (∀ newSettings, ∃ st' w',
     provider_updateVaultSettings newSettings session1 world1 = (Ok tt, st', w') ∧
     in_sync st' w'
       {| credentials := credentials defaultVaultData;
          settings := Some (merge_settings (settings defaultVaultData) newSettings) |} ∧
     error st' = None ∧ isLoading st' = false).
Proof.
  split; [exact healthy_world1|]. split; [exact keyed_by_id_world1|].
  split; [exact in_sync_session1|].
  exact (provider_actions_stay_in_sync session1 world1 defaultVaultData
           healthy_world1 keyed_by_id_world1 in_sync_session1).
Defined.

Lemma provider_updateCredential_in_sync_witness :
  healthy world1_overwritten ∧ keyed_by_id world1_overwritten ∧
  in_sync session_overwritten world1_overwritten one_credential ∧
  list_find (λ c, cred_id c = "c-1") (credentials one_credential) = Some (0%nat, email) ∧
  NoDup (cred_id <$> credentials one_credential) ∧
  ∃ updated st' w' vault password ev' local stored,
    provider_updateCredential "c-1" form_update session_overwritten world1_overwritten =
      (Ok updated, st', w') ∧
    error st' = None ∧ isLoading st' = false ∧
    vaultData st' = Some local ∧
    credentials local =
      (λ c, if decide (cred_id c = "c-1") then updated else c)
        <$> credentials one_credential ∧
    settings local = settings one_credential ∧
    currentVault st' = Some vault ∧ masterPassword st' = Some password ∧
    db_vaults w' !! vault_id vault = Some ev' ∧
    unseal ev' password = Some stored ∧
    credentials stored = <[0%nat := updated]> (credentials one_credential) ∧
    settings stored = settings one_credential ∧
    (NoDup (cred_id <$> credentials one_credential) →
       local = stored ∧ in_sync st' w' stored).
Proof.
  split; [exact healthy_world1_overwritten|].
  split; [exact keyed_by_id_world1_overwritten|].
  split; [exact in_sync_session_overwritten|].
  split; [exact one_credential_found|]. split; [exact one_credential_ids|].
  exact (provider_updateCredential_in_sync session_overwritten world1_overwritten
           one_credential "c-1" form_update 0 email
           healthy_world1_overwritten keyed_by_id_world1_overwritten
           in_sync_session_overwritten one_credential_found).
Defined.

Lemma provider_openExistingVault_in_sync_witness :
  healthy world1 ∧ keyed_by_id world1 ∧
  db_vaults world1 !! "uuid-0" = Some record1 ∧
  unseal record1 "hunter2" = Some defaultVaultData ∧ "hunter2" ≠ "" ∧
  ∃ ps' w',
    provider_openExistingVault "uuid-0" "hunter2" closed world1 = (Ok tt, ps', w') ∧
    in_sync (app ps') w' defaultVaultData ∧
    isLocked ps' = false ∧ error (app ps') = None ∧ isLoading (app ps') = false ∧
    healthy w' ∧ keyed_by_id w'.
Proof.
  assert (Hne : "hunter2" ≠ "") by done.
  split; [exact healthy_world1|]. split; [exact keyed_by_id_world1|].
  split; [exact world1_record|]. split; [exact world1_unseals|]. split; [exact Hne|].
  exact (provider_openExistingVault_in_sync "uuid-0" "hunter2" closed world1 record1
           defaultVaultData healthy_world1 keyed_by_id_world1 world1_record
           world1_unseals Hne).
Defined.

Lemma service_changeMasterPassword_rotates_witness :
  healthy world1 ∧ keyed_by_id world1 ∧
  db_vaults world1 !! "uuid-0" = Some record1 ∧
  unseal record1 "hunter2" = Some defaultVaultData ∧ "hunter2" ≠ "hunter3" ∧
  ∃ w' ev',
    changeMasterPassword "uuid-0" "hunter2" "hunter3" world1 = (Ok tt, w') ∧
    db_vaults w' !! "uuid-0" = Some ev' ∧
    ev_salt ev' = encodeBase64 (fresh_bytes 16 world1) ∧
    ev_id ev' = ev_id record1 ∧ ev_name ev' = ev_name record1 ∧
    ev_createdAt ev' = ev_createdAt record1 ∧
    (∃ vault w'',
       openVault "uuid-0" "hunter3" w' = (Ok (vault, defaultVaultData), w'')) ∧
    (∃ w'', openVault "uuid-0" "hunter2" w' = (Throw wrong_password_or_corrupt, w'')).
Proof.
  assert (Hne : "hunter2" ≠ "hunter3") by done.
  split; [exact healthy_world1|]. split; [exact keyed_by_id_world1|].
  split; [exact world1_record|]. split; [exact world1_unseals|]. split; [exact Hne|].
  exact (service_changeMasterPassword_rotates "uuid-0" "hunter2" "hunter3" world1
           record1 defaultVaultData healthy_world1 keyed_by_id_world1 world1_record
           world1_unseals Hne).
Defined.

Lemma service_changeMasterPassword_wrong_current_witness :
  db_vaults world1 !! "uuid-0" = Some record1 ∧ unseal record1 "hunter1" = None ∧
  ∃ e w',
    changeMasterPassword "uuid-0" "hunter1" "hunter3" world1 = (Throw e, w') ∧
    stores_eq world1 w' ∧
    (fault_at (oracle world1) (io_pos world1) = None → e = wrong_password_or_corrupt).
Proof.
  split; [exact world1_record|]. split; [exact record1_wrong_password|].
  exact (service_changeMasterPassword_wrong_current "uuid-0" "hunter1" "hunter3"
           world1 record1 world1_record record1_wrong_password).
Defined.

Lemma updateCredential_unknown_id_witness :
  healthy world1 ∧ keyed_by_id world1 ∧
  db_vaults world1 !! "uuid-0" = Some record1 ∧
  unseal record1 "hunter2" = Some defaultVaultData ∧
  ("absent" ∉ cred_id <$> credentials defaultVaultData) ∧
  ∃ w',
    updateCredential "uuid-0" "hunter2" "absent" no_updates world1 =
      (Throw (Err "Credential not found"), w') ∧
    db_vaults w' =
      <["uuid-0" := touch record1 (time_at (oracle world1) (clock_pos world1))]>
        (db_vaults world1) ∧
    unseal (touch record1 (time_at (oracle world1) (clock_pos world1))) "hunter2" =
      Some defaultVaultData ∧
    db_settings w' = db_settings world1.
Proof.
  assert (Habsent : "absent" ∉ cred_id <$> credentials defaultVaultData)
    by apply not_elem_of_nil.
  split; [exact healthy_world1|]. split; [exact keyed_by_id_world1|].
  split; [exact world1_record|]. split; [exact world1_unseals|].
  split; [exact Habsent|].
  exact (updateCredential_unknown_id "uuid-0" "hunter2" "absent" no_updates world1
           record1 defaultVaultData healthy_world1 keyed_by_id_world1 world1_record
           world1_unseals Habsent).
Defined.


Lemma provider_changeMasterPassword_after_lock_witness :
  healthy world1 ∧ keyed_by_id world1 ∧
  currentVault (app opened_session) = Some vault1 ∧
  db_vaults world1 !! vault_id vault1 = Some record1 ∧
  decodeBase64 (ev_salt record1) = Some (fresh_bytes 16 world0) ∧
  ∃ st' w' ev',
    provider_changeMasterPassword (app (lockVault opened_session))
      "hunter1" "hunter3hunter3" world1 = (Ok tt, st', w') ∧
    masterPassword st' = Some "hunter3hunter3" ∧ vaultData st' = None ∧
    error st' = None ∧
    db_vaults w' !! vault_id vault1 = Some ev' ∧
    ev_salt ev' = ev_salt record1 ∧
    (encryptedData ← decodeBase64 (ev_encryptedData ev');
     iv ← decodeBase64 (ev_iv ev');
     aes_gcm_decrypt (key_of "hunter1" (fresh_bytes 16 world0)) iv encryptedData) =
      Some (TextEncoder_encode "null").
Proof.
  split; [exact healthy_world1|]. split; [exact keyed_by_id_world1|].
  split; [reflexivity|]. split; [exact world1_record|]. split; [exact record1_salt|].
  exact (provider_changeMasterPassword_after_lock opened_session vault1
           "hunter1" "hunter3hunter3" world1 record1 (fresh_bytes 16 world0)
           healthy_world1 keyed_by_id_world1 eq_refl world1_record record1_salt).
Defined.

(** [getAll] lists by key, whatever the order the records were put in. *)
Example records_by_key_order :
  records_by_key (<["uuid-1" := record2]> (<["uuid-0" := record1]> ∅)) =
    [record1; record2] ∧
  records_by_key (<["uuid-0" := record1]> (<["uuid-1" := record2]> ∅)) =
    [record1; record2].
Proof. split; vm_compute; reflexivity. Qed.

End MoreExamples.
